(** * Row-level security of the Clarity Label schema

    The access rules of the application live in the SQL migrations under
    [supabase/migrations]: the initial schema (tables, constraints, the
    [has_role] function and the first set of policies) and the later
    migrations that create and drop policies.  This development embeds

    - the tables as records, one module per table, columns under their SQL
      names;
    - every policy of every migration as a boolean function of the stored
      rows, the caller and the row under test, exactly as its [USING] and
      [WITH CHECK] expressions read;
    - the migrations as lists of [CREATE POLICY] / [DROP POLICY IF EXISTS]
      statements, replayed over a policy catalog;
    - the way PostgreSQL combines the permissive policies of a table for one
      command, and the way a single-row statement is executed against the
      constraints of the schema (primary keys, [UNIQUE], foreign keys with
      [ON DELETE CASCADE]).

    The pages of the client that talk to the store ([LabelManagement],
    [ProjectDetail], [Dashboard], [ImageUpload]) are embedded as functions
    from the store and the state of the page to the store and the state they
    leave, over the same execution of statements; what a page draws from the
    browser (random ids, object URLs, whether an image loads and how large
    it is) is a parameter of its handlers.

    Columns that no policy and no constraint reads (timestamps, file
    metadata, the JSON payload of an annotation) are left out of the
    records.  The [auth] schema belongs to the authentication service; the
    columns referencing [auth.users] are kept as plain identifiers, and the
    execution of a statement does not test them: where a theorem states that
    a write succeeds, the user columns the write sets hold the id of the
    caller, [NULL], or the id of a stored profile. *)

From Stdlib Require Import DecimalString String Bool Arith NArith Lia List.
Import ListNotations.
Local Open Scope string_scope.
Local Open Scope bool_scope.
Local Open Scope list_scope.

Set Implicit Arguments.

(** ** Identifiers and enumerations *)

(** A UUID; the generated client types it as [string]. *)
Definition uuid := string.

Definition uuid_eqb (a b : uuid) : bool := String.eqb a b.

(** [CREATE TYPE public.user_role AS ENUM ('admin', 'annotator', 'reviewer')] *)
Inductive user_role := admin | annotator | reviewer.

Definition user_role_eqb (a b : user_role) : bool :=
  match a, b with
  | admin, admin | annotator, annotator | reviewer, reviewer => true
  | _, _ => false
  end.

(** [CREATE TYPE public.annotation_type AS ENUM (...)] *)
Inductive annotation_type :=
  bounding_box | polygon | keypoint | classification | mask.

(** [CREATE TYPE public.project_status AS ENUM (...)] *)
Inductive project_status := active | completed | paused.

(** [CREATE TYPE public.image_status AS ENUM (...)] *)
Inductive image_status :=
  pending | in_progress | img_completed | reviewed | rejected.

(** ** Tables *)

Module profiles.
Record row := {
  id : uuid;
  email : string;
  full_name : option string;
  role : user_role
}.
End profiles.

Module projects.
Record row := {
  id : uuid;
  name : string;
  description : option string;
  created_by : uuid;
  status : project_status
}.
End projects.

Module project_members.
Record row := {
  id : uuid;
  project_id : uuid;
  user_id : uuid;
  role : user_role
}.
End project_members.

Module labels.
Record row := {
  id : uuid;
  project_id : uuid;
  name : string;
  color : string;
  annotation_type : annotation_type
}.
End labels.

Module images.
Record row := {
  id : uuid;
  project_id : uuid;
  filename : string;
  status : image_status;
  assigned_to : option uuid;
  uploaded_by : uuid
}.
End images.

Module annotations.
Record row := {
  id : uuid;
  image_id : uuid;
  label_id : uuid;
  annotation_type : annotation_type;
  created_by : uuid;
  reviewed_by : option uuid;
  is_approved : option bool;
  notes : option string
}.
End annotations.

Inductive table :=
  Profiles | Projects | ProjectMembers | Labels | Images | Annotations.

Definition table_eq_dec (a b : table) : {a = b} + {a <> b}.
Proof. decide equality. Defined.

Definition row (t : table) : Type :=
  match t with
  | Profiles => profiles.row
  | Projects => projects.row
  | ProjectMembers => project_members.row
  | Labels => labels.row
  | Images => images.row
  | Annotations => annotations.row
  end.

(** The stored rows of the [public] schema. *)
Record database := {
  t_profiles : list profiles.row;
  t_projects : list projects.row;
  t_project_members : list project_members.row;
  t_labels : list labels.row;
  t_images : list images.row;
  t_annotations : list annotations.row
}.

Definition empty_db : database :=
  {| t_profiles := []; t_projects := []; t_project_members := [];
     t_labels := []; t_images := []; t_annotations := [] |}.

Definition rows (db : database) (t : table) : list (row t) :=
  match t with
  | Profiles => t_profiles db
  | Projects => t_projects db
  | ProjectMembers => t_project_members db
  | Labels => t_labels db
  | Images => t_images db
  | Annotations => t_annotations db
  end.

Definition set_rows (db : database) (t : table) : list (row t) -> database :=
  match t with
  | Profiles => fun l =>
      {| t_profiles := l; t_projects := t_projects db;
         t_project_members := t_project_members db; t_labels := t_labels db;
         t_images := t_images db; t_annotations := t_annotations db |}
  | Projects => fun l =>
      {| t_profiles := t_profiles db; t_projects := l;
         t_project_members := t_project_members db; t_labels := t_labels db;
         t_images := t_images db; t_annotations := t_annotations db |}
  | ProjectMembers => fun l =>
      {| t_profiles := t_profiles db; t_projects := t_projects db;
         t_project_members := l; t_labels := t_labels db;
         t_images := t_images db; t_annotations := t_annotations db |}
  | Labels => fun l =>
      {| t_profiles := t_profiles db; t_projects := t_projects db;
         t_project_members := t_project_members db; t_labels := l;
         t_images := t_images db; t_annotations := t_annotations db |}
  | Images => fun l =>
      {| t_profiles := t_profiles db; t_projects := t_projects db;
         t_project_members := t_project_members db; t_labels := t_labels db;
         t_images := l; t_annotations := t_annotations db |}
  | Annotations => fun l =>
      {| t_profiles := t_profiles db; t_projects := t_projects db;
         t_project_members := t_project_members db; t_labels := t_labels db;
         t_images := t_images db; t_annotations := l |}
  end.

(** The primary key of a row: every table has [id UUID PRIMARY KEY]. *)
Definition pk (t : table) : row t -> uuid :=
  match t with
  | Profiles => profiles.id
  | Projects => projects.id
  | ProjectMembers => project_members.id
  | Labels => labels.id
  | Images => images.id
  | Annotations => annotations.id
  end.

(** ** Callers *)

(** The session of a request.  [auth.uid()] is the subject of the caller's
    token: [NULL] for the [anon] role, the user's id for [authenticated]. *)
Inductive caller := Anon | Authenticated (uid : uuid).

Definition auth_uid (who : caller) : option uuid :=
  match who with Anon => None | Authenticated u => Some u end.

(** [col = auth.uid()] for a [NOT NULL] column.  A comparison with [NULL] is
    not true, and the policies below combine their comparisons with [AND],
    [OR] and [EXISTS] only, so the unknown value never turns into [TRUE]. *)
Definition eq_uid (col : uuid) (uid : option uuid) : bool :=
  match uid with Some u => uuid_eqb col u | None => false end.

(** [public.has_role(_user_id, _role)]:
    [SELECT EXISTS (SELECT 1 FROM public.profiles
                    WHERE id = _user_id AND role = _role)].
    The function is [SECURITY DEFINER]: it reads [profiles] past the
    policies of that table. *)
Definition has_role (db : database) (_user_id : option uuid) (_role : user_role)
  : bool :=
  existsb (fun pr => eq_uid (profiles.id pr) _user_id
                     && user_role_eqb (profiles.role pr) _role)
          (t_profiles db).

(** ** Policies *)

Inductive command := SELECT | INSERT | UPDATE | DELETE.

(** The [FOR] clause of a policy. *)
Inductive polcmd := FOR_ALL | FOR (c : command).

(** The [TO] clause: absent ([PUBLIC], every role) or [TO authenticated]. *)
Inductive polroles := TO_public | TO_authenticated.

(** A policy expression sees the stored rows (through its sub-selects),
    [auth.uid()] and the row under test. *)
Definition expr (t : table) : Type := database -> option uuid -> row t -> bool.

Record policy (t : table) := {
  polname : string;
  polcmd_of : polcmd;
  polroles_of : polroles;
  polqual : option (expr t);        (* USING *)
  polwithcheck : option (expr t)    (* WITH CHECK *)
}.

Arguments polname {t} _.
Arguments polcmd_of {t} _.
Arguments polroles_of {t} _.
Arguments polqual {t} _.
Arguments polwithcheck {t} _.

(** *** Policy expressions, as written in the migrations *)

(** [auth.uid() = id] on [profiles]. *)
Definition q_own_profile : expr Profiles :=
  fun _ uid pr => eq_uid (profiles.id pr) uid.

(** [public.has_role(auth.uid(), 'admin')], on any table. *)
Definition q_is_admin (t : table) : expr t :=
  fun db uid _ => has_role db uid admin.

(** [EXISTS (SELECT 1 FROM public.project_members
             WHERE project_id = projects.id AND user_id = auth.uid())] *)
Definition q_member_of_project : expr Projects :=
  fun db uid p =>
    existsb (fun pm => uuid_eqb (project_members.project_id pm) (projects.id p)
                       && eq_uid (project_members.user_id pm) uid)
            (t_project_members db).

(** [created_by = auth.uid()] on [projects]. *)
Definition q_project_creator : expr Projects :=
  fun _ uid p => eq_uid (projects.created_by p) uid.

(** [created_by = auth.uid() OR has_role(auth.uid(), 'admin'::user_role)] *)
Definition q_project_creator_or_admin : expr Projects :=
  fun db uid p => eq_uid (projects.created_by p) uid || has_role db uid admin.

(** [user_id = auth.uid()] on [project_members]. *)
Definition q_own_membership : expr ProjectMembers :=
  fun _ uid pm => eq_uid (project_members.user_id pm) uid.

(** [project_id IN (SELECT id FROM public.projects
                    WHERE created_by = auth.uid())
     AND user_id = auth.uid()] *)
Definition q_creator_self_enrol : expr ProjectMembers :=
  fun db uid pm =>
    existsb (uuid_eqb (project_members.project_id pm))
            (map projects.id
                 (filter (fun p => eq_uid (projects.created_by p) uid)
                         (t_projects db)))
    && eq_uid (project_members.user_id pm) uid.

(** [EXISTS (SELECT 1 FROM public.project_members
             WHERE project_id = labels.project_id AND user_id = auth.uid())
     OR public.has_role(auth.uid(), 'admin')] *)
Definition q_label_member_or_admin : expr Labels :=
  fun db uid l =>
    existsb (fun pm => uuid_eqb (project_members.project_id pm) (labels.project_id l)
                       && eq_uid (project_members.user_id pm) uid)
            (t_project_members db)
    || has_role db uid admin.

(** The same expression on [images]. *)
Definition q_image_member_or_admin : expr Images :=
  fun db uid i =>
    existsb (fun pm => uuid_eqb (project_members.project_id pm) (images.project_id i)
                       && eq_uid (project_members.user_id pm) uid)
            (t_project_members db)
    || has_role db uid admin.

(** [EXISTS (SELECT 1 FROM public.project_members pm
             JOIN public.images i ON i.project_id = pm.project_id
             WHERE i.id = annotations.image_id AND pm.user_id = auth.uid())] *)
Definition member_of_annotation_project
  (db : database) (uid : option uuid) (a : annotations.row) : bool :=
  existsb (fun pm =>
    existsb (fun i => uuid_eqb (images.project_id i) (project_members.project_id pm)
                      && (uuid_eqb (images.id i) (annotations.image_id a)
                          && eq_uid (project_members.user_id pm) uid))
            (t_images db))
    (t_project_members db).

Definition q_annotation_member_or_admin : expr Annotations :=
  fun db uid a => member_of_annotation_project db uid a || has_role db uid admin.

Definition q_annotation_member_and_author : expr Annotations :=
  fun db uid a =>
    member_of_annotation_project db uid a && eq_uid (annotations.created_by a) uid.

(** [created_by = auth.uid() OR public.has_role(auth.uid(), 'reviewer')
     OR public.has_role(auth.uid(), 'admin')] *)
Definition q_annotation_author_reviewer_admin : expr Annotations :=
  fun db uid a =>
    eq_uid (annotations.created_by a) uid
    || has_role db uid reviewer || has_role db uid admin.

(** [EXISTS (SELECT 1 FROM projects
             WHERE projects.id = images.project_id
             AND projects.created_by = auth.uid())] *)
Definition q_image_in_own_project : expr Images :=
  fun db uid i =>
    existsb (fun p => uuid_eqb (projects.id p) (images.project_id i)
                      && eq_uid (projects.created_by p) uid)
            (t_projects db).

(** [EXISTS (SELECT 1 FROM projects
             WHERE projects.id = labels.project_id
             AND projects.created_by = auth.uid())] *)
Definition q_label_in_own_project : expr Labels :=
  fun db uid l =>
    existsb (fun p => uuid_eqb (projects.id p) (labels.project_id l)
                      && eq_uid (projects.created_by p) uid)
            (t_projects db).

(** [EXISTS (SELECT 1 FROM images
             JOIN projects ON projects.id = images.project_id
             WHERE images.id = annotations.image_id
             AND projects.created_by = auth.uid())] *)
Definition q_annotation_in_own_project : expr Annotations :=
  fun db uid a =>
    existsb (fun i =>
      existsb (fun p => uuid_eqb (projects.id p) (images.project_id i)
                        && (uuid_eqb (images.id i) (annotations.image_id a)
                            && eq_uid (projects.created_by p) uid))
              (t_projects db))
      (t_images db).

(** The [WITH CHECK] of the same policy: [EXISTS (...) AND created_by = auth.uid()]. *)
Definition q_annotation_in_own_project_and_author : expr Annotations :=
  fun db uid a =>
    q_annotation_in_own_project db uid a && eq_uid (annotations.created_by a) uid.

(** *** Migrations *)

Inductive stmt :=
| CREATE_POLICY (t : table) (p : policy t)
| DROP_POLICY_IF_EXISTS (name : string) (t : table).

Definition mk (t : table) (name : string) (c : polcmd) (r : polroles)
  (qual with_check : option (expr t)) : stmt :=
  CREATE_POLICY {| polname := name; polcmd_of := c; polroles_of := r;
                   polqual := qual; polwithcheck := with_check |}.

Arguments mk t name c r qual with_check : clear implicits.

(** The initial schema: the policies created with the tables. *)
Definition migration_initial_schema : list stmt := [
  mk Profiles "Users can view own profile" (FOR SELECT) TO_public
     (Some q_own_profile) None;
  mk Profiles "Users can update own profile" (FOR UPDATE) TO_public
     (Some q_own_profile) None;
  mk Projects "Admins can view all projects" (FOR SELECT) TO_public
     (Some (q_is_admin Projects)) None;
  mk Projects "Members can view assigned projects" (FOR SELECT) TO_public
     (Some q_member_of_project) None;
  mk Projects "Admins can create projects" (FOR INSERT) TO_public
     None (Some (q_is_admin Projects));
  mk Projects "Admins can update projects" (FOR UPDATE) TO_public
     (Some (q_is_admin Projects)) None;
  mk ProjectMembers "Admins can manage project members" FOR_ALL TO_public
     (Some (q_is_admin ProjectMembers)) None;
  mk ProjectMembers "Users can view their project memberships" (FOR SELECT) TO_public
     (Some q_own_membership) None;
  mk Labels "Project members can view labels" (FOR SELECT) TO_public
     (Some q_label_member_or_admin) None;
  mk Labels "Admins can manage labels" FOR_ALL TO_public
     (Some (q_is_admin Labels)) None;
  mk Images "Project members can view images" (FOR SELECT) TO_public
     (Some q_image_member_or_admin) None;
  mk Images "Admins can manage images" FOR_ALL TO_public
     (Some (q_is_admin Images)) None;
  mk Annotations "Project members can view annotations" (FOR SELECT) TO_public
     (Some q_annotation_member_or_admin) None;
  mk Annotations "Annotators can create annotations" (FOR INSERT) TO_public
     None (Some q_annotation_member_and_author);
  mk Annotations "Users can update own annotations" (FOR UPDATE) TO_public
     (Some q_annotation_author_reviewer_admin) None
].

(** "Update RLS policy to allow users to create their own projects". *)
Definition migration_users_create_projects : list stmt := [
  DROP_POLICY_IF_EXISTS "Admins can create projects" Projects;
  mk Projects "Users can create projects" (FOR INSERT) TO_public
     None (Some q_project_creator);
  DROP_POLICY_IF_EXISTS "Admins can update projects" Projects;
  mk Projects "Creators and admins can update projects" (FOR UPDATE) TO_public
     (Some q_project_creator_or_admin) None
].

(** "Allow project creators to add themselves as members". *)
Definition migration_creator_self_enrol : list stmt := [
  mk ProjectMembers "Project creator can add themselves as member" (FOR INSERT)
     TO_public None (Some q_creator_self_enrol)
].

(** 20250909171051_wispy_butterfly: "Fix projects table INSERT policy". *)
Definition migration_wispy_butterfly : list stmt := [
  DROP_POLICY_IF_EXISTS "Users can create projects" Projects;
  mk Projects "Authenticated users can create projects" (FOR INSERT)
     TO_authenticated None (Some q_project_creator)
].

(** 20250909171528_wild_haze: "Simplify RLS policies for better user
    experience". *)
Definition migration_wild_haze : list stmt := [
  DROP_POLICY_IF_EXISTS "Authenticated users can create projects" Projects;
  DROP_POLICY_IF_EXISTS "Members can view assigned projects" Projects;
  DROP_POLICY_IF_EXISTS "Creators and admins can update projects" Projects;
  DROP_POLICY_IF_EXISTS "Admins can view all projects" Projects;
  mk Projects "Users can manage their own projects" FOR_ALL TO_authenticated
     (Some q_project_creator) (Some q_project_creator);
  DROP_POLICY_IF_EXISTS "Project members can view images" Images;
  DROP_POLICY_IF_EXISTS "Admins can manage images" Images;
  mk Images "Users can manage images in their projects" FOR_ALL TO_authenticated
     (Some q_image_in_own_project) (Some q_image_in_own_project);
  DROP_POLICY_IF_EXISTS "Project members can view labels" Labels;
  DROP_POLICY_IF_EXISTS "Admins can manage labels" Labels;
  mk Labels "Users can manage labels in their projects" FOR_ALL TO_authenticated
     (Some q_label_in_own_project) (Some q_label_in_own_project);
  DROP_POLICY_IF_EXISTS "Project members can view annotations" Annotations;
  DROP_POLICY_IF_EXISTS "Annotators can create annotations" Annotations;
  DROP_POLICY_IF_EXISTS "Users can update own annotations" Annotations;
  mk Annotations "Users can manage annotations in their projects" FOR_ALL
     TO_authenticated
     (Some q_annotation_in_own_project)
     (Some q_annotation_in_own_project_and_author)
].

(** The policy catalog: the policies of each table, in creation order. *)
Definition catalog := forall t : table, list (policy t).

Definition no_policies : catalog := fun _ => [].

Definition has_policy (cat : catalog) (t : table) (name : string) : bool :=
  existsb (fun p => String.eqb (polname p) name) (cat t).

Definition on_table (cat : catalog) (t : table)
  (f : list (policy t) -> list (policy t)) : catalog :=
  fun t' =>
    match table_eq_dec t t' with
    | left e => match e in _ = x return list (policy x) with
                | eq_refl => f (cat t)
                end
    | right _ => cat t'
    end.

(** [CREATE POLICY] fails when the table already has a policy of that name;
    [DROP POLICY IF EXISTS] never fails. *)
Definition apply_stmt (cat : catalog) (s : stmt) : option catalog :=
  match s with
  | @CREATE_POLICY t p =>
      if has_policy cat t (polname p) then None
      else Some (on_table cat (fun l => l ++ [p]))
  | DROP_POLICY_IF_EXISTS name t =>
      Some (on_table cat
              (filter (fun p : policy t => negb (String.eqb (polname p) name))))
  end.

Fixpoint apply_stmts (cat : catalog) (ss : list stmt) : option catalog :=
  match ss with
  | [] => Some cat
  | s :: rest =>
      match apply_stmt cat s with
      | Some cat' => apply_stmts cat' rest
      | None => None
      end
  end.

(** The migrations in the order their [DROP]s and [CREATE]s force: each one
    drops policies that an earlier one created.  (The migration that resets
    the [search_path] of [update_updated_at_column] holds no policy
    statement.) *)
Definition migrations : list (list stmt) := [
  migration_initial_schema;
  migration_users_create_projects;
  migration_creator_self_enrol;
  migration_wispy_butterfly;
  migration_wild_haze
].

Definition migrate (ms : list (list stmt)) : option catalog :=
  apply_stmts no_policies (concat ms).

(** The catalog a list of migrations leaves behind. *)
Definition catalog_of (ms : list (list stmt)) : catalog :=
  match migrate ms with
  | Some cat => cat
  | None => no_policies
  end.

(** The rule set in force once every migration has run. *)
Definition final_catalog : catalog := catalog_of migrations.

(** The rule set as it stood before 20250909171528_wild_haze. *)
Definition catalog_before_wild_haze : catalog :=
  catalog_of [migration_initial_schema; migration_users_create_projects;
              migration_creator_self_enrol; migration_wispy_butterfly].

(** ** Policy evaluation *)

Definition command_eqb (a b : command) : bool :=
  match a, b with
  | SELECT, SELECT | INSERT, INSERT | UPDATE, UPDATE | DELETE, DELETE => true
  | _, _ => false
  end.

Definition cmd_applies (pc : polcmd) (c : command) : bool :=
  match pc with
  | FOR_ALL => true
  | FOR c' => command_eqb c' c
  end.

Definition role_applies (pr : polroles) (who : caller) : bool :=
  match pr, who with
  | TO_public, _ => true
  | TO_authenticated, Authenticated _ => true
  | TO_authenticated, Anon => false
  end.

(** The policies of table [t] that apply to command [c] issued by [who]. *)
Definition applicable (cat : catalog) (who : caller) (c : command) (t : table)
  : list (policy t) :=
  filter (fun p => cmd_applies (polcmd_of p) c && role_applies (polroles_of p) who)
         (cat t).

Definition eval_qual (t : table) (db : database) (who : caller) (r : row t)
  (q : option (expr t)) : bool :=
  match q with
  | Some e => e db (auth_uid who) r
  | None => false
  end.

(** The security qualification of command [c] on an existing row: the [OR]
    of the [USING] expressions of the applicable policies; no expression at
    all is [FALSE]. *)
Definition using_ok (cat : catalog) (db : database) (who : caller) (c : command)
  (t : table) (r : row t) : bool :=
  existsb (fun p => eval_qual db who r (polqual p)) (applicable cat who c t).

(** The expression checked on a new row: [WITH CHECK] when the policy has
    one, its [USING] otherwise. *)
Definition qual_for_wco (t : table) (p : policy t) : option (expr t) :=
  match polwithcheck p with
  | Some w => Some w
  | None => polqual p
  end.

Definition check_ok (cat : catalog) (db : database) (who : caller) (c : command)
  (t : table) (r : row t) : bool :=
  existsb (fun p => eval_qual db who r (qual_for_wco p)) (applicable cat who c t).

Inductive decision := ALLOW | DENY.

Definition decide (b : bool) : decision := if b then ALLOW else DENY.

(** What a statement asks for, row by row. *)
Inductive request (t : table) :=
| Select (r : row t)
| Insert (new : row t)
| Update (old new : row t)
| Delete (old : row t).

Arguments Select {t} & r.
Arguments Insert {t} & new.
Arguments Update {t} & old new.
Arguments Delete {t} & old.

(** [reads] says whether the statement also reads the table it writes (a
    [WHERE] or [RETURNING] clause naming its columns): the [SELECT]
    policies then apply to the rows it touches as well. *)
Definition authorized (cat : catalog) (db : database) (who : caller)
  (reads : bool) (t : table) (rq : request t) : bool :=
  match rq with
  | Select r => using_ok cat db who SELECT t r
  | Insert new =>
      check_ok cat db who INSERT t new
      && (negb reads || using_ok cat db who SELECT t new)
  | Update old new =>
      using_ok cat db who UPDATE t old
      && check_ok cat db who UPDATE t new
      && (negb reads
          || (using_ok cat db who SELECT t old && using_ok cat db who SELECT t new))
  | Delete old =>
      using_ok cat db who DELETE t old
      && (negb reads || using_ok cat db who SELECT t old)
  end.

Arguments authorized cat db who reads t rq : clear implicits.

Definition authorize (cat : catalog) (db : database) (who : caller)
  (reads : bool) (t : table) (rq : request t) : decision :=
  decide (authorized cat db who reads t rq).

Arguments authorize cat db who reads t rq : clear implicits.

(** ** The ownership graph *)

(** The foreign keys of the schema: [labels.project_id] and
    [images.project_id] reference [projects(id)]; [annotations.image_id]
    references [images(id)].  [owned_by db t r p] says that following them
    from row [r] of table [t] reaches the stored project [p]. *)
Definition owned_by (db : database) (t : table) : row t -> projects.row -> Prop :=
  match t with
  | Labels => fun l p =>
      In p (t_projects db) /\ projects.id p = labels.project_id l
  | Images => fun i p =>
      In p (t_projects db) /\ projects.id p = images.project_id i
  | Annotations => fun a p =>
      exists i, In i (t_images db) /\ images.id i = annotations.image_id a
                /\ In p (t_projects db) /\ projects.id p = images.project_id i
  | _ => fun _ _ => False
  end.

(** A row whose chain of foreign keys reaches no stored project. *)
Definition dangling (db : database) (t : table) (r : row t) : Prop :=
  forall p, ~ owned_by db t r p.

(** The primary-key constraint of table [t]. *)
Definition pk_unique (db : database) (t : table) : Prop :=
  NoDup (map (pk t) (rows db t)).

Definition request_command (t : table) (rq : request t) : command :=
  match rq with
  | Select _ => SELECT
  | Insert _ => INSERT
  | Update _ _ => UPDATE
  | Delete _ => DELETE
  end.

(** The rows a request puts under test. *)
Definition request_rows (t : table) (rq : request t) : list (row t) :=
  match rq with
  | Select r => [r]
  | Insert new => [new]
  | Update old new => [old; new]
  | Delete old => [old]
  end.

(** ** Sample data

    The scenario of the specification: [u1] creates project [p1], label
    [l1], image [i1] and annotation [a1]; [u2] is unrelated to [p1]; [u3] is
    a reviewer and [u4] an administrator. *)

Definition mk_profile (u : uuid) (r : user_role) : profiles.row :=
  {| profiles.id := u; profiles.email := u; profiles.full_name := None;
     profiles.role := r |}.

Definition p1 : projects.row :=
  {| projects.id := "p1"; projects.name := "cats"; projects.description := None;
     projects.created_by := "u1"; projects.status := active |}.

Definition l1 : labels.row :=
  {| labels.id := "l1"; labels.project_id := "p1"; labels.name := "cat";
     labels.color := "#3B82F6"; labels.annotation_type := bounding_box |}.

Definition i1 : images.row :=
  {| images.id := "i1"; images.project_id := "p1"; images.filename := "a.png";
     images.status := pending; images.assigned_to := None;
     images.uploaded_by := "u1" |}.

Definition a1 : annotations.row :=
  {| annotations.id := "a1"; annotations.image_id := "i1";
     annotations.label_id := "l1"; annotations.annotation_type := bounding_box;
     annotations.created_by := "u1"; annotations.reviewed_by := None;
     annotations.is_approved := None; annotations.notes := None |}.

(** [a1] with its approval set by reviewer [u3]. *)
Definition a1_approved : annotations.row :=
  {| annotations.id := "a1"; annotations.image_id := "i1";
     annotations.label_id := "l1"; annotations.annotation_type := bounding_box;
     annotations.created_by := "u1"; annotations.reviewed_by := Some "u3";
     annotations.is_approved := Some true; annotations.notes := None |}.

Definition sample_db : database :=
  {| t_profiles := [mk_profile "u1" annotator; mk_profile "u2" annotator;
                    mk_profile "u3" reviewer; mk_profile "u4" admin];
     t_projects := [p1];
     t_project_members := [];
     t_labels := [l1];
     t_images := [i1];
     t_annotations := [a1] |}.

(** [p1] under a new name, and [p1] handed to [u2]. *)
Definition p1_renamed : projects.row :=
  {| projects.id := "p1"; projects.name := "dogs"; projects.description := None;
     projects.created_by := "u1"; projects.status := active |}.

Definition hand_to_u2 (p : projects.row) : projects.row :=
  {| projects.id := projects.id p; projects.name := projects.name p;
     projects.description := projects.description p;
     projects.created_by := "u2"; projects.status := projects.status p |}.

(** A second label of [p1], a label that repeats the name of [l1], and the
    payload that renames a label to that name. *)
Definition l2 : labels.row :=
  {| labels.id := "l2"; labels.project_id := "p1"; labels.name := "dog";
     labels.color := "#EF4444"; labels.annotation_type := bounding_box |}.

Definition l1_again : labels.row :=
  {| labels.id := "l3"; labels.project_id := "p1"; labels.name := "cat";
     labels.color := "#10B981"; labels.annotation_type := polygon |}.

Definition rename_to_cat (l : labels.row) : labels.row :=
  {| labels.id := labels.id l; labels.project_id := labels.project_id l;
     labels.name := "cat"; labels.color := labels.color l;
     labels.annotation_type := labels.annotation_type l |}.

(** ** Statements against the store

    The client addresses one row per statement: [insert(row)],
    [update(payload).eq('id', target)] and [delete().eq('id', target)].  A
    statement runs against the policies first and the constraints of the
    schema next; a statement that fails leaves the store as it was. *)

Inductive error :=
| PolicyDenied                 (* new row violates row-level security *)
| UniqueConstraintViolation    (* PRIMARY KEY or UNIQUE *)
| ForeignKeyViolation.         (* REFERENCES *)

(** [Done n]: the statement completed and touched [n] rows of its table. *)
Inductive outcome := Done (affected : nat) | Failed (e : error).

(** [SIGN_UP] is the creation of a user by the authentication service; the
    other three are the statements of the client. *)
Inductive statement :=
| SIGN_UP (NEW_id : uuid) (NEW_email : string) (full_name : option string)
| INSERT_INTO (t : table) (returning : bool) (new : row t)
| UPDATE_SET (t : table) (target : uuid) (set : row t -> row t)
| DELETE_FROM (t : table) (target : uuid).

(** [conflicts t new r]: the stored row [r] holds a key that [new] would
    duplicate.  Every table has its primary key; [project_members] adds
    [UNIQUE(project_id, user_id)] and [labels] adds [UNIQUE(project_id, name)]. *)
Definition conflicts (t : table) : row t -> row t -> bool :=
  match t with
  | ProjectMembers => fun new r =>
      uuid_eqb (project_members.id r) (project_members.id new)
      || (uuid_eqb (project_members.project_id r) (project_members.project_id new)
          && uuid_eqb (project_members.user_id r) (project_members.user_id new))
  | Labels => fun new r =>
      uuid_eqb (labels.id r) (labels.id new)
      || (uuid_eqb (labels.project_id r) (labels.project_id new)
          && String.eqb (labels.name r) (labels.name new))
  | Profiles => fun new r => uuid_eqb (profiles.id r) (profiles.id new)
  | Projects => fun new r => uuid_eqb (projects.id r) (projects.id new)
  | Images => fun new r => uuid_eqb (images.id r) (images.id new)
  | Annotations => fun new r => uuid_eqb (annotations.id r) (annotations.id new)
  end.

Definition unique_violation (t : table) (stored : list (row t)) (new : row t)
  : bool :=
  existsb (conflicts t new) stored.

(** The rows a new row references exist: [project_id REFERENCES
    projects(id)], [image_id REFERENCES images(id)], [label_id REFERENCES
    labels(id)].  These are the foreign keys between the tables of the
    schema; a column that [REFERENCES auth.users(id)] is not tested, the
    users of the authentication service being no part of the store (see
    [null_or_profile] for the values such a column may be known to take). *)
Definition parents_exist (db : database) (t : table) : row t -> bool :=
  match t with
  | ProjectMembers => fun m =>
      existsb (fun p => uuid_eqb (projects.id p) (project_members.project_id m))
              (t_projects db)
  | Labels => fun l =>
      existsb (fun p => uuid_eqb (projects.id p) (labels.project_id l))
              (t_projects db)
  | Images => fun i =>
      existsb (fun p => uuid_eqb (projects.id p) (images.project_id i))
              (t_projects db)
  | Annotations => fun a =>
      existsb (fun i => uuid_eqb (images.id i) (annotations.image_id a))
              (t_images db)
      && existsb (fun l => uuid_eqb (labels.id l) (annotations.label_id a))
                 (t_labels db)
  | _ => fun _ => true
  end.

(** Some stored row references key [k] of table [t].  The foreign keys say
    [ON DELETE CASCADE] and nothing about updates, so changing a referenced
    key is refused. *)
Definition referenced (db : database) (t : table) (k : uuid) : bool :=
  match t with
  | Projects =>
      existsb (fun m => uuid_eqb (project_members.project_id m) k)
              (t_project_members db)
      || existsb (fun l => uuid_eqb (labels.project_id l) k) (t_labels db)
      || existsb (fun i => uuid_eqb (images.project_id i) k) (t_images db)
  | Labels =>
      existsb (fun a => uuid_eqb (annotations.label_id a) k) (t_annotations db)
  | Images =>
      existsb (fun a => uuid_eqb (annotations.image_id a) k) (t_annotations db)
  | _ => false
  end.

Definition without (t : table) (k : uuid) (l : list (row t)) : list (row t) :=
  filter (fun r => negb (uuid_eqb (pk t r) k)) l.

(** Deleting the row with key [k] of table [t], with the cascades of the
    schema: a project takes its memberships, labels and images along, a label
    or an image its annotations. *)
Definition delete_cascade (db : database) (t : table) (k : uuid) : database :=
  match t with
  | Projects =>
      let gone_images :=
        filter (fun i => uuid_eqb (images.project_id i) k) (t_images db) in
      let gone_labels :=
        filter (fun l => uuid_eqb (labels.project_id l) k) (t_labels db) in
      {| t_profiles := t_profiles db;
         t_projects := without Projects k (t_projects db);
         t_project_members :=
           filter (fun m => negb (uuid_eqb (project_members.project_id m) k))
                  (t_project_members db);
         t_labels :=
           filter (fun l => negb (uuid_eqb (labels.project_id l) k)) (t_labels db);
         t_images :=
           filter (fun i => negb (uuid_eqb (images.project_id i) k)) (t_images db);
         t_annotations :=
           filter (fun a =>
                     negb (existsb (fun i => uuid_eqb (images.id i)
                                                      (annotations.image_id a))
                                   gone_images)
                     && negb (existsb (fun l => uuid_eqb (labels.id l)
                                                         (annotations.label_id a))
                                      gone_labels))
                  (t_annotations db) |}
  | Labels =>
      {| t_profiles := t_profiles db; t_projects := t_projects db;
         t_project_members := t_project_members db;
         t_labels := without Labels k (t_labels db);
         t_images := t_images db;
         t_annotations :=
           filter (fun a => negb (uuid_eqb (annotations.label_id a) k))
                  (t_annotations db) |}
  | Images =>
      {| t_profiles := t_profiles db; t_projects := t_projects db;
         t_project_members := t_project_members db;
         t_labels := t_labels db;
         t_images := without Images k (t_images db);
         t_annotations :=
           filter (fun a => negb (uuid_eqb (annotations.image_id a) k))
                  (t_annotations db) |}
  | _ => set_rows db t (without t k (rows db t))
  end.

(** The rows whose id is [target] rewritten to [new]. *)
Definition replaced (A : Type) (id_of : A -> uuid) (target : uuid) (new : A)
  (l : list A) : list A :=
  map (fun r => if uuid_eqb (id_of r) target then new else r) l.

Definition replace_row (t : table) (target : uuid) (new : row t)
  (l : list (row t)) : list (row t) :=
  replaced (pk t) target new l.

(** [public.handle_new_user()], the trigger [on_auth_user_created]:
    [INSERT INTO public.profiles (id, email, full_name)
     VALUES (NEW.id, NEW.email,
             COALESCE(NEW.raw_user_meta_data ->> 'full_name', ''))];
    [role] takes its default, ['annotator'].  The function is
    [SECURITY DEFINER]: no policy stands in its way. *)
Definition handle_new_user (db : database) (NEW_id : uuid) (NEW_email : string)
  (full_name : option string) : database * outcome :=
  let pr := {| profiles.id := NEW_id;
               profiles.email := NEW_email;
               profiles.full_name :=
                 Some (match full_name with Some n => n | None => "" end);
               profiles.role := annotator |} in
  if unique_violation Profiles (t_profiles db) pr
  then (db, Failed UniqueConstraintViolation)
  else (set_rows db Profiles (t_profiles db ++ [pr]), Done 1).

(** One statement.  An UPDATE or DELETE names its row by [id], so it reads
    the table and the [SELECT] policies apply with those of the command; a
    row the caller may not touch is skipped without an error, a new row that
    fails its check aborts the statement. *)
Definition exec (cat : catalog) (db : database) (who : caller) (s : statement)
  : database * outcome :=
  match s with
  | SIGN_UP NEW_id NEW_email full_name =>
      handle_new_user db NEW_id NEW_email full_name
  | INSERT_INTO t returning new =>
      if negb (authorized cat db who returning t (Insert new))
      then (db, Failed PolicyDenied)
      else if unique_violation t (rows db t) new
      then (db, Failed UniqueConstraintViolation)
      else if negb (parents_exist db t new)
      then (db, Failed ForeignKeyViolation)
      else (set_rows db t (rows db t ++ [new]), Done 1)
  | UPDATE_SET t target set =>
      match find (fun r => uuid_eqb (pk t r) target) (rows db t) with
      | None => (db, Done 0)
      | Some old =>
          if negb (using_ok cat db who UPDATE t old
                   && using_ok cat db who SELECT t old)
          then (db, Done 0)
          else
            let new := set old in
            if negb (check_ok cat db who UPDATE t new
                     && using_ok cat db who SELECT t new)
            then (db, Failed PolicyDenied)
            else if unique_violation t (without t target (rows db t)) new
            then (db, Failed UniqueConstraintViolation)
            else if negb (parents_exist db t new)
            then (db, Failed ForeignKeyViolation)
            else if negb (uuid_eqb (pk t new) target) && referenced db t target
            then (db, Failed ForeignKeyViolation)
            else (set_rows db t (replace_row t target new (rows db t)), Done 1)
      end
  | DELETE_FROM t target =>
      match find (fun r => uuid_eqb (pk t r) target) (rows db t) with
      | None => (db, Done 0)
      | Some old =>
          if negb (using_ok cat db who DELETE t old
                   && using_ok cat db who SELECT t old)
          then (db, Done 0)
          else (delete_cascade db t target, Done 1)
      end
  end.

(** The store after a history of statements, each with its caller. *)
Definition run (cat : catalog) (db : database) (h : list (caller * statement))
  : database :=
  fold_left (fun d cs => fst (exec cat d (fst cs) (snd cs))) h db.

(** The stores that statements can produce from the empty one, each
    statement running under a catalog that satisfies [era]. *)
Inductive reachable (era : catalog -> Prop) : database -> Prop :=
| reachable_empty : reachable era empty_db
| reachable_step : forall cat db who s,
    reachable era db -> era cat ->
    reachable era (fst (exec cat db who s)).

(** Attempts on [p1]: its creator renames it, [u2] and the administrator
    [u4] try to take it, its creator tries to give it away. *)
Definition takeover_attempts : list (caller * statement) := [
  (Authenticated "u1", UPDATE_SET Projects "p1" (fun _ => p1_renamed));
  (Authenticated "u2", UPDATE_SET Projects "p1" hand_to_u2);
  (Authenticated "u4", UPDATE_SET Projects "p1" hand_to_u2);
  (Authenticated "u1", UPDATE_SET Projects "p1" hand_to_u2)
].

(** The scenario as a history: [u1] signs up and creates [p1], two labels,
    [i1] and [a1]. *)
Definition story : list (caller * statement) := [
  (Anon, SIGN_UP "u1" "u1@example.org" None);
  (Authenticated "u1", INSERT_INTO Projects true p1);
  (Authenticated "u1", INSERT_INTO Labels true l1);
  (Authenticated "u1", INSERT_INTO Labels true l2);
  (Authenticated "u1", INSERT_INTO Images false i1);
  (Authenticated "u1", INSERT_INTO Annotations false a1)
].

Definition story_db : database := run final_catalog empty_db story.

(** The era of the final rule set. *)
Definition final_era (cat : catalog) : Prop := cat = final_catalog.

(** [UNIQUE(project_id, name)] on [labels], next to its primary key. *)
Definition label_key (l : labels.row) : uuid * string :=
  (labels.project_id l, labels.name l).

Definition labels_unique (db : database) : Prop :=
  NoDup (map labels.id (t_labels db)) /\ NoDup (map label_key (t_labels db)).

(** A statement that neither inserts into nor deletes from [projects]. *)
Definition keeps_projects (s : statement) : Prop :=
  match s with
  | SIGN_UP _ _ _ => True
  | INSERT_INTO t _ _ => t <> Projects
  | UPDATE_SET _ _ _ => True
  | DELETE_FROM t _ => t <> Projects
  end.

(** Keys are unique, foreign keys resolve, and every annotation carries the
    creator of the project of its image: a property of the three tables
    [projects], [images] and [annotations]. *)
Record agree (ps : list projects.row) (imgs : list images.row)
  (anns : list annotations.row) : Prop := {
  projects_pk : NoDup (map projects.id ps);
  images_pk : NoDup (map images.id imgs);
  images_fk : forall i, In i imgs ->
      exists p, In p ps /\ projects.id p = images.project_id i;
  annotations_fk : forall a, In a anns ->
      exists i, In i imgs /\ images.id i = annotations.image_id a;
  author_is_creator : forall a i p,
      In a anns -> In i imgs -> In p ps ->
      images.id i = annotations.image_id a ->
      projects.id p = images.project_id i ->
      annotations.created_by a = projects.created_by p
}.

Definition consistent (db : database) : Prop :=
  agree (t_projects db) (t_images db) (t_annotations db).

(** [decides d P]: the decision is [ALLOW] when [P] holds and [DENY] when it
    does not. *)
Definition decides (d : decision) (P : Prop) : Prop :=
  (P -> d = ALLOW) /\ (~ P -> d = DENY).

(** An image whose project is not stored. *)
Definition orphan_image : images.row :=
  {| images.id := "i9"; images.project_id := "p9"; images.filename := "x.png";
     images.status := pending; images.assigned_to := None;
     images.uploaded_by := "u1" |}.

(** [a1] as [u1] would insert it in the name of [u2]. *)
Definition a1_forged : annotations.row :=
  {| annotations.id := "a2"; annotations.image_id := "i1";
     annotations.label_id := "l1"; annotations.annotation_type := bounding_box;
     annotations.created_by := "u2"; annotations.reviewed_by := None;
     annotations.is_approved := None; annotations.notes := None |}.

(** [u2] enrolled in [p1], the project of [u1]. *)
Definition m_u2_in_p1 : project_members.row :=
  {| project_members.id := "m1"; project_members.project_id := "p1";
     project_members.user_id := "u2"; project_members.role := annotator |}.

(** [u1] enrolled in its own project [p1]. *)
Definition m_u1_in_p1 : project_members.row :=
  {| project_members.id := "m2"; project_members.project_id := "p1";
     project_members.user_id := "u1"; project_members.role := annotator |}.

(** The profile of [u1] promoted to reviewer. *)
Definition u1_promoted : profiles.row := mk_profile "u1" reviewer.

(** ** Constraints of the schema as properties of a store *)

(** [UNIQUE(project_id, user_id)] on [project_members]. *)
Definition member_key (m : project_members.row) : uuid * uuid :=
  (project_members.project_id m, project_members.user_id m).

(** Every primary key and both [UNIQUE] constraints hold. *)
Record keys_unique (db : database) : Prop := {
  ku_pk : forall t, pk_unique db t;
  ku_members : NoDup (map member_key (t_project_members db));
  ku_labels : NoDup (map label_key (t_labels db))
}.

(** [resolves fk id_of children parents]: every child's foreign key is the
    id of a stored parent. *)
Definition resolves (A B : Type) (fk : A -> uuid) (id_of : B -> uuid)
  (children : list A) (parents : list B) : Prop :=
  forall c, In c children -> exists p, In p parents /\ id_of p = fk c.

(** The five foreign keys between the tables of the [public] schema. *)
Record references_resolve (db : database) : Prop := {
  fk_members_project :
    resolves project_members.project_id projects.id
             (t_project_members db) (t_projects db);
  fk_labels_project :
    resolves labels.project_id projects.id (t_labels db) (t_projects db);
  fk_images_project :
    resolves images.project_id projects.id (t_images db) (t_projects db);
  fk_annotations_image :
    resolves annotations.image_id images.id (t_annotations db) (t_images db);
  fk_annotations_label :
    resolves annotations.label_id labels.id (t_annotations db) (t_labels db)
}.

(** The sample store after [u1] enrolled in [p1], and a second enrolment of
    [u1] in [p1] under another id. *)
Definition members_db : database :=
  set_rows sample_db ProjectMembers [m_u1_in_p1].

Definition m_u1_again : project_members.row :=
  {| project_members.id := "m3"; project_members.project_id := "p1";
     project_members.user_id := "u1"; project_members.role := reviewer |}.

(** The payload [{ role: r }] of an UPDATE on [profiles]. *)
Definition set_role (r : user_role) (pr : profiles.row) : profiles.row :=
  {| profiles.id := profiles.id pr; profiles.email := profiles.email pr;
     profiles.full_name := profiles.full_name pr; profiles.role := r |}.

(** A project of [u2], not stored in the sample store. *)
Definition p2 : projects.row :=
  {| projects.id := "p2"; projects.name := "birds"; projects.description := None;
     projects.created_by := "u2"; projects.status := active |}.

(** [foreign_to db who t r]: no project that owns row [r] of table [t] was
    created by [who]. *)
Definition foreign_to (db : database) (who : caller) (t : table) (r : row t)
  : Prop :=
  forall p, owned_by db t r p -> who <> Authenticated (projects.created_by p).

(** [own db who t r]: some project that owns row [r] was created by [who]. *)
Definition own (db : database) (who : caller) (t : table) (r : row t) : Prop :=
  exists p, owned_by db t r p /\ who = Authenticated (projects.created_by p).

(** The store in which [u2] owns project [p2] with label [l9], and [u1]
    annotated its own image [i1] with that label. *)
Definition l9 : labels.row :=
  {| labels.id := "l9"; labels.project_id := "p2"; labels.name := "bird";
     labels.color := "#F59E0B"; labels.annotation_type := bounding_box |}.

Definition a9 : annotations.row :=
  {| annotations.id := "a9"; annotations.image_id := "i1";
     annotations.label_id := "l9"; annotations.annotation_type := bounding_box;
     annotations.created_by := "u1"; annotations.reviewed_by := None;
     annotations.is_approved := None; annotations.notes := None |}.

Definition shared_db : database :=
  {| t_profiles := t_profiles sample_db;
     t_projects := [p1; p2];
     t_project_members := [];
     t_labels := [l1; l9];
     t_images := [i1];
     t_annotations := [a1] |}.

(** [l1] as an UPDATE would write it to move it under [p2], and [i1]
    likewise. *)
Definition l1_moved : labels.row :=
  {| labels.id := "l1"; labels.project_id := "p2"; labels.name := "cat";
     labels.color := "#3B82F6"; labels.annotation_type := bounding_box |}.

Definition i1_moved : images.row :=
  {| images.id := "i1"; images.project_id := "p2"; images.filename := "a.png";
     images.status := pending; images.assigned_to := None;
     images.uploaded_by := "u1" |}.

(** The profile of [u1] as an UPDATE would write it under the id of [u2]. *)
Definition u1_as_u2 : profiles.row := mk_profile "u2" annotator.

(** [u] is [NULL] or the id of a stored profile.  [profiles.id REFERENCES
    auth.users(id) ON DELETE CASCADE]: the id of a stored profile is the id
    of a user, so that a column that [REFERENCES auth.users(id)] may hold
    it. *)
Definition null_or_profile (db : database) (u : option uuid) : Prop :=
  match u with
  | None => True
  | Some x => exists pr, In pr (t_profiles db) /\ profiles.id pr = x
  end.

(** The payload [{ is_approved, reviewed_by }] of an UPDATE on
    [annotations]. *)
Definition set_review (approved : option bool) (by_whom : option uuid)
  (a : annotations.row) : annotations.row :=
  {| annotations.id := annotations.id a;
     annotations.image_id := annotations.image_id a;
     annotations.label_id := annotations.label_id a;
     annotations.annotation_type := annotations.annotation_type a;
     annotations.created_by := annotations.created_by a;
     annotations.reviewed_by := by_whom;
     annotations.is_approved := approved;
     annotations.notes := annotations.notes a |}.

(** ** The label page of the client ([LabelManagement])

    The component keeps the labels it shows in its state and talks to the
    store through three handlers.  A handler is modelled as a function from
    the store and the state to the store and the state it leaves; [trim]
    stands for [String.prototype.trim], [gen_random_uuid] for the id the
    column default draws for a new row, and [is_uuid] for the input syntax of
    the type [uuid]: a query that compares a [uuid] column with a string that
    is no uuid fails. *)

Record label_form := {
  form_name : string;
  form_color : string;
  form_annotation_type : annotation_type
}.

Record toast := {
  title : string;
  toast_description : string;
  destructive : bool
}.

Record label_page := {
  page_labels : list labels.row;          (* labels *)
  loading : bool;
  isCreateDialogOpen : bool;
  editingLabel : option labels.row;
  newLabel : label_form;
  toasts : list toast
}.

(** [PREDEFINED_COLORS[0]] and the form as [setNewLabel] resets it. *)
Definition first_predefined_color : string := "#3B82F6".


Definition success (description : string) : toast :=
  {| title := "Success"; toast_description := description;
     destructive := false |}.

Definition failure (description : string) : toast :=
  {| title := "Error"; toast_description := description;
     destructive := true |}.

Definition add_toast (t : toast) (st : label_page) : label_page :=
  {| page_labels := page_labels st; loading := loading st;
     isCreateDialogOpen := isCreateDialogOpen st;
     editingLabel := editingLabel st; newLabel := newLabel st;
     toasts := toasts st ++ [t] |}.




(** The payload of [handleUpdateLabel]: name, color and type of the edited
    copy over the stored row. *)
Definition label_update (trim : string -> string) (edited stored : labels.row)
  : labels.row :=
  {| labels.id := labels.id stored;
     labels.project_id := labels.project_id stored;
     labels.name := trim (labels.name edited);
     labels.color := labels.color edited;
     labels.annotation_type := labels.annotation_type edited |}.

(** [handleUpdateLabel]: [update({...}).eq('id', editingLabel.id).select()
    .single()]; [single] fails unless one row comes back. *)
Definition handleUpdateLabel (trim : string -> string) (cat : catalog)
  (db : database) (who : caller) (st : label_page) : database * label_page :=
  match editingLabel st with
  | None => (db, st)
  | Some edited =>
      let target := labels.id edited in
      match find (fun l => uuid_eqb (labels.id l) target) (t_labels db),
            exec cat db who (UPDATE_SET Labels target (label_update trim edited))
      with
      | Some stored, (db', Done (S _)) =>
          let data := label_update trim edited stored in
          (db', {| page_labels :=
                     map (fun label => if uuid_eqb (labels.id label) target
                                       then data else label)
                         (page_labels st);
                   loading := loading st;
                   isCreateDialogOpen := isCreateDialogOpen st;
                   editingLabel := None;
                   newLabel := newLabel st;
                   toasts := toasts st
                             ++ [success "Label updated successfully"] |})
      | _, (db', _) =>
          (db', add_toast (failure "Failed to update label") st)
      end
  end.

(** [handleDeleteLabel]: [delete().eq('id', labelId)], no row asked back. *)
Definition handleDeleteLabel (cat : catalog) (db : database) (who : caller)
  (labelId : uuid) (st : label_page) : database * label_page :=
  match exec cat db who (DELETE_FROM Labels labelId) with
  | (db', Failed _) => (db', add_toast (failure "Failed to delete label") st)
  | (db', Done _) =>
      (db', {| page_labels :=
                 filter (fun label => negb (uuid_eqb (labels.id label) labelId))
                        (page_labels st);
               loading := loading st;
               isCreateDialogOpen := isCreateDialogOpen st;
               editingLabel := editingLabel st;
               newLabel := newLabel st;
               toasts := toasts st
                         ++ [success "Label deleted successfully"] |})
  end.





(** The page after [handleDeleteLabel] got no error back. *)
Definition deleted_page (labelId : uuid) (st : label_page) : label_page :=
  {| page_labels :=
       filter (fun label => negb (uuid_eqb (labels.id label) labelId))
              (page_labels st);
     loading := loading st;
     isCreateDialogOpen := isCreateDialogOpen st;
     editingLabel := editingLabel st;
     newLabel := newLabel st;
     toasts := toasts st ++ [success "Label deleted successfully"] |}.

(** The caller created the stored project with id [pid]. *)
Definition created_project (db : database) (who : caller) (pid : uuid) : Prop :=
  exists p, In p (t_projects db) /\ projects.id p = pid
            /\ who = Authenticated (projects.created_by p).

(** What identifies a label and places it: its id and its project. *)
Definition label_place (l : labels.row) : uuid * uuid :=
  (labels.id l, labels.project_id l).

(** An edited copy of [l1], as the edit dialog holds it. *)
Definition l1_edited : labels.row :=
  {| labels.id := "l1"; labels.project_id := "p9"; labels.name := "kitten";
     labels.color := "#EF4444"; labels.annotation_type := polygon |}.

(** The page of [p1] as [u1] sees it, with the edit dialog open. *)
Definition page_of_p1 : label_page :=
  {| page_labels := [l1]; loading := false; isCreateDialogOpen := false;
     editingLabel := Some l1_edited;
     newLabel := {| form_name := "dog"; form_color := first_predefined_color;
                    form_annotation_type := bounding_box |};
     toasts := [] |}.


(** ** The project page of the client ([ProjectDetail]) *)

Definition image_status_eqb (a b : image_status) : bool :=
  match a, b with
  | pending, pending | in_progress, in_progress
  | img_completed, img_completed | reviewed, reviewed
  | rejected, rejected => true
  | _, _ => false
  end.

(** The rows of [t] a [select] returns to [who]. *)
Definition visible (cat : catalog) (db : database) (who : caller) (t : table)
  : list (row t) :=
  filter (using_ok cat db who SELECT t) (rows db t).

Module ProgressStats.
Record t := {
  total : nat;
  completed : nat;
  inProgress : nat;
  pending : nat;
  completionRate : nat
}.
End ProgressStats.

Module ProjectDetail.

(** The state of the component, with the toasts it raised and the route it
    last navigated to. *)
Record page := {
  project : option projects.row;
  images : list images.row;
  labels : list labels.row;
  loading : bool;
  toasts : list toast;
  location : option string
}.


(** [getProgressStats]; [round_percent completed total] stands for
    [Math.round((completed / total) * 100)] in double precision. *)
Definition getProgressStats (round_percent : nat -> nat -> nat) (st : page)
  : ProgressStats.t :=
  let total := length (images st) in
  let completed :=
    length (filter (fun img => image_status_eqb (images.status img)
                                                img_completed) (images st)) in
  let inProgress :=
    length (filter (fun img => image_status_eqb (images.status img)
                                                in_progress) (images st)) in
  let pending :=
    length (filter (fun img => image_status_eqb (images.status img)
                                                pending) (images st)) in
  {| ProgressStats.total := total;
     ProgressStats.completed := completed;
     ProgressStats.inProgress := inProgress;
     ProgressStats.pending := pending;
     ProgressStats.completionRate :=
       if (0 <? total)%nat then round_percent completed total else 0 |}.

End ProjectDetail.

(** ** The dashboard of the client ([Dashboard]) *)

Module RecentProject.
(** [{ ...project, imageCount }] *)
Record t := {
  project : projects.row;
  imageCount : nat
}.
End RecentProject.

Module Dashboard.

Record DashboardStats := {
  totalProjects : nat;
  totalImages : nat;
  completedImages : nat;
  recentProjects : list RecentProject.t
}.

Record page := {
  stats : DashboardStats;
  loading : bool
}.

(** The projects of the first query: the caller's own, newest first, at most
    five. *)
Definition fetched_projects (cat : catalog) (db : database) (who : caller)
  (user_id : uuid) : list projects.row :=
  firstn 5 (rev (filter (fun p => uuid_eqb (projects.created_by p) user_id)
                        (visible cat db who Projects))).

(** The images of the second query:
    [.in('project_id', projects.map(p => p.id))]. *)
Definition fetched_images (cat : catalog) (db : database) (who : caller)
  (projects : list projects.row) : list images.row :=
  filter (fun img => existsb (uuid_eqb (images.project_id img))
                             (map projects.id projects))
         (visible cat db who Images).

(** [fetchDashboardStats]; [user] is the user of the session. *)
Definition fetchDashboardStats (cat : catalog) (db : database) (who : caller)
  (st : page) : page :=
  match auth_uid who with
  | None => st
  | Some user_id =>
      let projects := fetched_projects cat db who user_id in
      let images := fetched_images cat db who projects in
      let totalImages := length images in
      let completedImages :=
        length (filter (fun img => image_status_eqb (images.status img)
                                                    img_completed) images) in
      let projectsWithCounts :=
        map (fun project =>
               {| RecentProject.project := project;
                  RecentProject.imageCount :=
                    length (filter (fun img =>
                                      uuid_eqb (images.project_id img)
                                               (projects.id project))
                                   images) |})
            projects in
      {| stats := {| totalProjects := length projects;
                     totalImages := totalImages;
                     completedImages := completedImages;
                     recentProjects := projectsWithCounts |};
         loading := false |}
  end.

End Dashboard.

(** ** The upload page of the client ([ImageUpload]) *)

(** What the page reads of a browser [File]. *)
Module File.
Record t := {
  name : string;
  type : string;
  size : N
}.
End File.

Module UploadStatus.
Inductive t := pending | uploading | success | error.
End UploadStatus.

Module UploadFile.
Record t := {
  file : File.t;
  id : string;
  progress : nat;
  status : UploadStatus.t;
  error : option string;
  preview : option string
}.
End UploadFile.

(** What the page draws from its surroundings: the ids and names made with
    [Math.random] and [Date.now], numbered by the position of the file; the
    object URL of a file; whether the image behind a URL loads, so that
    [img.onload] fires, and the width and height it then has; the id the
    store draws for a new row. *)
Record environment := {
  random_id : nat -> string;
  createObjectURL : File.t -> string;
  image_loads : option string -> bool;
  image_dimensions : option string -> N * N;
  unique_file_name : nat -> File.t -> string;
  gen_random_uuid : nat -> uuid
}.

Fixpoint mapi (A B : Type) (f : nat -> A -> B) (k : nat) (l : list A)
  : list B :=
  match l with
  | [] => []
  | a :: l' => f k a :: mapi f (S k) l'
  end.

Definition is_pending (f : UploadFile.t) : bool :=
  match UploadFile.status f with
  | UploadStatus.pending => true
  | _ => false
  end.

(** [setFiles(prev => prev.map(f => f.id === id ? g(f) : f))] *)
Definition set_file (id : string) (g : UploadFile.t -> UploadFile.t)
  (files : list UploadFile.t) : list UploadFile.t :=
  map (fun f => if String.eqb (UploadFile.id f) id then g f else f) files.

Definition with_status (s : UploadStatus.t) (progress : nat)
  (f : UploadFile.t) : UploadFile.t :=
  {| UploadFile.file := UploadFile.file f; UploadFile.id := UploadFile.id f;
     UploadFile.progress := progress; UploadFile.status := s;
     UploadFile.error := UploadFile.error f;
     UploadFile.preview := UploadFile.preview f |}.

Definition with_progress (progress : nat) (f : UploadFile.t) : UploadFile.t :=
  {| UploadFile.file := UploadFile.file f; UploadFile.id := UploadFile.id f;
     UploadFile.progress := progress; UploadFile.status := UploadFile.status f;
     UploadFile.error := UploadFile.error f;
     UploadFile.preview := UploadFile.preview f |}.

Definition with_error (f : UploadFile.t) : UploadFile.t :=
  {| UploadFile.file := UploadFile.file f; UploadFile.id := UploadFile.id f;
     UploadFile.progress := UploadFile.progress f;
     UploadFile.status := UploadStatus.error;
     UploadFile.error := Some "Upload failed";
     UploadFile.preview := UploadFile.preview f |}.

(** The steps of the simulated progress: 0, 10, ..., 90. *)
Definition progress_steps : list nat := map (fun k => 10 * k) (seq 0 10).

(** The largest number a column of type [INTEGER] holds. *)
Definition integer_max : N := 2147483647.

Definition fits_integer (n : N) : bool := (n <=? integer_max)%N.

(** The numbers [uploadFiles] sends for the columns [file_size], [width] and
    [height], all of type [INTEGER], fit that type. *)
Definition payload_fits (env : environment) (uploadFile : UploadFile.t)
  : bool :=
  fits_integer (File.size (UploadFile.file uploadFile))
  && fits_integer (fst (image_dimensions env (UploadFile.preview uploadFile)))
  && fits_integer (snd (image_dimensions env (UploadFile.preview uploadFile))).

(** The record [uploadFiles] inserts; [status] is sent, [assigned_to] is
    left to its default.  The store reads [file_size], [width] and [height]
    as [INTEGER] and refuses the payload when one of them is too large; there
    is then no row to insert.  The three numbers are not kept in the
    record. *)
Definition image_record (env : environment) (pid : string) (user_id : uuid)
  (n : nat) (uploadFile : UploadFile.t) : option images.row :=
  if payload_fits env uploadFile
  then Some {| images.id := gen_random_uuid env n;
               images.project_id := pid;
               images.filename :=
                 unique_file_name env n (UploadFile.file uploadFile);
               images.status := pending;
               images.assigned_to := None;
               images.uploaded_by := user_id |}
  else None.

(** The toast at the end of [uploadFiles]. *)
Definition upload_complete (successCount : nat) : toast :=
  {| title := "Upload Complete";
     toast_description :=
       String.append "Successfully uploaded "
         (String.append (NilZero.string_of_uint (Nat.to_uint successCount))
                        " image(s)");
     destructive := false |}.

(** An image row as [uploadFiles] writes it for project [pid] and user
    [user_id]. *)
Definition uploaded_for (pid : string) (user_id : uuid) (i : images.row)
  : Prop :=
  images.project_id i = pid /\ images.uploaded_by i = user_id
  /\ images.status i = pending /\ images.assigned_to i = None.

(** A pending file whose preview never loads. *)
Definition never_loads (env : environment) (f : UploadFile.t) : bool :=
  is_pending f && negb (image_loads env (UploadFile.preview f)).

(** A pending file whose size, width or height is no [INTEGER]. *)
Definition too_large (env : environment) (f : UploadFile.t) : bool :=
  is_pending f && negb (payload_fits env f).

Module ImageUpload.

Record page := {
  files : list UploadFile.t;
  dragActive : bool;
  uploading : bool;
  toasts : list toast;
  location : option string
}.

(** Where the loop of [uploadFiles] stands: the store, the files of the
    page, the count of successes, and whether the loop has come to its end;
    it has not when it waits for an image that never loads. *)
Record progress := {
  store : database;
  shown : list UploadFile.t;
  successCount : nat;
  finished : bool
}.

(** [handleFiles]. *)
Definition handleFiles (env : environment) (fileList : list File.t)
  (st : page) : page :=
  let imageFiles :=
    filter (fun file => String.prefix "image/" (File.type file)) fileList in
  let newFiles :=
    mapi (fun k file =>
            {| UploadFile.file := file;
               UploadFile.id := random_id env k;
               UploadFile.progress := 0;
               UploadFile.status := UploadStatus.pending;
               UploadFile.error := None;
               UploadFile.preview := Some (createObjectURL env file) |})
         0 imageFiles in
  {| files := files st ++ newFiles;
     dragActive := dragActive st;
     uploading := uploading st;
     toasts :=
       if negb (length imageFiles =? length fileList)%nat
       then toasts st
            ++ [{| title := "Invalid Files";
                   toast_description := "Only image files are allowed";
                   destructive := true |}]
       else toasts st;
     location := location st |}.

(** The loop of [uploadFiles] over the files the handler was called with;
    [n] numbers the file at the head. *)
Fixpoint upload_each (env : environment) (cat : catalog) (who : caller)
  (pid : string) (user_id : uuid) (snapshot : list UploadFile.t) (n : nat)
  (at_ : progress) : progress :=
  match snapshot with
  | [] => {| store := store at_; shown := shown at_;
             successCount := successCount at_; finished := true |}
  | uploadFile :: rest =>
      if negb (is_pending uploadFile)
      then upload_each env cat who pid user_id rest (S n) at_
      else
        let id := UploadFile.id uploadFile in
        let started :=
          set_file id (with_status UploadStatus.uploading 0) (shown at_) in
        let simulated :=
          fold_left (fun files progress =>
                       set_file id (with_progress progress) files)
                    progress_steps started in
        if negb (image_loads env (UploadFile.preview uploadFile))
        then {| store := store at_; shown := simulated;
                successCount := successCount at_; finished := false |}
        else
          match image_record env pid user_id n uploadFile with
          | None =>
              upload_each env cat who pid user_id rest (S n)
                {| store := store at_;
                   shown := set_file id with_error simulated;
                   successCount := successCount at_;
                   finished := finished at_ |}
          | Some record =>
              match exec cat (store at_) who
                         (INSERT_INTO Images false record) with
              | (db', Done _) =>
                  upload_each env cat who pid user_id rest (S n)
                    {| store := db';
                       shown :=
                         set_file id (with_status UploadStatus.success 100)
                                  simulated;
                       successCount := S (successCount at_);
                       finished := finished at_ |}
              | (db', Failed _) =>
                  upload_each env cat who pid user_id rest (S n)
                    {| store := db';
                       shown := set_file id with_error simulated;
                       successCount := successCount at_;
                       finished := finished at_ |}
              end
          end
  end.

(** [uploadFiles]; [user] is the user of the session. *)
Definition uploadFiles (env : environment) (cat : catalog) (db : database)
  (who : caller) (id : option string) (st : page) : database * page :=
  match id, auth_uid who with
  | Some pid, Some user_id =>
      if String.eqb pid "" || (length (files st) =? 0)%nat then (db, st)
      else
        let done :=
          upload_each env cat who pid user_id (files st) 0
            {| store := db; shown := files st; successCount := 0;
               finished := false |} in
        if negb (finished done)
        then (store done,
              {| files := shown done; dragActive := dragActive st;
                 uploading := true; toasts := toasts st;
                 location := location st |})
        else if (0 <? successCount done)%nat
        then (store done,
              {| files := shown done; dragActive := dragActive st;
                 uploading := false;
                 toasts := toasts st ++ [upload_complete (successCount done)];
                 location := Some (String.append "/projects/" pid) |})
        else (store done,
              {| files := shown done; dragActive := dragActive st;
                 uploading := false; toasts := toasts st;
                 location := location st |})
  | _, _ => (db, st)
  end.

End ImageUpload.


(** What the page draws in the examples: every image loads and is 640 by
    480, the store draws ["i7"] for the first file and ["i8"] for the
    others. *)
Definition sample_env : environment :=
  {| random_id := fun _ => "f1";
     createObjectURL := fun file => File.name file;
     image_loads := fun _ => true;
     image_dimensions := fun _ => (640%N, 480%N);
     unique_file_name := fun _ file => File.name file;
     gen_random_uuid := fun n => match n with 0 => "i7" | _ => "i8" end |}.

Definition cat_png : File.t :=
  {| File.name := "cat.png"; File.type := "image/png"; File.size := 10%N |}.



(** The upload page with one file queued. *)
Definition upload_page_one : ImageUpload.page :=
  ImageUpload.handleFiles sample_env [cat_png]
    {| ImageUpload.files := []; ImageUpload.dragActive := false;
       ImageUpload.uploading := false; ImageUpload.toasts := [];
       ImageUpload.location := None |}.

(** ** Reflection lemmas *)

Lemma uuid_eqb_eq (a b : uuid) : uuid_eqb a b = true <-> a = b.
Proof. apply String.eqb_eq. Qed.

Lemma uuid_eqb_refl (a : uuid) : uuid_eqb a a = true.
Proof. apply String.eqb_refl. Qed.

Lemma uuid_eqb_neq (a b : uuid) : uuid_eqb a b = false <-> a <> b.
Proof. apply String.eqb_neq. Qed.

Lemma eq_uid_true (col : uuid) (uid : option uuid) :
  eq_uid col uid = true <-> uid = Some col.
Proof.
  destruct uid as [u|]; simpl.
  - rewrite uuid_eqb_eq. split; intros H; [now subst | now inversion H].
  - split; discriminate.
Qed.

Lemma auth_uid_some (who : caller) (u : uuid) :
  auth_uid who = Some u <-> who = Authenticated u.
Proof.
  destruct who; simpl; split; intros H; try discriminate; now inversion H.
Qed.

Lemma decide_allow (b : bool) : decide b = ALLOW <-> b = true.
Proof. destruct b; simpl; split; intros H; try reflexivity; discriminate. Qed.

Lemma decide_deny (b : bool) : decide b = DENY <-> b = false.
Proof. destruct b; simpl; split; intros H; try reflexivity; discriminate. Qed.

Lemma deny_iff_not_allow (d : decision) : d = DENY <-> d <> ALLOW.
Proof. destruct d; split; intros H; try reflexivity; try discriminate; now elim H. Qed.

(** Two stored rows with the same primary key are the same row. *)
Lemma pk_unique_inj (A K : Type) (key : A -> K) (l : list A) (x y : A) :
  NoDup (map key l) -> In x l -> In y l -> key x = key y -> x = y.
Proof.
  induction l as [|a l IH]; simpl; intros ND Hx Hy E; [contradiction|].
  inversion ND as [|? ? Hnot ND']; subst.
  destruct Hx as [<-|Hx], Hy as [<-|Hy]; auto.
  - elim Hnot. rewrite E. now apply in_map.
  - elim Hnot. rewrite <- E. now apply in_map.
Qed.

(** *** The sub-selects of the final policies, in logical form *)

Lemma q_project_creator_spec db uid (p : projects.row) :
  q_project_creator db uid p = true <-> uid = Some (projects.created_by p).
Proof. apply eq_uid_true. Qed.

Lemma q_label_in_own_project_spec db uid (l : labels.row) :
  q_label_in_own_project db uid l = true <->
  exists p, owned_by db Labels l p /\ uid = Some (projects.created_by p).
Proof.
  unfold q_label_in_own_project. rewrite existsb_exists. simpl.
  split.
  - intros (p & Hin & H). apply andb_true_iff in H as [H1 H2].
    exists p. rewrite uuid_eqb_eq in H1. rewrite eq_uid_true in H2. auto.
  - intros (p & [Hin E] & Hu). exists p. split; [assumption|].
    apply andb_true_iff. now rewrite uuid_eqb_eq, eq_uid_true.
Qed.

Lemma q_image_in_own_project_spec db uid (i : images.row) :
  q_image_in_own_project db uid i = true <->
  exists p, owned_by db Images i p /\ uid = Some (projects.created_by p).
Proof.
  unfold q_image_in_own_project. rewrite existsb_exists. simpl.
  split.
  - intros (p & Hin & H). apply andb_true_iff in H as [H1 H2].
    exists p. rewrite uuid_eqb_eq in H1. rewrite eq_uid_true in H2. auto.
  - intros (p & [Hin E] & Hu). exists p. split; [assumption|].
    apply andb_true_iff. now rewrite uuid_eqb_eq, eq_uid_true.
Qed.

Lemma q_annotation_in_own_project_spec db uid (a : annotations.row) :
  q_annotation_in_own_project db uid a = true <->
  exists p, owned_by db Annotations a p /\ uid = Some (projects.created_by p).
Proof.
  unfold q_annotation_in_own_project. rewrite existsb_exists. simpl.
  split.
  - intros (i & Hi & H). apply existsb_exists in H as (p & Hp & H).
    apply andb_true_iff in H as [H1 H]. apply andb_true_iff in H as [H2 H3].
    rewrite uuid_eqb_eq in H1, H2. rewrite eq_uid_true in H3.
    exists p. split; [exists i|]; auto.
  - intros (p & (i & Hi & Ei & Hp & Ep) & Hu). exists i. split; [assumption|].
    apply existsb_exists. exists p. split; [assumption|].
    rewrite !andb_true_iff, !uuid_eqb_eq, eq_uid_true. auto.
Qed.

(** The project that owns a row is unique once primary keys are (image ids
    matter for annotations only, whose chain passes through [images]). *)
Lemma owned_by_unique db t (r : row t) (p q : projects.row) :
  pk_unique db Projects -> (t = Annotations -> pk_unique db Images) ->
  owned_by db t r p -> owned_by db t r q -> p = q.
Proof.
  unfold pk_unique; simpl. intros NP NI.
  destruct t; simpl; try contradiction.
  - intros [Hp Ep] [Hq Eq]. eapply pk_unique_inj; eauto. congruence.
  - intros [Hp Ep] [Hq Eq]. eapply pk_unique_inj; eauto. congruence.
  - intros (i & Hi & Ei & Hp & Ep) (j & Hj & Ej & Hq & Eq).
    assert (i = j) by (eapply pk_unique_inj; eauto; congruence). subst j.
    eapply pk_unique_inj; eauto. congruence.
Qed.

(** ** The final rule set, table by table *)

Lemma migrations_succeed : migrate migrations <> None.
Proof. lazy. discriminate. Qed.

Lemma final_profiles :
  final_catalog Profiles =
  [ {| polname := "Users can view own profile"; polcmd_of := FOR SELECT;
       polroles_of := TO_public;
       polqual := Some q_own_profile; polwithcheck := None |};
    {| polname := "Users can update own profile"; polcmd_of := FOR UPDATE;
       polroles_of := TO_public;
       polqual := Some q_own_profile; polwithcheck := None |} ].
Proof. lazy. reflexivity. Qed.

Lemma final_projects :
  final_catalog Projects =
  [ {| polname := "Users can manage their own projects"; polcmd_of := FOR_ALL;
       polroles_of := TO_authenticated;
       polqual := Some q_project_creator;
       polwithcheck := Some q_project_creator |} ].
Proof. lazy. reflexivity. Qed.

Lemma final_project_members :
  final_catalog ProjectMembers =
  [ {| polname := "Admins can manage project members"; polcmd_of := FOR_ALL;
       polroles_of := TO_public;
       polqual := Some (q_is_admin ProjectMembers); polwithcheck := None |};
    {| polname := "Users can view their project memberships";
       polcmd_of := FOR SELECT; polroles_of := TO_public;
       polqual := Some q_own_membership; polwithcheck := None |};
    {| polname := "Project creator can add themselves as member";
       polcmd_of := FOR INSERT; polroles_of := TO_public;
       polqual := None; polwithcheck := Some q_creator_self_enrol |} ].
Proof. lazy. reflexivity. Qed.

Lemma final_labels :
  final_catalog Labels =
  [ {| polname := "Users can manage labels in their projects";
       polcmd_of := FOR_ALL; polroles_of := TO_authenticated;
       polqual := Some q_label_in_own_project;
       polwithcheck := Some q_label_in_own_project |} ].
Proof. lazy. reflexivity. Qed.

Lemma final_images :
  final_catalog Images =
  [ {| polname := "Users can manage images in their projects";
       polcmd_of := FOR_ALL; polroles_of := TO_authenticated;
       polqual := Some q_image_in_own_project;
       polwithcheck := Some q_image_in_own_project |} ].
Proof. lazy. reflexivity. Qed.

Lemma final_annotations :
  final_catalog Annotations =
  [ {| polname := "Users can manage annotations in their projects";
       polcmd_of := FOR_ALL; polroles_of := TO_authenticated;
       polqual := Some q_annotation_in_own_project;
       polwithcheck := Some q_annotation_in_own_project_and_author |} ].
Proof. lazy. reflexivity. Qed.

(** The self-enrolment migration touches [project_members] only, which no
    other migration touches after the initial schema: wherever it runs, the
    final rule set is the same. *)
Lemma self_enrol_position_irrelevant (t : table) :
  catalog_of [migration_initial_schema; migration_creator_self_enrol;
              migration_users_create_projects; migration_wispy_butterfly;
              migration_wild_haze] t = final_catalog t
  /\ catalog_of [migration_initial_schema; migration_users_create_projects;
                 migration_wispy_butterfly; migration_creator_self_enrol;
                 migration_wild_haze] t = final_catalog t
  /\ catalog_of [migration_initial_schema; migration_users_create_projects;
                 migration_wispy_butterfly; migration_wild_haze;
                 migration_creator_self_enrol] t = final_catalog t.
Proof. destruct t; lazy; repeat split. Qed.

(** Rewrites a policy test on the final rule set to the policy expression. *)
Ltac final_rules lem :=
  unfold using_ok, check_ok, applicable; rewrite lem; simpl.

Lemma some_uid_authenticated (who : caller) (u : uuid) :
  Some u = auth_uid who <-> who = Authenticated u.
Proof. rewrite <- auth_uid_some. split; intros H; now symmetry. Qed.

Lemma using_projects db who c (p : projects.row) :
  using_ok final_catalog db who c Projects p = true <->
  who = Authenticated (projects.created_by p).
Proof.
  final_rules final_projects.
  destruct who as [|u]; simpl.
  - split; discriminate.
  - rewrite orb_false_r, uuid_eqb_eq. split; intros H; [now subst | now inversion H].
Qed.

Lemma check_projects db who c (p : projects.row) :
  check_ok final_catalog db who c Projects p = true <->
  who = Authenticated (projects.created_by p).
Proof.
  final_rules final_projects.
  destruct who as [|u]; simpl.
  - split; discriminate.
  - rewrite orb_false_r, uuid_eqb_eq. split; intros H; [now subst | now inversion H].
Qed.

Lemma using_labels db who c (l : labels.row) :
  using_ok final_catalog db who c Labels l = true <->
  exists p, owned_by db Labels l p /\ who = Authenticated (projects.created_by p).
Proof.
  final_rules final_labels.
  destruct who as [|u]; simpl.
  - split; [discriminate | intros (p & _ & H); discriminate].
  - rewrite orb_false_r. fold (q_label_in_own_project db (Some u) l).
    rewrite q_label_in_own_project_spec.
    split; intros (p & Hp & H); exists p; split; auto; congruence.
Qed.

Lemma check_labels db who c (l : labels.row) :
  check_ok final_catalog db who c Labels l = true <->
  exists p, owned_by db Labels l p /\ who = Authenticated (projects.created_by p).
Proof.
  final_rules final_labels.
  destruct who as [|u]; simpl.
  - split; [discriminate | intros (p & _ & H); discriminate].
  - rewrite orb_false_r. fold (q_label_in_own_project db (Some u) l).
    rewrite q_label_in_own_project_spec.
    split; intros (p & Hp & H); exists p; split; auto; congruence.
Qed.

Lemma using_images db who c (i : images.row) :
  using_ok final_catalog db who c Images i = true <->
  exists p, owned_by db Images i p /\ who = Authenticated (projects.created_by p).
Proof.
  final_rules final_images.
  destruct who as [|u]; simpl.
  - split; [discriminate | intros (p & _ & H); discriminate].
  - rewrite orb_false_r. fold (q_image_in_own_project db (Some u) i).
    rewrite q_image_in_own_project_spec.
    split; intros (p & Hp & H); exists p; split; auto; congruence.
Qed.

Lemma check_images db who c (i : images.row) :
  check_ok final_catalog db who c Images i = true <->
  exists p, owned_by db Images i p /\ who = Authenticated (projects.created_by p).
Proof.
  final_rules final_images.
  destruct who as [|u]; simpl.
  - split; [discriminate | intros (p & _ & H); discriminate].
  - rewrite orb_false_r. fold (q_image_in_own_project db (Some u) i).
    rewrite q_image_in_own_project_spec.
    split; intros (p & Hp & H); exists p; split; auto; congruence.
Qed.

Lemma using_annotations db who c (a : annotations.row) :
  using_ok final_catalog db who c Annotations a = true <->
  exists p, owned_by db Annotations a p
            /\ who = Authenticated (projects.created_by p).
Proof.
  final_rules final_annotations.
  destruct who as [|u]; simpl.
  - split; [discriminate | intros (p & _ & H); discriminate].
  - rewrite orb_false_r. fold (q_annotation_in_own_project db (Some u) a).
    rewrite q_annotation_in_own_project_spec.
    split; intros (p & Hp & H); exists p; split; auto; congruence.
Qed.

Lemma check_annotations db who c (a : annotations.row) :
  check_ok final_catalog db who c Annotations a = true <->
  (exists p, owned_by db Annotations a p
             /\ who = Authenticated (projects.created_by p))
  /\ who = Authenticated (annotations.created_by a).
Proof.
  final_rules final_annotations.
  destruct who as [|u]; simpl.
  - split; [discriminate | intros (_ & H); discriminate].
  - rewrite orb_false_r. unfold q_annotation_in_own_project_and_author.
    rewrite andb_true_iff, q_annotation_in_own_project_spec, eq_uid_true.
    split.
    + intros ((p & Hp & H) & H'). split; [exists p; split; auto|]; congruence.
    + intros ((p & Hp & H) & H'). split; [exists p; split; auto|]; congruence.
Qed.

Lemma has_role_none db r : has_role db None r = false.
Proof.
  unfold has_role. induction (t_profiles db) as [|pr l IH]; simpl; auto.
Qed.

Lemma has_role_spec db uid r :
  has_role db uid r = true <->
  exists pr, In pr (t_profiles db) /\ uid = Some (profiles.id pr)
             /\ profiles.role pr = r.
Proof.
  unfold has_role. rewrite existsb_exists.
  split; intros (pr & Hin & H); exists pr; split; auto.
  - apply andb_true_iff in H as [H1 H2]. rewrite eq_uid_true in H1.
    split; auto. destruct (profiles.role pr), r; simpl in H2; congruence.
  - destruct H as [H1 H2]. apply andb_true_iff. rewrite eq_uid_true.
    split; auto. subst r. destruct (profiles.role pr); reflexivity.
Qed.

Lemma q_creator_self_enrol_spec db uid (m : project_members.row) :
  q_creator_self_enrol db uid m = true <->
  (exists p, In p (t_projects db)
             /\ projects.id p = project_members.project_id m
             /\ uid = Some (projects.created_by p))
  /\ uid = Some (project_members.user_id m).
Proof.
  unfold q_creator_self_enrol.
  rewrite andb_true_iff, existsb_exists, eq_uid_true.
  split; intros [H Hu]; split; auto.
  - destruct H as (x & Hx & E). apply in_map_iff in Hx as (p & <- & Hp).
    apply filter_In in Hp as [Hp Hc]. rewrite eq_uid_true in Hc.
    rewrite uuid_eqb_eq in E. exists p. auto.
  - destruct H as (p & Hp & E & Hc). exists (projects.id p). split.
    + apply in_map. apply filter_In. split; auto. now apply eq_uid_true.
    + apply uuid_eqb_eq. congruence.
Qed.

Lemma using_profiles db who c (pr : profiles.row) :
  using_ok final_catalog db who c Profiles pr = true <->
  (c = SELECT \/ c = UPDATE) /\ who = Authenticated (profiles.id pr).
Proof.
  final_rules final_profiles. unfold q_own_profile.
  destruct c; simpl; rewrite ?orb_false_r, ?eq_uid_true, ?auth_uid_some;
    intuition congruence.
Qed.

Lemma check_profiles db who c (pr : profiles.row) :
  check_ok final_catalog db who c Profiles pr = true <->
  (c = SELECT \/ c = UPDATE) /\ who = Authenticated (profiles.id pr).
Proof.
  final_rules final_profiles. unfold q_own_profile.
  destruct c; simpl; rewrite ?orb_false_r, ?eq_uid_true, ?auth_uid_some;
    intuition congruence.
Qed.

Lemma using_members_select db who (m : project_members.row) :
  using_ok final_catalog db who SELECT ProjectMembers m = true <->
  has_role db (auth_uid who) admin = true
  \/ who = Authenticated (project_members.user_id m).
Proof.
  final_rules final_project_members. unfold q_is_admin, q_own_membership.
  rewrite orb_false_r, orb_true_iff, eq_uid_true, auth_uid_some. tauto.
Qed.

Lemma check_members_insert db who (m : project_members.row) :
  check_ok final_catalog db who INSERT ProjectMembers m = true <->
  has_role db (auth_uid who) admin = true
  \/ ((exists p, In p (t_projects db)
                 /\ projects.id p = project_members.project_id m
                 /\ who = Authenticated (projects.created_by p))
      /\ who = Authenticated (project_members.user_id m)).
Proof.
  final_rules final_project_members. unfold q_is_admin.
  fold (q_creator_self_enrol db (auth_uid who) m).
  rewrite orb_false_r, orb_true_iff, q_creator_self_enrol_spec, auth_uid_some.
  split; (intros [H|[(p & Hp & E & Hc) Hu]]; [now left | right; split; auto]).
  - exists p. rewrite <- auth_uid_some. auto.
  - exists p. rewrite auth_uid_some. auto.
Qed.


Lemma decides_iff (b : bool) (P : Prop) : (b = true <-> P) -> decides (decide b) P.
Proof.
  intros H. split; intros HP.
  - apply decide_allow. now apply H.
  - apply decide_deny. destruct b; auto. elim HP. now apply H.
Qed.

Lemma authorize_decides cat db who reads t (rq : request t) (P : Prop) :
  (authorized cat db who reads t rq = true <-> P) ->
  decides (authorize cat db who reads t rq) P.
Proof. apply decides_iff. Qed.

(** Unfolds a request on the final rule set into its policy conditions. *)
Ltac policy_conditions :=
  unfold authorized;
  repeat (rewrite andb_true_iff || rewrite orb_true_iff
          || rewrite negb_true_iff);
  rewrite ?using_projects, ?check_projects, ?using_labels, ?check_labels,
          ?using_images, ?check_images, ?using_annotations, ?check_annotations,
          ?using_profiles, ?check_profiles.

(** ** Projects *)

(** C4. On the final rule set, SELECT and DELETE of a project are allowed to
    its creator and denied to every other caller, whatever the roles stored
    in [profiles].  An UPDATE is tested on the row it writes as well: it is
    allowed exactly when the caller is the creator and the written row keeps
    [created_by]; so every UPDATE by another caller is denied, and so is the
    creator's UPDATE that names another creator. *)
Theorem C4_project_creator_only :
  forall (db : database) (P : projects.row) (who : caller) (reads : bool),
    let creator := Authenticated (projects.created_by P) in
    decides (authorize final_catalog db who reads Projects (Select P))
            (who = creator)
    /\ decides (authorize final_catalog db who reads Projects (Delete P))
               (who = creator)
    /\ (forall new : projects.row,
          decides (authorize final_catalog db who reads Projects (Update P new))
                  (who = creator
                   /\ projects.created_by new = projects.created_by P))
    /\ (forall new : projects.row,
          who <> creator ->
          authorize final_catalog db who reads Projects (Update P new) = DENY).
Proof.
  intros db P who reads creator. subst creator.
  split; [|split; [|split]].
  - apply authorize_decides. policy_conditions. tauto.
  - apply authorize_decides. policy_conditions. tauto.
  - intros new. apply authorize_decides. policy_conditions.
    split.
    + intros [[H1 H2] _]. split; auto. congruence.
    + intros [H1 H2]. rewrite H2. tauto.
  - intros new H. apply decide_deny, not_true_is_false.
    policy_conditions. tauto.
Qed.

Lemma C4_project_creator_only_witness :
  authorize final_catalog sample_db (Authenticated "u1") true Projects
            (Update p1 p1_renamed) = ALLOW
  /\ authorize final_catalog sample_db (Authenticated "u4") true Projects
               (Update p1 p1_renamed) = DENY.
Proof.
  pose proof (C4_project_creator_only sample_db p1 (Authenticated "u1") true)
    as (_ & _ & HU & _).
  pose proof (C4_project_creator_only sample_db p1 (Authenticated "u4") true)
    as (_ & _ & _ & HD).
  split.
  - destruct (HU p1_renamed) as [HA _]. apply HA. split; reflexivity.
  - apply (HD p1_renamed). discriminate.
Defined.

(** C4, as stated, fails for UPDATE: [u1], the creator of [p1], is denied the
    UPDATE of [p1] that hands it to [u2]. *)
Lemma C4_creator_update_denied :
  In p1 (t_projects sample_db)
  /\ projects.created_by p1 = "u1"
  /\ projects.id (hand_to_u2 p1) = projects.id p1
  /\ authorize final_catalog sample_db (Authenticated "u1") false Projects
               (Update p1 (hand_to_u2 p1)) = DENY
  /\ authorize final_catalog sample_db (Authenticated "u1") true Projects
               (Update p1 (hand_to_u2 p1)) = DENY.
Proof.
  split; [simpl; auto|]. split; [reflexivity|]. split; [reflexivity|].
  split; lazy; reflexivity.
Qed.

(** ** Labels and images *)

(** With unique project ids, "some owning project was created by the caller"
    is "the owning project was created by the caller". *)
Lemma owner_is_creator db t (r : row t) (P : projects.row) (who : caller) :
  pk_unique db Projects -> (t = Annotations -> pk_unique db Images) ->
  owned_by db t r P ->
  (exists p, owned_by db t r p /\ who = Authenticated (projects.created_by p))
  <-> who = Authenticated (projects.created_by P).
Proof.
  intros NP NI HP. split.
  - intros (p & Hp & Hw).
    assert (P = p) by (eapply owned_by_unique; eauto). now subst.
  - intros Hw. exists P. auto.
Qed.

Lemma owned_by_label_same_project db (l l' : labels.row) (P : projects.row) :
  labels.project_id l' = labels.project_id l ->
  owned_by db Labels l P -> owned_by db Labels l' P.
Proof. simpl. intros E [H1 H2]. split; congruence. Qed.

Lemma owned_by_image_same_project db (i i' : images.row) (P : projects.row) :
  images.project_id i' = images.project_id i ->
  owned_by db Images i P -> owned_by db Images i' P.
Proof. simpl. intros E [H1 H2]. split; congruence. Qed.

Lemma owned_by_annotation_same_image db (a a' : annotations.row) P :
  annotations.image_id a' = annotations.image_id a ->
  owned_by db Annotations a P -> owned_by db Annotations a' P.
Proof.
  simpl. intros E (i & Hi & Ei & H). exists i. repeat split; try tauto. congruence.
Qed.

(** C5. On the final rule set, for a label [L] of project [P] (and equally
    for an image [I] of [P]), SELECT, INSERT and DELETE are allowed exactly
    to the creator of [P]: the decision is the creator test on the project
    one foreign key away.  An UPDATE is tested on the row it writes as well:
    it is allowed exactly when the caller created [P] and the written row
    belongs to a stored project of the same creator; for a written row that
    stays in [P] that is the creator test on [P]. *)
Theorem C5_label_image_follow_project :
  forall (db : database) (P : projects.row) (who : caller) (reads : bool),
    pk_unique db Projects ->
    let creator := Authenticated (projects.created_by P) in
    (forall L : labels.row,
        owned_by db Labels L P ->
        decides (authorize final_catalog db who reads Labels (Select L))
                (who = creator)
        /\ decides (authorize final_catalog db who reads Labels (Insert L))
                   (who = creator)
        /\ decides (authorize final_catalog db who reads Labels (Delete L))
                   (who = creator)
        /\ (forall new : labels.row,
              decides (authorize final_catalog db who reads Labels
                                 (Update L new))
                      (who = creator
                       /\ exists P', owned_by db Labels new P'
                                     /\ projects.created_by P'
                                        = projects.created_by P))
        /\ (forall new : labels.row,
              labels.project_id new = labels.project_id L ->
              decides (authorize final_catalog db who reads Labels
                                 (Update L new))
                      (who = creator)))
    /\ (forall I : images.row,
        owned_by db Images I P ->
        decides (authorize final_catalog db who reads Images (Select I))
                (who = creator)
        /\ decides (authorize final_catalog db who reads Images (Insert I))
                   (who = creator)
        /\ decides (authorize final_catalog db who reads Images (Delete I))
                   (who = creator)
        /\ (forall new : images.row,
              decides (authorize final_catalog db who reads Images
                                 (Update I new))
                      (who = creator
                       /\ exists P', owned_by db Images new P'
                                     /\ projects.created_by P'
                                        = projects.created_by P))
        /\ (forall new : images.row,
              images.project_id new = images.project_id I ->
              decides (authorize final_catalog db who reads Images
                                 (Update I new))
                      (who = creator))).
Proof.
  intros db P who reads NP creator. subst creator. split.
  - intros L HL.
    pose proof (@owner_is_creator db Labels L P who NP ltac:(discriminate) HL) as HO.
    split; [|split; [|split; [|split]]].
    + apply authorize_decides. policy_conditions. tauto.
    + apply authorize_decides. policy_conditions. tauto.
    + apply authorize_decides. policy_conditions. tauto.
    + intros new. apply authorize_decides. policy_conditions.
      split.
      * intros [[H1 (p & Hp & Hw)] _]. apply HO in H1. split; auto.
        exists p. split; auto. congruence.
      * intros [Hw (p & Hp & Ec)].
        assert (exists p0, owned_by db Labels new p0
                           /\ who = Authenticated (projects.created_by p0))
          by (exists p; split; auto; congruence).
        tauto.
    + intros new E. apply authorize_decides. policy_conditions.
      pose proof (@owner_is_creator db Labels new P who NP ltac:(discriminate)
                    (@owned_by_label_same_project db L new P E HL)).
      tauto.
  - intros I HI.
    pose proof (@owner_is_creator db Images I P who NP ltac:(discriminate) HI) as HO.
    split; [|split; [|split; [|split]]].
    + apply authorize_decides. policy_conditions. tauto.
    + apply authorize_decides. policy_conditions. tauto.
    + apply authorize_decides. policy_conditions. tauto.
    + intros new. apply authorize_decides. policy_conditions.
      split.
      * intros [[H1 (p & Hp & Hw)] _]. apply HO in H1. split; auto.
        exists p. split; auto. congruence.
      * intros [Hw (p & Hp & Ec)].
        assert (exists p0, owned_by db Images new p0
                           /\ who = Authenticated (projects.created_by p0))
          by (exists p; split; auto; congruence).
        tauto.
    + intros new E. apply authorize_decides. policy_conditions.
      pose proof (@owner_is_creator db Images new P who NP ltac:(discriminate)
                    (@owned_by_image_same_project db I new P E HI)).
      tauto.
Qed.

Lemma sample_pk_projects : pk_unique sample_db Projects.
Proof. unfold pk_unique; simpl. repeat constructor; simpl; tauto. Qed.

Lemma sample_pk_images : pk_unique sample_db Images.
Proof. unfold pk_unique; simpl. repeat constructor; simpl; tauto. Qed.

Lemma sample_l1_owned : owned_by sample_db Labels l1 p1.
Proof. simpl. auto. Qed.

Lemma sample_i1_owned : owned_by sample_db Images i1 p1.
Proof. simpl. auto. Qed.

Lemma sample_a1_owned : owned_by sample_db Annotations a1 p1.
Proof. simpl. exists i1. simpl. auto. Qed.

Lemma C5_label_image_follow_project_witness :
  authorize final_catalog sample_db (Authenticated "u1") true Labels
            (Update l1 l1) = ALLOW
  /\ authorize final_catalog sample_db (Authenticated "u2") true Images
               (Delete i1) = DENY.
Proof.
  pose proof (@C5_label_image_follow_project sample_db p1 (Authenticated "u1")
                true sample_pk_projects) as [HL _].
  pose proof (@C5_label_image_follow_project sample_db p1 (Authenticated "u2")
                true sample_pk_projects) as [_ HI].
  split.
  - destruct (HL l1 sample_l1_owned) as (_ & _ & _ & _ & HU).
    destruct (HU l1 eq_refl) as [HA _]. apply HA. reflexivity.
  - destruct (HI i1 sample_i1_owned) as (_ & _ & [_ HD] & _).
    apply HD. discriminate.
Defined.

(** C5, as stated, fails for UPDATE: [u1], the creator of the project [p1]
    of label [l1] and of image [i1], is denied the UPDATE that moves the
    label, or the image, under project [p2] of [u2]. *)
Lemma C5_creator_move_denied :
  owned_by shared_db Labels l1 p1
  /\ owned_by shared_db Images i1 p1
  /\ projects.created_by p1 = "u1"
  /\ owned_by shared_db Labels l1_moved p2
  /\ owned_by shared_db Images i1_moved p2
  /\ projects.created_by p2 = "u2"
  /\ authorize final_catalog shared_db (Authenticated "u1") false Labels
               (Update l1 l1_moved) = DENY
  /\ authorize final_catalog shared_db (Authenticated "u1") true Labels
               (Update l1 l1_moved) = DENY
  /\ authorize final_catalog shared_db (Authenticated "u1") false Images
               (Update i1 i1_moved) = DENY
  /\ authorize final_catalog shared_db (Authenticated "u1") true Images
               (Update i1 i1_moved) = DENY.
Proof.
  split; [simpl; auto|]. split; [simpl; auto|]. split; [reflexivity|].
  split; [simpl; auto|]. split; [simpl; auto|]. split; [reflexivity|].
  repeat split; lazy; reflexivity.
Qed.

(** ** Default deny *)

(** With no applicable policy expression true on a row, both row tests fail,
    whatever the catalog. *)
Lemma using_ok_false cat db who c t (r : row t) :
  (forall p, In p (applicable cat who c t) ->
             eval_qual db who r (polqual p) = false) ->
  using_ok cat db who c t r = false.
Proof.
  intros H. unfold using_ok. apply not_true_is_false.
  rewrite existsb_exists. intros (p & Hp & E).
  rewrite (H p Hp) in E. discriminate.
Qed.

Lemma check_ok_false cat db who c t (r : row t) :
  (forall p, In p (applicable cat who c t) ->
             eval_qual db who r (polqual p) = false
             /\ eval_qual db who r (polwithcheck p) = false) ->
  check_ok cat db who c t r = false.
Proof.
  intros H. unfold check_ok. apply not_true_is_false.
  rewrite existsb_exists. intros (p & Hp & E).
  destruct (H p Hp) as [H1 H2].
  unfold qual_for_wco in E. destruct (polwithcheck p); simpl in *; congruence.
Qed.

Lemma authorized_needs_first_row cat db who reads t (rq : request t) :
  authorized cat db who reads t rq = true ->
  match rq with
  | Select r => using_ok cat db who SELECT t r = true
  | Insert new => check_ok cat db who INSERT t new = true
  | Update old new => using_ok cat db who UPDATE t old = true
                      /\ check_ok cat db who UPDATE t new = true
  | Delete old => using_ok cat db who DELETE t old = true
  end.
Proof.
  destruct rq; simpl; rewrite ?andb_true_iff; tauto.
Qed.

(** C6. On the final rule set a label, image or annotation whose foreign keys
    reach no stored project is denied to every caller for every request that
    involves it; and for any catalog, a request none of whose rows satisfies
    the [USING] or [WITH CHECK] expression of any policy that applies to its
    command and caller is denied: [DENY] is the default. *)
Theorem C6_default_deny :
  (forall (db : database) (who : caller) (reads : bool) (t : table)
          (rq : request t) (r : row t),
      t = Labels \/ t = Images \/ t = Annotations ->
      In r (request_rows rq) ->
      dangling db t r ->
      authorize final_catalog db who reads t rq = DENY)
  /\ (forall (cat : catalog) (db : database) (who : caller) (reads : bool)
             (t : table) (rq : request t),
         (forall p r, In p (applicable cat who (request_command rq) t) ->
                      In r (request_rows rq) ->
                      eval_qual db who r (polqual p) = false
                      /\ eval_qual db who r (polwithcheck p) = false) ->
         authorize cat db who reads t rq = DENY).
Proof.
  split.
  - intros db who reads t rq r Ht Hr Hd.
    apply decide_deny, not_true_is_false. intros HA.
    apply authorized_needs_first_row in HA.
    assert (forall c, using_ok final_catalog db who c t r = false) as HU.
    { intros c. apply not_true_is_false. intros E.
      destruct Ht as [-> | [-> | ->]].
      - apply using_labels in E as (p & Hp & _). exact (Hd p Hp).
      - apply using_images in E as (p & Hp & _). exact (Hd p Hp).
      - apply using_annotations in E as (p & Hp & _). exact (Hd p Hp). }
    assert (forall c, check_ok final_catalog db who c t r = false) as HC.
    { intros c. apply not_true_is_false. intros E.
      destruct Ht as [-> | [-> | ->]].
      - apply check_labels in E as (p & Hp & _). exact (Hd p Hp).
      - apply check_images in E as (p & Hp & _). exact (Hd p Hp).
      - apply check_annotations in E as ((p & Hp & _) & _). exact (Hd p Hp). }
    destruct rq; simpl in Hr.
    + destruct Hr as [<-|[]]. rewrite HU in HA. discriminate.
    + destruct Hr as [<-|[]]. rewrite HC in HA. discriminate.
    + destruct HA as [HA1 HA2]. destruct Hr as [<-|[<-|[]]].
      * rewrite HU in HA1. discriminate.
      * rewrite HC in HA2. discriminate.
    + destruct Hr as [<-|[]]. rewrite HU in HA. discriminate.
  - intros cat db who reads t rq H.
    apply decide_deny, not_true_is_false. intros HA.
    apply authorized_needs_first_row in HA.
    destruct rq; simpl in H.
    + rewrite using_ok_false in HA; [discriminate|].
      intros p Hp. apply (H p r); auto.
    + rewrite check_ok_false in HA; [discriminate|].
      intros p Hp. apply (H p new); auto.
    + destruct HA as [HA _]. rewrite using_ok_false in HA; [discriminate|].
      intros p Hp. apply (H p old); auto.
    + rewrite using_ok_false in HA; [discriminate|].
      intros p Hp. apply (H p old); auto.
Qed.


Lemma C6_default_deny_witness :
  authorize final_catalog sample_db (Authenticated "u1") false Images
            (Insert orphan_image) = DENY
  /\ authorize no_policies sample_db (Authenticated "u1") false Projects
               (Select p1) = DENY.
Proof.
  destruct C6_default_deny as [HD HG].
  split.
  - apply (HD sample_db (Authenticated "u1") false Images
              (Insert orphan_image) orphan_image).
    + auto.
    + simpl. auto.
    + intros p [[E|[]] H]. subst p. discriminate H.
  - apply (HG no_policies sample_db (Authenticated "u1") false Projects
              (Select p1)).
    intros p r [].
Defined.

(** ** Annotations *)

(** An INSERT of an annotation, without reference to primary keys: allowed
    exactly when some stored image-and-project chain from the new row ends at
    a project created by the caller, and the row names the caller as its
    author. *)
Lemma annotation_insert_allowed db who reads (a : annotations.row) :
  authorized final_catalog db who reads Annotations (Insert a) = true <->
  (exists p, owned_by db Annotations a p
             /\ who = Authenticated (projects.created_by p))
  /\ who = Authenticated (annotations.created_by a).
Proof. policy_conditions. tauto. Qed.

(** C3. On the final rule set, an annotation whose image belongs to project
    [P] can be inserted exactly when the caller is the creator of [P] and the
    new row's [created_by] is the caller; a row naming another author is
    denied even to the creator of [P]. *)
Theorem C3_annotation_insert :
  forall (db : database) (a : annotations.row) (P : projects.row)
         (who : caller) (reads : bool),
    pk_unique db Projects -> pk_unique db Images ->
    owned_by db Annotations a P ->
    decides (authorize final_catalog db who reads Annotations (Insert a))
            (who = Authenticated (projects.created_by P)
             /\ who = Authenticated (annotations.created_by a))
    /\ (who = Authenticated (projects.created_by P) ->
        who <> Authenticated (annotations.created_by a) ->
        authorize final_catalog db who reads Annotations (Insert a) = DENY).
Proof.
  intros db a P who reads NP NI HP.
  pose proof (@owner_is_creator db Annotations a P who NP (fun _ => NI) HP) as HO.
  assert (decides (authorize final_catalog db who reads Annotations (Insert a))
            (who = Authenticated (projects.created_by P)
             /\ who = Authenticated (annotations.created_by a))) as HD.
  { apply authorize_decides. rewrite annotation_insert_allowed. tauto. }
  split; [exact HD|].
  intros _ Hne. apply HD. tauto.
Qed.


Lemma C3_annotation_insert_witness :
  authorize final_catalog sample_db (Authenticated "u1") true Annotations
            (Insert a1) = ALLOW
  /\ authorize final_catalog sample_db (Authenticated "u1") true Annotations
               (Insert a1_forged) = DENY.
Proof.
  assert (owned_by sample_db Annotations a1_forged p1) as HF
    by (exists i1; simpl; auto).
  destruct (@C3_annotation_insert sample_db a1 p1 (Authenticated "u1") true
              sample_pk_projects sample_pk_images sample_a1_owned)
    as [[HA _] _].
  destruct (@C3_annotation_insert sample_db a1_forged p1 (Authenticated "u1")
              true sample_pk_projects sample_pk_images HF)
    as [_ HD].
  split.
  - apply HA. split; reflexivity.
  - apply HD; [reflexivity | discriminate].
Defined.

(** C1 (as the code has it).  On the final rule set the creator of project
    [P] is the only caller allowed to SELECT or UPDATE an annotation [A] on
    an image of [P]; an UPDATE that leaves the annotation on its image is
    allowed when, in addition, the written row names the caller as author.
    Every other caller is denied, whether or not [profiles] gives it the
    role reviewer or admin and whether or not it is the author of [A]. *)
Theorem C1_annotation_access :
  forall (db : database) (A : annotations.row) (P : projects.row)
         (who : caller) (reads : bool),
    pk_unique db Projects -> pk_unique db Images ->
    owned_by db Annotations A P ->
    let creator := Authenticated (projects.created_by P) in
    decides (authorize final_catalog db who reads Annotations (Select A))
            (who = creator)
    /\ (forall new : annotations.row,
          annotations.image_id new = annotations.image_id A ->
          decides (authorize final_catalog db who reads Annotations (Update A new))
                  (who = creator
                   /\ annotations.created_by new = projects.created_by P))
    /\ (forall new : annotations.row,
          who <> creator ->
          authorize final_catalog db who reads Annotations (Update A new) = DENY).
Proof.
  intros db A P who reads NP NI HP creator. subst creator.
  pose proof (@owner_is_creator db Annotations A P who NP (fun _ => NI) HP) as HO.
  split; [|split].
  - apply authorize_decides. policy_conditions. tauto.
  - intros new E. apply authorize_decides. policy_conditions.
    pose proof (@owner_is_creator db Annotations new P who NP (fun _ => NI)
                  (@owned_by_annotation_same_image db A new P E HP)) as HO'.
    split.
    + intros [[H1 [H2 H3]] _]. split; [tauto|].
      apply HO in H1. congruence.
    + intros [H1 H2]. rewrite H2, <- H1. tauto.
  - intros new Hne. apply decide_deny, not_true_is_false.
    policy_conditions. tauto.
Qed.

Lemma C1_annotation_access_witness :
  authorize final_catalog sample_db (Authenticated "u1") true Annotations
            (Update a1 a1_approved) = ALLOW
  /\ authorize final_catalog sample_db (Authenticated "u2") true Annotations
               (Select a1) = DENY.
Proof.
  pose proof (@C1_annotation_access sample_db a1 p1 (Authenticated "u1") true
                sample_pk_projects sample_pk_images sample_a1_owned)
    as (_ & HU & _).
  pose proof (@C1_annotation_access sample_db a1 p1 (Authenticated "u2") true
                sample_pk_projects sample_pk_images sample_a1_owned)
    as ([_ HS] & _).
  split.
  - destruct (HU a1_approved eq_refl) as [HA _]. apply HA. split; reflexivity.
  - apply HS. discriminate.
Defined.

(** C1, as stated, fails: reviewer [u3] and administrator [u4], neither the
    creator of [p1], are denied SELECT and UPDATE on annotation [a1]. *)
Lemma C1_reviewer_admin_denied :
  has_role sample_db (Some "u3") reviewer = true
  /\ has_role sample_db (Some "u4") admin = true
  /\ owned_by sample_db Annotations a1 p1
  /\ authorize final_catalog sample_db (Authenticated "u3") false Annotations
               (Select a1) = DENY
  /\ authorize final_catalog sample_db (Authenticated "u3") false Annotations
               (Update a1 a1_approved) = DENY
  /\ authorize final_catalog sample_db (Authenticated "u4") false Annotations
               (Select a1) = DENY
  /\ authorize final_catalog sample_db (Authenticated "u4") false Annotations
               (Update a1 a1_approved) = DENY.
Proof.
  split; [reflexivity|]. split; [reflexivity|].
  split; [exact sample_a1_owned|].
  repeat split; lazy; reflexivity.
Qed.

(** Before 20250909171528_wild_haze dropped "Users can update own
    annotations", the reviewer passed the UPDATE policy of [a1]; even then the
    SELECT policy hid the row from it, so that an UPDATE naming the row by
    [id] touched nothing. *)
Lemma reviewer_before_wild_haze :
  authorize catalog_before_wild_haze sample_db (Authenticated "u3") false
            Annotations (Update a1 a1_approved) = ALLOW
  /\ authorize catalog_before_wild_haze sample_db (Authenticated "u3") false
               Annotations (Select a1) = DENY
  /\ exec catalog_before_wild_haze sample_db (Authenticated "u3")
          (UPDATE_SET Annotations "a1" (fun _ => a1_approved))
     = (sample_db, Done 0)
  /\ exec final_catalog sample_db (Authenticated "u3")
          (UPDATE_SET Annotations "a1" (fun _ => a1_approved))
     = (sample_db, Done 0).
Proof. repeat split; lazy; reflexivity. Qed.

(** ** Project memberships *)

(** A membership INSERT on the final rule set: allowed to an administrator,
    and to the creator of the project enrolling themselves. *)
Lemma membership_insert_allowed db who reads (m : project_members.row) :
  authorized final_catalog db who reads ProjectMembers (Insert m) = true <->
  has_role db (auth_uid who) admin = true
  \/ ((exists p, In p (t_projects db)
                 /\ projects.id p = project_members.project_id m
                 /\ who = Authenticated (projects.created_by p))
      /\ who = Authenticated (project_members.user_id m)).
Proof.
  unfold authorized.
  rewrite andb_true_iff, orb_true_iff, negb_true_iff.
  rewrite check_members_insert, using_members_select. tauto.
Qed.

(** C2 (as the code has it).  A caller [X] whose profile does not carry the
    role admin may insert a membership row exactly when the row enrols [X]
    itself in a stored project that [X] created; a caller whose profile
    carries the role admin may insert any membership row. *)
Theorem C2_membership_insert :
  forall (db : database) (X : uuid) (m : project_members.row) (reads : bool),
    (has_role db (Some X) admin = false ->
     decides (authorize final_catalog db (Authenticated X) reads ProjectMembers
                        (Insert m))
             ((exists p, In p (t_projects db)
                         /\ projects.id p = project_members.project_id m
                         /\ projects.created_by p = X)
              /\ project_members.user_id m = X))
    /\ (has_role db (Some X) admin = true ->
        authorize final_catalog db (Authenticated X) reads ProjectMembers
                  (Insert m) = ALLOW).
Proof.
  intros db X m reads. split.
  - intros Hna. apply authorize_decides. rewrite membership_insert_allowed.
    simpl. rewrite Hna. split.
    + intros [H|[(p & Hp & E & Hc) Hu]]; [discriminate|].
      split; [exists p; repeat split; auto|]; congruence.
    + intros [(p & Hp & E & Hc) Hu]. right.
      split; [exists p; repeat split; auto|]; congruence.
  - intros Ha. apply decide_allow. rewrite membership_insert_allowed. now left.
Qed.



Lemma C2_membership_insert_witness :
  authorize final_catalog sample_db (Authenticated "u1") true ProjectMembers
            (Insert m_u1_in_p1) = ALLOW
  /\ authorize final_catalog sample_db (Authenticated "u1") true ProjectMembers
               (Insert m_u2_in_p1) = DENY
  /\ authorize final_catalog sample_db (Authenticated "u4") true ProjectMembers
               (Insert m_u2_in_p1) = ALLOW.
Proof.
  destruct (C2_membership_insert sample_db "u1" m_u1_in_p1 true) as [H1 _].
  destruct (C2_membership_insert sample_db "u1" m_u2_in_p1 true) as [H2 _].
  destruct (C2_membership_insert sample_db "u4" m_u2_in_p1 true) as [_ H3].
  split; [|split].
  - destruct (H1 eq_refl) as [HA _]. apply HA.
    split; [exists p1; simpl; auto | reflexivity].
  - destruct (H2 eq_refl) as [_ HD]. apply HD.
    intros [_ H]. discriminate H.
  - apply H3. reflexivity.
Defined.

(** C2, as stated, fails: administrator [u4], who did not create [p1], may
    insert a membership row for [u2] in [p1]. *)
Lemma C2_admin_enrols_others :
  has_role sample_db (Some "u4") admin = true
  /\ In p1 (t_projects sample_db)
  /\ projects.id p1 = project_members.project_id m_u2_in_p1
  /\ projects.created_by p1 <> "u4"
  /\ project_members.user_id m_u2_in_p1 <> "u4"
  /\ authorize final_catalog sample_db (Authenticated "u4") false ProjectMembers
               (Insert m_u2_in_p1) = ALLOW
  /\ authorize final_catalog sample_db (Authenticated "u4") true ProjectMembers
               (Insert m_u2_in_p1) = ALLOW.
Proof.
  split; [reflexivity|]. split; [simpl; auto|]. split; [reflexivity|].
  split; [discriminate|]. split; [discriminate|].
  split; lazy; reflexivity.
Qed.

(** ** Profiles *)

(** C9. On the final rule set a profile row can be selected exactly by the
    caller whose id it carries.  An UPDATE is tested on the row it writes as
    well: it is allowed exactly when the caller is the one whose id the row
    carries and the written row keeps that id; so every UPDATE by another
    caller is denied.  No caller can insert or delete a profile row.  The
    roles stored in [profiles] play no part: an administrator is denied on
    another caller's profile like anyone else. *)
Theorem C9_own_profile_only :
  forall (db : database) (R : profiles.row) (who : caller) (reads : bool),
    let owner := Authenticated (profiles.id R) in
    decides (authorize final_catalog db who reads Profiles (Select R))
            (who = owner)
    /\ (forall new : profiles.row,
          decides (authorize final_catalog db who reads Profiles (Update R new))
                  (who = owner /\ profiles.id new = profiles.id R))
    /\ (forall new : profiles.row,
          who <> owner ->
          authorize final_catalog db who reads Profiles (Update R new) = DENY)
    /\ authorize final_catalog db who reads Profiles (Delete R) = DENY
    /\ authorize final_catalog db who reads Profiles (Insert R) = DENY.
Proof.
  intros db R who reads owner. subst owner.
  split; [|split; [|split; [|split]]].
  - apply authorize_decides. policy_conditions. tauto.
  - intros new. apply authorize_decides. policy_conditions.
    split.
    + intros [[[_ H1] [_ H2]] _]. split; auto. congruence.
    + intros [H1 H2]. rewrite H2. tauto.
  - intros new Hne. apply decide_deny, not_true_is_false.
    policy_conditions. tauto.
  - apply decide_deny, not_true_is_false. policy_conditions.
    intros [[[H|H] _] _]; discriminate.
  - apply decide_deny, not_true_is_false. policy_conditions.
    intros [[[H|H] _] _]; discriminate.
Qed.


Lemma C9_own_profile_only_witness :
  authorize final_catalog sample_db (Authenticated "u1") true Profiles
            (Update (mk_profile "u1" annotator) u1_promoted) = ALLOW
  /\ authorize final_catalog sample_db (Authenticated "u4") true Profiles
               (Update (mk_profile "u1" annotator) u1_promoted) = DENY.
Proof.
  pose proof (C9_own_profile_only sample_db (mk_profile "u1" annotator)
                (Authenticated "u1") true) as (_ & HU & _).
  pose proof (C9_own_profile_only sample_db (mk_profile "u1" annotator)
                (Authenticated "u4") true) as (_ & _ & HD & _).
  split.
  - destruct (HU u1_promoted) as [HA _]. apply HA. split; reflexivity.
  - apply (HD u1_promoted). discriminate.
Defined.

(** C9, as stated, fails for UPDATE: [u1] is denied the UPDATE of its own
    profile that writes the id of [u2]. *)
Lemma C9_owner_update_denied :
  In (mk_profile "u1" annotator) (t_profiles sample_db)
  /\ profiles.id (mk_profile "u1" annotator) = "u1"
  /\ authorize final_catalog sample_db (Authenticated "u1") false Profiles
               (Update (mk_profile "u1" annotator) u1_as_u2) = DENY
  /\ authorize final_catalog sample_db (Authenticated "u1") true Profiles
               (Update (mk_profile "u1" annotator) u1_as_u2) = DENY.
Proof.
  split; [simpl; auto|]. split; [reflexivity|]. split; lazy; reflexivity.
Qed.

(** ** Lists of rows under insertion, replacement and deletion *)

Section Rows.
Context {A K : Type}.
Variable key : A -> K.

Lemma NoDup_map_filter (f : A -> bool) (l : list A) :
  NoDup (map key l) -> NoDup (map key (filter f l)).
Proof.
  induction l as [|a l IH]; simpl; intros ND; [constructor|].
  inversion ND as [|? ? Hnot ND']; subst.
  destruct (f a); simpl; auto.
  constructor; auto.
  intros Hin. apply Hnot. apply in_map_iff in Hin as (x & E & Hx).
  apply filter_In in Hx as [Hx _]. rewrite <- E. now apply in_map.
Qed.

Lemma NoDup_map_snoc (x : A) (l : list A) :
  NoDup (map key l) -> (forall r, In r l -> key r <> key x) ->
  NoDup (map key (l ++ [x])).
Proof.
  induction l as [|a l IH]; simpl; intros ND H.
  - constructor; [tauto | constructor].
  - inversion ND as [|? ? Hnot ND']; subst. constructor.
    + rewrite map_app, in_app_iff. simpl. intros [Hin|[E|[]]]; [tauto|].
      apply (H a); auto.
    + apply IH; auto.
Qed.

Variable id_of : A -> uuid.

Lemma in_replaced (target : uuid) (new r : A) (l : list A) :
  In r (replaced id_of target new l) <->
  (In r l /\ id_of r <> target)
  \/ (r = new /\ exists old, In old l /\ id_of old = target).
Proof.
  unfold replaced. rewrite in_map_iff. split.
  - intros (x & E & Hx). destruct (uuid_eqb (id_of x) target) eqn:T.
    + right. split; auto. exists x. split; auto. now apply uuid_eqb_eq.
    + left. subst x. split; auto. now apply uuid_eqb_neq.
  - intros [[Hr Hne]|[-> (old & Hold & E)]].
    + exists r. split; auto. apply uuid_eqb_neq in Hne. now rewrite Hne.
    + exists old. split; auto. apply uuid_eqb_eq in E. now rewrite E.
Qed.

Lemma replaced_untouched (target : uuid) (new : A) (l : list A) :
  (forall r, In r l -> id_of r <> target) -> replaced id_of target new l = l.
Proof.
  unfold replaced. induction l as [|a l IH]; simpl; intros H; auto.
  rewrite IH by auto.
  assert (uuid_eqb (id_of a) target = false) as ->
    by (apply uuid_eqb_neq; auto).
  reflexivity.
Qed.

Lemma NoDup_map_replaced (target : uuid) (new : A) (l : list A) :
  NoDup (map id_of l) -> NoDup (map key l) ->
  (forall r, In r l -> id_of r <> target -> key r <> key new) ->
  NoDup (map key (replaced id_of target new l)).
Proof.
  induction l as [|a l IH]; simpl; intros NI NK H; [constructor|].
  inversion NI as [|? ? HnotI NI']; subst.
  inversion NK as [|? ? HnotK NK']; subst.
  destruct (uuid_eqb (id_of a) target) eqn:T.
  - apply uuid_eqb_eq in T.
    fold (replaced id_of target new l). rewrite replaced_untouched.
    + constructor; auto. intros Hin. apply in_map_iff in Hin as (x & E & Hx).
      apply (H x); auto. intros Ex. apply HnotI. rewrite T, <- Ex.
      now apply in_map.
    + intros r Hr Er. apply HnotI. rewrite T, <- Er. now apply in_map.
  - apply uuid_eqb_neq in T. constructor.
    + fold (replaced id_of target new l). intros Hin.
      apply in_map_iff in Hin as (x & E & Hx).
      apply in_replaced in Hx as [[Hx _]|[-> _]].
      * apply HnotK. rewrite <- E. now apply in_map.
      * apply (H a); auto.
    + apply IH; auto.
Qed.

Lemma find_by_id (target : uuid) (l : list A) (old : A) :
  find (fun r => uuid_eqb (id_of r) target) l = Some old ->
  In old l /\ id_of old = target.
Proof.
  intros H. apply find_some in H as [H1 H2]. now rewrite uuid_eqb_eq in H2.
Qed.

Lemma in_filter_out (target : uuid) (r : A) (l : list A) :
  In r (filter (fun x => negb (uuid_eqb (id_of x) target)) l) <->
  In r l /\ id_of r <> target.
Proof.
  rewrite filter_In, negb_true_iff, uuid_eqb_neq. tauto.
Qed.
End Rows.

Lemma existsb_false_forall (A : Type) (f : A -> bool) (l : list A) :
  existsb f l = false <-> forall x, In x l -> f x = false.
Proof.
  split.
  - intros H x Hx. apply not_true_is_false. intros E.
    assert (existsb f l = true) by (apply existsb_exists; eauto). congruence.
  - intros H. apply not_true_is_false. intros E.
    apply existsb_exists in E as (x & Hx & E). rewrite (H x Hx) in E. discriminate.
Qed.

Lemma replace_row_replaced t target (new : row t) l :
  replace_row t target new l = replaced (pk t) target new l.
Proof. reflexivity. Qed.

(** ** Failed statements *)

(** A statement that fails leaves the store untouched, and so does one that
    touches no row. *)
Lemma exec_failed_unchanged cat db who s e :
  snd (exec cat db who s) = Failed e -> fst (exec cat db who s) = db.
Proof.
  unfold exec, handle_new_user.
  destruct s as [u em fn|t ret new|t target set|t target].
  - destruct (unique_violation _ _ _); simpl; auto; discriminate.
  - repeat match goal with
           | |- context [if ?b then _ else _] => destruct b
           end; simpl; auto; discriminate.
  - destruct (find _ _); simpl; auto.
    repeat match goal with
           | |- context [if ?b then _ else _] => destruct b
           end; simpl; auto; discriminate.
  - destruct (find _ _); simpl; auto.
    destruct (negb _); simpl; auto; discriminate.
Qed.

(** Splits [exec] along its tests, naming the outcome of each. *)
Ltac exec_cases :=
  unfold exec, handle_new_user; simpl rows; simpl pk;
  repeat match goal with
         | |- context [match find ?f ?l with _ => _ end] =>
             let E := fresh "Hfind" in
             let old := fresh "old" in destruct (find f l) as [old|] eqn:E
         | |- context [if ?b then _ else _] =>
             let E := fresh "Htest" in destruct b eqn:E
         end;
  simpl fst; simpl snd.

(** ** Label names *)

Lemma label_key_eq (l l' : labels.row) :
  label_key l = label_key l' <->
  labels.project_id l = labels.project_id l' /\ labels.name l = labels.name l'.
Proof.
  unfold label_key. split; intros H; [inversion H; auto | destruct H; congruence].
Qed.

Lemma conflicts_labels (new r : labels.row) :
  conflicts Labels new r = true <->
  labels.id r = labels.id new \/ label_key r = label_key new.
Proof.
  simpl. rewrite orb_true_iff, andb_true_iff, ?uuid_eqb_eq, ?String.eqb_eq,
    label_key_eq. tauto.
Qed.

Lemma no_label_conflict (stored : list labels.row) (new : labels.row) :
  unique_violation Labels stored new = false ->
  forall r, In r stored ->
            labels.id r <> labels.id new /\ label_key r <> label_key new.
Proof.
  unfold unique_violation. rewrite existsb_false_forall. intros H r Hr.
  specialize (H r Hr). split; intros E;
    assert (conflicts Labels new r = true) by (apply conflicts_labels; auto);
    congruence.
Qed.

(** Every statement keeps label ids and label names per project unique,
    whatever the policies in force. *)
Lemma exec_labels_unique cat db who s :
  labels_unique db -> labels_unique (fst (exec cat db who s)).
Proof.
  intros [NI NK].
  destruct s as [u em fn|t ret new|t target set|t target]; try destruct t;
    exec_cases; try (split; assumption); unfold labels_unique; simpl.
  - (* INSERT INTO labels *)
    pose proof (no_label_conflict _ _ Htest0) as H.
    split; apply NoDup_map_snoc; auto; intros r Hr; apply (H r Hr).
  - (* UPDATE labels *)
    pose proof (no_label_conflict _ _ Htest1) as H.
    rewrite replace_row_replaced.
    split; apply NoDup_map_replaced; auto; intros x Hx Hne;
      apply (H x); apply (in_filter_out labels.id); auto.
  - (* DELETE FROM projects: its labels go with it *)
    split; apply NoDup_map_filter; auto.
  - (* DELETE FROM labels *)
    split; apply NoDup_map_filter; auto.
Qed.

Lemma reachable_labels_unique era db : reachable era db -> labels_unique db.
Proof.
  induction 1 as [|cat db who s _ IH _].
  - split; constructor.
  - now apply exec_labels_unique.
Qed.

(** C8. In every store that statements can produce, under whatever policies,
    no two labels of one project share a name.  An INSERT or UPDATE that
    passes the policies and would store a second label with the project and
    name of another stored label fails with [UniqueConstraintViolation]; it
    leaves the store unchanged, as every failing statement does. *)
Theorem C8_label_names_unique :
  (forall (era : catalog -> Prop) (db : database),
      reachable era db ->
      forall l l' : labels.row,
        In l (t_labels db) -> In l' (t_labels db) ->
        labels.project_id l = labels.project_id l' ->
        labels.name l = labels.name l' -> l = l')
  /\ (forall cat db who returning (new l : labels.row),
         In l (t_labels db) ->
         labels.project_id l = labels.project_id new ->
         labels.name l = labels.name new ->
         authorized cat db who returning Labels (Insert new) = true ->
         exec cat db who (INSERT_INTO Labels returning new)
         = (db, Failed UniqueConstraintViolation))
  /\ (forall cat db who target set (old l : labels.row),
         In old (t_labels db) -> labels.id old = target ->
         pk_unique db Labels ->
         In l (t_labels db) -> labels.id l <> target ->
         labels.project_id l = labels.project_id (set old) ->
         labels.name l = labels.name (set old) ->
         authorized cat db who true Labels (Update old (set old)) = true ->
         exec cat db who (UPDATE_SET Labels target set)
         = (db, Failed UniqueConstraintViolation))
  /\ (forall cat db who s e,
         snd (exec cat db who s) = Failed e -> fst (exec cat db who s) = db).
Proof.
  split; [|split; [|split]].
  - intros era db HR l l' Hl Hl' Ep En.
    destruct (reachable_labels_unique HR) as [_ NK].
    apply (pk_unique_inj label_key _ l l' NK Hl Hl').
    now apply label_key_eq.
  - intros cat db who returning new l Hl Ep En HA.
    unfold exec. rewrite HA. simpl.
    assert (unique_violation Labels (t_labels db) new = true) as ->.
    { apply existsb_exists. exists l. split; auto.
      apply conflicts_labels. right. now apply label_key_eq. }
    reflexivity.
  - intros cat db who target set old l Hold Eold NP Hl Hne Ep En HA.
    unfold exec. simpl rows. simpl pk.
    destruct (find _ _) as [old'|] eqn:Hfind.
    + apply find_by_id in Hfind as [Hold' Eold'].
      assert (old' = old) as ->
        by (apply (pk_unique_inj labels.id _ old' old NP); auto; congruence).
      simpl in HA. rewrite !andb_true_iff in HA.
      destruct HA as [[HA1 HA2] [HA3 HA4]].
      rewrite HA1, HA2, HA3, HA4. simpl.
      assert (unique_violation Labels (without Labels target (t_labels db))
                               (set old) = true) as ->.
      { apply existsb_exists. exists l. split.
        - apply (in_filter_out labels.id). auto.
        - apply conflicts_labels. right. now apply label_key_eq. }
      reflexivity.
    + exfalso. apply (find_none _ _ Hfind) in Hold.
      apply uuid_eqb_eq in Eold. simpl in *. congruence.
  - intros. now apply exec_failed_unchanged with (e := e).
Qed.

(** ** The creator of a project *)

(** An UPDATE of a project passes the final rules only for its creator, and
    only when the written row keeps [created_by]. *)
Lemma project_update_keeps_creator db who reads (old new : projects.row) :
  authorized final_catalog db who reads Projects (Update old new) = true ->
  who = Authenticated (projects.created_by old)
  /\ projects.created_by new = projects.created_by old.
Proof.
  policy_conditions. intros [[H1 H2] _]. split; congruence.
Qed.

Lemma no_project_conflict (stored : list projects.row) (new : projects.row) :
  unique_violation Projects stored new = false ->
  forall r, In r stored -> projects.id r <> projects.id new.
Proof.
  unfold unique_violation. rewrite existsb_false_forall. intros H r Hr.
  specialize (H r Hr). simpl in H. now apply uuid_eqb_neq.
Qed.

Lemma map_replaced_same (A B : Type) (id_of : A -> uuid) (f : A -> B)
  (target : uuid) (old new : A) (l : list A) :
  NoDup (map id_of l) -> In old l -> id_of old = target -> f new = f old ->
  map f (replaced id_of target new l) = map f l.
Proof.
  intros ND Hold E Hf. unfold replaced. rewrite map_map. apply map_ext_in.
  intros r Hr. destruct (uuid_eqb (id_of r) target) eqn:T; auto.
  apply uuid_eqb_eq in T.
  assert (r = old) by (apply (pk_unique_inj id_of _ r old ND); auto; congruence).
  congruence.
Qed.

(** A statement that keeps the rows of [projects] in place, under the final
    rules, keeps project ids unique and the creator of every project row. *)
Lemma exec_keeps_creators db who s :
  keeps_projects s -> pk_unique db Projects ->
  pk_unique (fst (exec final_catalog db who s)) Projects
  /\ map projects.created_by (t_projects (fst (exec final_catalog db who s)))
     = map projects.created_by (t_projects db).
Proof.
  unfold pk_unique. simpl rows. simpl pk. intros Hk ND.
  destruct s as [u em fn|t ret new|t target set|t target]; try destruct t;
    simpl in Hk; try (now elim Hk); exec_cases; simpl; auto.
  (* UPDATE projects *)
  apply find_by_id in Hfind as [Hold Eold].
  apply negb_false_iff in Htest, Htest0.
  apply andb_true_iff in Htest as [HU _], Htest0 as [HC _].
  apply using_projects in HU. apply check_projects in HC.
  pose proof (no_project_conflict _ _ Htest1) as HN.
  rewrite replace_row_replaced. split.
  - apply NoDup_map_replaced; auto.
    intros r Hr Hne. apply (HN r). apply (in_filter_out projects.id). auto.
  - apply map_replaced_same with (old := old); auto. congruence.
Qed.

(** C7. Under the final rules an authorized UPDATE of a project is issued by
    its creator and writes a row with the same [created_by]; through any
    history of statements that neither insert into nor delete from
    [projects], every project row keeps its creator. *)
Theorem C7_project_creator_immutable :
  (forall (db : database) (who : caller) (reads : bool)
          (old new : projects.row),
      authorize final_catalog db who reads Projects (Update old new) = ALLOW ->
      who = Authenticated (projects.created_by old)
      /\ projects.created_by new = projects.created_by old)
  /\ (forall (h : list (caller * statement)) (db : database),
         pk_unique db Projects ->
         Forall (fun cs => keeps_projects (snd cs)) h ->
         map projects.created_by (t_projects (run final_catalog db h))
         = map projects.created_by (t_projects db)).
Proof.
  split.
  - intros db who reads old new H. apply decide_allow in H.
    now apply project_update_keeps_creator in H.
  - induction h as [|[who s] h IH]; intros db ND HF; [reflexivity|].
    inversion HF as [|? ? Hs HF']; subst. simpl in Hs.
    destruct (@exec_keeps_creators db who s Hs ND) as [ND' E].
    unfold run in *. simpl. rewrite IH; auto.
Qed.

Lemma C7_project_creator_immutable_witness :
  (Authenticated "u1" = Authenticated (projects.created_by p1)
   /\ projects.created_by p1_renamed = projects.created_by p1)
  /\ map projects.created_by
         (t_projects (run final_catalog sample_db takeover_attempts))
     = ["u1"].
Proof.
  destruct C7_project_creator_immutable as [HU HH].
  split.
  - apply (HU sample_db (Authenticated "u1") true p1 p1_renamed). reflexivity.
  - apply (HH takeover_attempts sample_db sample_pk_projects).
    repeat constructor.
Defined.

Lemma run_reachable (era : catalog -> Prop) cat h :
  era cat -> forall db, reachable era db -> reachable era (run cat db h).
Proof.
  intros Hc. unfold run.
  induction h as [|[who s] h IH]; simpl; intros db HR; auto.
  apply IH. now constructor.
Qed.

Lemma story_db_reachable : reachable (fun _ => True) story_db.
Proof. apply run_reachable; [exact I | constructor]. Qed.

Lemma C8_label_names_unique_witness :
  l1 = l1
  /\ exec final_catalog story_db (Authenticated "u1")
          (INSERT_INTO Labels true l1_again)
     = (story_db, Failed UniqueConstraintViolation)
  /\ exec final_catalog story_db (Authenticated "u1")
          (UPDATE_SET Labels "l2" rename_to_cat)
     = (story_db, Failed UniqueConstraintViolation)
  /\ fst (exec final_catalog story_db (Authenticated "u2")
               (INSERT_INTO Labels true l1_again)) = story_db.
Proof.
  destruct C8_label_names_unique as (HI & HN & HU & HF).
  split; [|split; [|split]].
  - apply (HI (fun _ => True) story_db story_db_reachable l1 l1).
    + lazy. auto.
    + lazy. auto.
    + reflexivity.
    + reflexivity.
  - apply (HN final_catalog story_db (Authenticated "u1") true l1_again l1).
    + lazy. auto.
    + reflexivity.
    + reflexivity.
    + lazy. reflexivity.
  - apply (HU final_catalog story_db (Authenticated "u1") "l2" rename_to_cat
              l2 l1).
    + lazy. auto.
    + reflexivity.
    + unfold pk_unique. lazy. repeat constructor; simpl; intuition discriminate.
    + lazy. auto.
    + discriminate.
    + reflexivity.
    + reflexivity.
    + lazy. reflexivity.
  - apply (HF final_catalog story_db (Authenticated "u2")
              (INSERT_INTO Labels true l1_again) PolicyDenied).
    lazy. reflexivity.
Defined.

(** ** Authors of annotations *)

Lemma in_snoc (A : Type) (x y : A) (l : list A) :
  In x (l ++ [y]) <-> In x l \/ x = y.
Proof. rewrite in_app_iff. simpl. intuition. Qed.

Section Agree.
Variables (ps : list projects.row) (imgs : list images.row)
          (anns : list annotations.row).
Hypothesis H : agree ps imgs anns.

(** The annotations may be replaced by any rows that were stored before or
    that hang under a stored image of a project created by their author. *)
Lemma agree_annotations (anns' : list annotations.row) :
  (forall a, In a anns' ->
     In a anns
     \/ exists i p, In i imgs /\ images.id i = annotations.image_id a
                    /\ In p ps /\ projects.id p = images.project_id i
                    /\ annotations.created_by a = projects.created_by p) ->
  agree ps imgs anns'.
Proof.
  destruct H as [PK IK IF AF AC]. intros Hsub. constructor; auto.
  - intros a Ha. destruct (Hsub a Ha) as [Hold|(i & p & Hi & Ei & _)]; auto.
    exists i. auto.
  - intros a i p Ha Hi Hp Ei Ep.
    destruct (Hsub a Ha) as [Hold|(i' & p' & Hi' & Ei' & Hp' & Ep' & Ec)].
    + eapply AC; eauto.
    + assert (i = i')
        by (apply (pk_unique_inj images.id _ i i' IK); auto; congruence).
      subst i'.
      assert (p = p')
        by (apply (pk_unique_inj projects.id _ p p' PK); auto; congruence).
      now subst p'.
Qed.

Lemma agree_insert_project (new : projects.row) :
  (forall r, In r ps -> projects.id r <> projects.id new) ->
  agree (ps ++ [new]) imgs anns.
Proof.
  destruct H as [PK IK IF AF AC]. intros HN. constructor; auto.
  - apply NoDup_map_snoc; auto.
  - intros i Hi. destruct (IF i Hi) as (p & Hp & E).
    exists p. split; auto. apply in_snoc. auto.
  - intros a i p Ha Hi Hp Ei Ep. apply in_snoc in Hp as [Hp| ->].
    + eapply AC; eauto.
    + destruct (IF i Hi) as (p0 & Hp0 & E0). elim (HN p0 Hp0). congruence.
Qed.

Lemma agree_update_project (target : uuid) (old new : projects.row) :
  In old ps -> projects.id old = target ->
  projects.created_by new = projects.created_by old ->
  (forall r, In r ps -> projects.id r <> target ->
             projects.id r <> projects.id new) ->
  (projects.id new = target
   \/ forall i, In i imgs -> images.project_id i <> target) ->
  agree (replaced projects.id target new ps) imgs anns.
Proof.
  destruct H as [PK IK IF AF AC]. intros Hold Eold Ec HN Href.
  constructor; auto.
  - apply NoDup_map_replaced; auto.
  - intros i Hi. destruct (IF i Hi) as (p & Hp & E).
    destruct (string_dec (projects.id p) target) as [Et|Et].
    + destruct Href as [En|Hno].
      * exists new. split; [|congruence].
        apply in_replaced. right. split; auto. exists old. auto.
      * elim (Hno i Hi). congruence.
    + exists p. split; auto. apply in_replaced. auto.
  - intros a i p Ha Hi Hp Ei Ep.
    apply in_replaced in Hp as [[Hp Hne]|[-> _]].
    + eapply AC; eauto.
    + destruct Href as [En|Hno].
      * rewrite Ec. apply (AC a i old); auto. congruence.
      * destruct (IF i Hi) as (p0 & Hp0 & E0).
        elim (HN p0 Hp0); [|congruence].
        intros Et. apply (Hno i Hi). congruence.
Qed.

Lemma agree_delete_project (k : uuid) (anns' : list annotations.row) :
  (forall a, In a anns' ->
     In a anns
     /\ forall i, In i imgs -> images.id i = annotations.image_id a ->
                  images.project_id i <> k) ->
  agree (filter (fun p => negb (uuid_eqb (projects.id p) k)) ps)
        (filter (fun i => negb (uuid_eqb (images.project_id i) k)) imgs)
        anns'.
Proof.
  destruct H as [PK IK IF AF AC]. intros Hsub. constructor.
  - now apply NoDup_map_filter.
  - now apply NoDup_map_filter.
  - intros i Hi. apply (in_filter_out images.project_id) in Hi as [Hi Hne].
    destruct (IF i Hi) as (p & Hp & E). exists p. split; auto.
    apply (in_filter_out projects.id). split; auto. congruence.
  - intros a Ha. destruct (Hsub a Ha) as [Ha' Hk].
    destruct (AF a Ha') as (i & Hi & E). exists i. split; auto.
    apply (in_filter_out images.project_id). split; auto.
  - intros a i p Ha Hi Hp Ei Ep.
    apply (in_filter_out images.project_id) in Hi as [Hi _].
    apply (in_filter_out projects.id) in Hp as [Hp _].
    destruct (Hsub a Ha) as [Ha' _]. eapply AC; eauto.
Qed.

Lemma agree_insert_image (new : images.row) :
  (forall r, In r imgs -> images.id r <> images.id new) ->
  (exists p, In p ps /\ projects.id p = images.project_id new) ->
  agree ps (imgs ++ [new]) anns.
Proof.
  destruct H as [PK IK IF AF AC]. intros HN HP. constructor; auto.
  - apply NoDup_map_snoc; auto.
  - intros i Hi. apply in_snoc in Hi as [Hi| ->]; auto.
  - intros a Ha. destruct (AF a Ha) as (i & Hi & E).
    exists i. split; auto. apply in_snoc. auto.
  - intros a i p Ha Hi Hp Ei Ep. apply in_snoc in Hi as [Hi| ->].
    + eapply AC; eauto.
    + destruct (AF a Ha) as (i0 & Hi0 & E0). elim (HN i0 Hi0). congruence.
Qed.

Lemma agree_update_image (target u : uuid) (old new : images.row) :
  In old imgs -> images.id old = target ->
  (exists p, In p ps /\ projects.id p = images.project_id old
             /\ projects.created_by p = u) ->
  (exists p, In p ps /\ projects.id p = images.project_id new
             /\ projects.created_by p = u) ->
  (forall r, In r imgs -> images.id r <> target ->
             images.id r <> images.id new) ->
  (images.id new = target
   \/ forall a, In a anns -> annotations.image_id a <> target) ->
  agree ps (replaced images.id target new imgs) anns.
Proof.
  destruct H as [PK IK IF AF AC].
  intros Hold Eold (p0 & Hp0 & E0 & C0) (p1 & Hp1 & E1 & C1) HN Href.
  constructor; auto.
  - apply NoDup_map_replaced; auto.
  - intros i Hi. apply in_replaced in Hi as [[Hi _]|[-> _]]; auto.
    exists p1. auto.
  - intros a Ha. destruct (AF a Ha) as (i & Hi & E).
    destruct (string_dec (images.id i) target) as [Et|Et].
    + destruct Href as [En|Hno].
      * exists new. split; [|congruence].
        apply in_replaced. right. split; auto. exists old. auto.
      * elim (Hno a Ha). congruence.
    + exists i. split; auto. apply in_replaced. auto.
  - intros a i p Ha Hi Hp Ei Ep.
    apply in_replaced in Hi as [[Hi Hne]|[-> _]].
    + eapply AC; eauto.
    + assert (p = p1)
        by (apply (pk_unique_inj projects.id _ p p1 PK); auto; congruence).
      subst p. rewrite C1, <- C0.
      destruct Href as [En|Hno].
      * apply (AC a old p0); auto. congruence.
      * destruct (AF a Ha) as (i0 & Hi0 & Ei0).
        elim (HN i0 Hi0); [|congruence].
        intros Et. apply (Hno a Ha). congruence.
Qed.

Lemma agree_delete_image (k : uuid) :
  agree ps
        (filter (fun i => negb (uuid_eqb (images.id i) k)) imgs)
        (filter (fun a => negb (uuid_eqb (annotations.image_id a) k)) anns).
Proof.
  destruct H as [PK IK IF AF AC]. constructor; auto.
  - now apply NoDup_map_filter.
  - intros i Hi. apply (in_filter_out images.id) in Hi as [Hi _]. auto.
  - intros a Ha. apply (in_filter_out annotations.image_id) in Ha as [Ha Hne].
    destruct (AF a Ha) as (i & Hi & E). exists i. split; auto.
    apply (in_filter_out images.id). split; auto. congruence.
  - intros a i p Ha Hi Hp Ei Ep.
    apply (in_filter_out annotations.image_id) in Ha as [Ha _].
    apply (in_filter_out images.id) in Hi as [Hi _].
    eapply AC; eauto.
Qed.
End Agree.

Lemma no_image_conflict (stored : list images.row) (new : images.row) :
  unique_violation Images stored new = false ->
  forall r, In r stored -> images.id r <> images.id new.
Proof.
  unfold unique_violation. rewrite existsb_false_forall. intros H r Hr.
  specialize (H r Hr). simpl in H. now apply uuid_eqb_neq.
Qed.

Lemma image_parent db (i : images.row) :
  parents_exist db Images i = true ->
  exists p, In p (t_projects db) /\ projects.id p = images.project_id i.
Proof.
  simpl. rewrite existsb_exists. intros (p & Hp & E).
  exists p. now rewrite uuid_eqb_eq in E.
Qed.

Lemma annotation_parent db (a : annotations.row) :
  parents_exist db Annotations a = true ->
  exists i, In i (t_images db) /\ images.id i = annotations.image_id a.
Proof.
  simpl. rewrite andb_true_iff, existsb_exists. intros [(i & Hi & E) _].
  exists i. now rewrite uuid_eqb_eq in E.
Qed.

Lemma key_change db t (k target : uuid) :
  negb (uuid_eqb k target) && referenced db t target = false ->
  k = target \/ referenced db t target = false.
Proof.
  destruct (uuid_eqb k target) eqn:E; simpl; auto.
  left. now apply uuid_eqb_eq.
Qed.

Lemma not_referenced_project db (k : uuid) :
  referenced db Projects k = false ->
  forall i, In i (t_images db) -> images.project_id i <> k.
Proof.
  simpl. rewrite !orb_false_iff. intros [_ H] i Hi.
  rewrite existsb_false_forall in H. apply uuid_eqb_neq. auto.
Qed.

Lemma not_referenced_image db (k : uuid) :
  referenced db Images k = false ->
  forall a, In a (t_annotations db) -> annotations.image_id a <> k.
Proof.
  simpl. intros H a Ha.
  rewrite existsb_false_forall in H. apply uuid_eqb_neq. auto.
Qed.

(** What the final [WITH CHECK] on [annotations] says of a new row, in the
    form [agree_annotations] asks for. *)
Lemma checked_annotation_fits db who c (a : annotations.row) :
  check_ok final_catalog db who c Annotations a = true ->
  exists i p, In i (t_images db) /\ images.id i = annotations.image_id a
              /\ In p (t_projects db) /\ projects.id p = images.project_id i
              /\ annotations.created_by a = projects.created_by p.
Proof.
  rewrite check_annotations.
  intros [(p & (i & Hi & Ei & Hp & Ep) & Hw) Ha].
  exists i, p. repeat split; auto. congruence.
Qed.

(** Every statement run under the final rules keeps the store consistent. *)
Lemma exec_consistent db who s :
  consistent db -> consistent (fst (exec final_catalog db who s)).
Proof.
  unfold consistent. intros H.
  destruct s as [u em fn|t ret new|t target set|t target]; try destruct t;
    exec_cases; simpl; try exact H.
  - (* INSERT INTO projects *)
    apply (agree_insert_project H). now apply no_project_conflict.
  - (* INSERT INTO images *)
    apply negb_false_iff in Htest1.
    apply (agree_insert_image H).
    + now apply no_image_conflict.
    + now apply image_parent.
  - (* INSERT INTO annotations *)
    apply negb_false_iff in Htest.
    apply authorized_needs_first_row in Htest.
    apply checked_annotation_fits in Htest.
    apply (agree_annotations H). intros a Ha.
    apply in_snoc in Ha as [Ha| ->]; auto.
  - (* UPDATE projects *)
    apply find_by_id in Hfind as [Hold Eold].
    apply negb_false_iff in Htest, Htest0.
    apply andb_true_iff in Htest as [HU _], Htest0 as [HC _].
    apply using_projects in HU. apply check_projects in HC.
    rewrite replace_row_replaced.
    apply (agree_update_project H) with (old := old); auto.
    + congruence.
    + intros r Hr Hne. apply (no_project_conflict _ _ Htest1).
      apply (in_filter_out projects.id). auto.
    + apply key_change in Htest3 as [E|E]; auto.
      right. now apply not_referenced_project.
  - (* UPDATE images *)
    apply find_by_id in Hfind as [Hold Eold].
    apply negb_false_iff in Htest, Htest0, Htest2.
    apply andb_true_iff in Htest as [HU _], Htest0 as [HC _].
    apply using_images in HU as (p0 & [Hp0 E0] & W0).
    apply check_images in HC as (p1 & [Hp1 E1] & W1).
    rewrite replace_row_replaced.
    apply (agree_update_image H)
      with (old := old) (u := projects.created_by p0); auto.
    + exists p0. auto.
    + exists p1. repeat split; auto. congruence.
    + intros r Hr Hne. apply (no_image_conflict _ _ Htest1).
      apply (in_filter_out images.id). auto.
    + apply key_change in Htest3 as [E|E]; auto.
      right. now apply not_referenced_image.
  - (* UPDATE annotations *)
    apply negb_false_iff in Htest0.
    apply andb_true_iff in Htest0 as [HC _].
    apply checked_annotation_fits in HC.
    apply (agree_annotations H). intros a Ha.
    rewrite replace_row_replaced in Ha.
    apply in_replaced in Ha as [[Ha _]|[-> _]]; auto.
  - (* DELETE FROM projects *)
    apply (agree_delete_project H).
    intros a Ha. apply filter_In in Ha as [Ha Hk]. split; auto.
    apply andb_true_iff in Hk as [Hk _]. apply negb_true_iff in Hk.
    rewrite existsb_false_forall in Hk.
    intros i Hi Ei Ep.
    assert (uuid_eqb (images.id i) (annotations.image_id a) = false) as Hne.
    { apply Hk. apply filter_In. split; auto. now apply uuid_eqb_eq. }
    apply uuid_eqb_neq in Hne. contradiction.
  - (* DELETE FROM labels *)
    apply (agree_annotations H). intros a Ha.
    apply filter_In in Ha as [Ha _]. auto.
  - (* DELETE FROM images *)
    exact (agree_delete_image H target).
  - (* DELETE FROM annotations *)
    apply (agree_annotations H). intros a Ha.
    apply filter_In in Ha as [Ha _]. auto.
Qed.

Lemma empty_db_consistent : consistent empty_db.
Proof.
  constructor; simpl; try constructor; intros; contradiction.
Qed.

Lemma exec_consistent_era cat db who s :
  final_era cat -> consistent db -> consistent (fst (exec cat db who s)).
Proof.
  intros E H. unfold final_era in E. subst cat. now apply exec_consistent.
Qed.

Lemma reachable_consistent db : reachable final_era db -> consistent db.
Proof.
  induction 1 as [|cat db who s _ IH Hera].
  - exact empty_db_consistent.
  - apply exec_consistent_era; assumption.
Qed.

(** C10. Under the final rules an annotation can be inserted, or written by
    an UPDATE, only with [created_by] equal to the creator of the project
    that owns its image; and in every store that statements produce from the
    empty one under those rules, every annotation carries the creator of the
    project of its image. *)
Theorem C10_annotation_author_is_project_creator :
  (forall (db : database) (who : caller) (reads : bool)
          (a : annotations.row) (P : projects.row),
      pk_unique db Projects -> pk_unique db Images ->
      owned_by db Annotations a P ->
      authorize final_catalog db who reads Annotations (Insert a) = ALLOW ->
      annotations.created_by a = projects.created_by P)
  /\ (forall (db : database) (who : caller) (reads : bool)
             (old new : annotations.row) (P : projects.row),
         pk_unique db Projects -> pk_unique db Images ->
         owned_by db Annotations new P ->
         authorize final_catalog db who reads Annotations (Update old new)
         = ALLOW ->
         annotations.created_by new = projects.created_by P)
  /\ (forall db : database,
         reachable final_era db ->
         forall (a : annotations.row) (P : projects.row),
           In a (t_annotations db) -> owned_by db Annotations a P ->
           annotations.created_by a = projects.created_by P).
Proof.
  split; [|split].
  - intros db who reads a P NP NI HP HA. apply decide_allow in HA.
    apply authorized_needs_first_row in HA.
    apply check_annotations in HA as [HO Hw].
    apply (@owner_is_creator db Annotations a P who NP (fun _ => NI) HP) in HO.
    congruence.
  - intros db who reads old new P NP NI HP HA. apply decide_allow in HA.
    apply authorized_needs_first_row in HA as [_ HA].
    apply check_annotations in HA as [HO Hw].
    apply (@owner_is_creator db Annotations new P who NP (fun _ => NI) HP) in HO.
    congruence.
  - intros db HR a P Ha (i & Hi & Ei & Hp & Ep).
    apply (author_is_creator (reachable_consistent HR) a i P); auto.
Qed.

Lemma story_db_reachable_final : reachable final_era story_db.
Proof. apply run_reachable; [reflexivity | constructor]. Qed.

Lemma story_a1_owned : owned_by story_db Annotations a1 p1.
Proof. exists i1. lazy. auto. Qed.

Lemma C10_annotation_author_is_project_creator_witness :
  annotations.created_by a1 = projects.created_by p1
  /\ annotations.created_by a1_approved = projects.created_by p1
  /\ (In a1 (t_annotations story_db) /\ owned_by story_db Annotations a1 p1
      /\ annotations.created_by a1 = projects.created_by p1).
Proof.
  destruct C10_annotation_author_is_project_creator as (HI & HU & HR).
  split; [|split; [|split; [|split]]].
  - apply (HI sample_db (Authenticated "u1") true a1 p1
              sample_pk_projects sample_pk_images sample_a1_owned).
    lazy. reflexivity.
  - apply (HU sample_db (Authenticated "u1") true a1 a1_approved p1
              sample_pk_projects sample_pk_images).
    + exists i1. simpl. auto.
    + lazy. reflexivity.
  - lazy. auto.
  - exact story_a1_owned.
  - apply (HR story_db story_db_reachable_final a1 p1).
    + lazy. auto.
    + exact story_a1_owned.
Defined.

(** ** Keys in every store *)

Lemma no_pk_conflict t (stored : list (row t)) (new : row t) :
  unique_violation t stored new = false ->
  forall r, In r stored -> pk t r <> pk t new.
Proof.
  unfold unique_violation. rewrite existsb_false_forall. intros H r Hr.
  specialize (H r Hr). apply uuid_eqb_neq.
  destruct t; simpl in *; auto; now apply orb_false_iff in H as [H _].
Qed.

Lemma member_key_eq (m m' : project_members.row) :
  member_key m = member_key m' <->
  project_members.project_id m = project_members.project_id m'
  /\ project_members.user_id m = project_members.user_id m'.
Proof.
  unfold member_key. split; intros H; [inversion H; auto | destruct H; congruence].
Qed.

Lemma conflicts_members (new r : project_members.row) :
  conflicts ProjectMembers new r = true <->
  project_members.id r = project_members.id new \/ member_key r = member_key new.
Proof.
  simpl. rewrite orb_true_iff, andb_true_iff, ?uuid_eqb_eq, member_key_eq. tauto.
Qed.

Lemma no_member_conflict (stored : list project_members.row)
  (new : project_members.row) :
  unique_violation ProjectMembers stored new = false ->
  forall r, In r stored -> member_key r <> member_key new.
Proof.
  unfold unique_violation. rewrite existsb_false_forall. intros H r Hr E.
  specialize (H r Hr).
  assert (conflicts ProjectMembers new r = true)
    by (apply conflicts_members; auto).
  congruence.
Qed.

Lemma in_without t (k : uuid) (r : row t) (l : list (row t)) :
  In r (without t k l) <-> In r l /\ pk t r <> k.
Proof. apply (in_filter_out (pk t)). Qed.

(** Every statement keeps the primary key of every table unique, whatever
    the policies in force. *)
Lemma exec_pk_unique cat db who s :
  (forall t, pk_unique db t) ->
  forall t, pk_unique (fst (exec cat db who s)) t.
Proof.
  intros H t'.
  pose proof (H Profiles) as H1. pose proof (H Projects) as H2.
  pose proof (H ProjectMembers) as H3. pose proof (H Labels) as H4.
  pose proof (H Images) as H5. pose proof (H Annotations) as H6.
  unfold pk_unique in H1, H2, H3, H4, H5, H6. simpl in H1, H2, H3, H4, H5, H6.
  destruct s as [u em fn|t ret new|t target set|t target]; try destruct t;
    exec_cases; destruct t'; unfold pk_unique; simpl;
    try assumption;
    try (apply NoDup_map_filter; assumption);
    try (apply NoDup_map_snoc; [assumption|];
         match goal with
         | Hu : unique_violation ?t _ _ = false |- _ =>
             exact (no_pk_conflict t _ _ Hu)
         end);
    try (rewrite replace_row_replaced;
         apply NoDup_map_replaced; [assumption|assumption|];
         match goal with
         | Hu : unique_violation ?t _ _ = false |- _ =>
             intros x Hx Hne; apply (no_pk_conflict t _ _ Hu);
             apply in_without; auto
         end).
Qed.

(** Every statement keeps [UNIQUE(project_id, user_id)] on memberships. *)
Lemma exec_members_unique cat db who s :
  pk_unique db ProjectMembers ->
  NoDup (map member_key (t_project_members db)) ->
  NoDup (map member_key (t_project_members (fst (exec cat db who s)))).
Proof.
  unfold pk_unique. simpl. intros NI NK.
  destruct s as [u em fn|t ret new|t target set|t target]; try destruct t;
    exec_cases; simpl; try assumption.
  - apply NoDup_map_snoc; auto. now apply no_member_conflict.
  - rewrite replace_row_replaced. apply NoDup_map_replaced; auto.
    intros x Hx Hne. apply (@no_member_conflict _ _ Htest1).
    apply (in_without ProjectMembers). auto.
  - now apply NoDup_map_filter.
  - now apply NoDup_map_filter.
Qed.

Lemma exec_keys_unique cat db who s :
  keys_unique db -> keys_unique (fst (exec cat db who s)).
Proof.
  intros [HP HM HL]. constructor.
  - now apply exec_pk_unique.
  - apply exec_members_unique; auto.
  - apply exec_labels_unique. split; auto. exact (HP Labels).
Qed.

Lemma empty_db_keys_unique : keys_unique empty_db.
Proof.
  constructor; try (intros t; destruct t; unfold pk_unique); simpl; constructor.
Qed.

Lemma reachable_keys_unique era db : reachable era db -> keys_unique db.
Proof.
  induction 1 as [|cat db who s _ IH _].
  - exact empty_db_keys_unique.
  - now apply exec_keys_unique.
Qed.

(** ** Foreign keys in every store *)

Section Resolves.
Context {A B : Type}.
Variable fk : A -> uuid.
Variable id_of : B -> uuid.
Variables (children : list A) (parents : list B).
Hypothesis H : resolves fk id_of children parents.

Lemma resolves_more_parents (x : B) :
  resolves fk id_of children (parents ++ [x]).
Proof.
  intros c Hc. destruct (H c Hc) as (p & Hp & E).
  exists p. split; auto. apply in_snoc. auto.
Qed.

Lemma resolves_new_child (x : A) :
  (exists q, In q parents /\ id_of q = fk x) ->
  resolves fk id_of (children ++ [x]) parents.
Proof.
  intros Hx c Hc. apply in_snoc in Hc as [Hc| ->]; auto.
Qed.

Lemma resolves_replaced_child (id_c : A -> uuid) (target : uuid) (new : A) :
  (exists q, In q parents /\ id_of q = fk new) ->
  resolves fk id_of (replaced id_c target new children) parents.
Proof.
  intros Hx c Hc. apply in_replaced in Hc as [[Hc _]|[-> _]]; auto.
Qed.

Lemma resolves_replaced_parent (target : uuid) (old new : B) :
  In old parents -> id_of old = target ->
  (id_of new = target \/ forall x, In x children -> fk x <> target) ->
  resolves fk id_of children (replaced id_of target new parents).
Proof.
  intros Hold Eold Href c Hc. destruct (H c Hc) as (p & Hp & E).
  destruct (string_dec (id_of p) target) as [Et|Et].
  - destruct Href as [En|Hno].
    + exists new. split; [|congruence].
      apply in_replaced. right. split; auto. exists old. auto.
    + elim (Hno c Hc). congruence.
  - exists p. split; auto. apply in_replaced. auto.
Qed.

Lemma resolves_filter (fc : A -> bool) (fp : B -> bool) :
  (forall x, In x children -> fc x = true ->
             forall q, In q parents -> id_of q = fk x -> fp q = true) ->
  resolves fk id_of (filter fc children) (filter fp parents).
Proof.
  intros Hf c Hc. apply filter_In in Hc as [Hc Hk].
  destruct (H c Hc) as (p & Hp & E). exists p. split; auto.
  apply filter_In. split; auto. eapply Hf; eauto.
Qed.

Lemma resolves_fewer_children (fc : A -> bool) :
  resolves fk id_of (filter fc children) parents.
Proof.
  intros c Hc. apply filter_In in Hc as [Hc _]. auto.
Qed.
End Resolves.

Lemma member_parent db (m : project_members.row) :
  parents_exist db ProjectMembers m = true ->
  exists p, In p (t_projects db)
            /\ projects.id p = project_members.project_id m.
Proof.
  simpl. rewrite existsb_exists. intros (p & Hp & E).
  exists p. now rewrite uuid_eqb_eq in E.
Qed.

Lemma label_parent db (l : labels.row) :
  parents_exist db Labels l = true ->
  exists p, In p (t_projects db) /\ projects.id p = labels.project_id l.
Proof.
  simpl. rewrite existsb_exists. intros (p & Hp & E).
  exists p. now rewrite uuid_eqb_eq in E.
Qed.

Lemma annotation_label_parent db (a : annotations.row) :
  parents_exist db Annotations a = true ->
  exists l, In l (t_labels db) /\ labels.id l = annotations.label_id a.
Proof.
  simpl. rewrite andb_true_iff, !existsb_exists. intros [_ (l & Hl & E)].
  exists l. now rewrite uuid_eqb_eq in E.
Qed.

Lemma not_referenced_project_all db (k : uuid) :
  referenced db Projects k = false ->
  (forall m, In m (t_project_members db) -> project_members.project_id m <> k)
  /\ (forall l, In l (t_labels db) -> labels.project_id l <> k)
  /\ (forall i, In i (t_images db) -> images.project_id i <> k).
Proof.
  simpl. rewrite !orb_false_iff, !existsb_false_forall.
  intros [[H1 H2] H3]. repeat split; intros x Hx; apply uuid_eqb_neq; auto.
Qed.

Lemma not_referenced_label db (k : uuid) :
  referenced db Labels k = false ->
  forall a, In a (t_annotations db) -> annotations.label_id a <> k.
Proof.
  simpl. intros H a Ha.
  rewrite existsb_false_forall in H. apply uuid_eqb_neq. auto.
Qed.

(** Every statement keeps every foreign key resolved, whatever the policies
    in force. *)
Lemma exec_references cat db who s :
  references_resolve db -> references_resolve (fst (exec cat db who s)).
Proof.
  intros [F1 F2 F3 F4 F5].
  destruct s as [u em fn|t ret new|t target set|t target]; try destruct t;
    exec_cases; constructor; simpl; try assumption;
    try (rewrite replace_row_replaced);
    try (apply resolves_more_parents; assumption);
    try (apply resolves_fewer_children; assumption);
    repeat match goal with
           | Hn : negb _ = false |- _ => apply negb_false_iff in Hn
           end.
  - apply resolves_new_child; auto. now apply member_parent.
  - apply resolves_new_child; auto. now apply label_parent.
  - apply resolves_new_child; auto. now apply image_parent.
  - apply resolves_new_child; auto. now apply annotation_parent.
  - apply resolves_new_child; auto. now apply annotation_label_parent.
  - apply find_by_id in Hfind as [Hold Eold].
    apply resolves_replaced_parent with (old := old); auto.
    apply key_change in Htest3 as [E|E]; auto.
    right. now apply not_referenced_project_all.
  - apply find_by_id in Hfind as [Hold Eold].
    apply resolves_replaced_parent with (old := old); auto.
    apply key_change in Htest3 as [E|E]; auto.
    right. now apply not_referenced_project_all.
  - apply find_by_id in Hfind as [Hold Eold].
    apply resolves_replaced_parent with (old := old); auto.
    apply key_change in Htest3 as [E|E]; auto.
    right. now apply not_referenced_project_all.
  - apply resolves_replaced_child; auto. now apply member_parent.
  - apply resolves_replaced_child; auto. now apply label_parent.
  - apply find_by_id in Hfind as [Hold Eold].
    apply resolves_replaced_parent with (old := old); auto.
    apply key_change in Htest3 as [E|E]; auto.
    right. now apply not_referenced_label.
  - apply resolves_replaced_child; auto. now apply image_parent.
  - apply find_by_id in Hfind as [Hold Eold].
    apply resolves_replaced_parent with (old := old); auto.
    apply key_change in Htest3 as [E|E]; auto.
    right. now apply not_referenced_image.
  - apply resolves_replaced_child; auto. now apply annotation_parent.
  - apply resolves_replaced_child; auto. now apply annotation_label_parent.
  - apply resolves_filter; auto. intros x _ Hx q _ E. simpl. congruence.
  - apply resolves_filter; auto. intros x _ Hx q _ E. simpl. congruence.
  - apply resolves_filter; auto. intros x _ Hx q _ E. simpl. congruence.
  - apply resolves_filter; auto. intros x _ Hx q Hq E.
    apply andb_true_iff in Hx as [Hx _]. apply negb_true_iff in Hx.
    rewrite existsb_false_forall in Hx.
    destruct (uuid_eqb (images.project_id q) target) eqn:T; auto.
    assert (uuid_eqb (images.id q) (annotations.image_id x) = false) as Hne.
    { apply Hx. apply filter_In. auto. }
    apply uuid_eqb_neq in Hne. contradiction.
  - apply resolves_filter; auto. intros x _ Hx q Hq E.
    apply andb_true_iff in Hx as [_ Hx]. apply negb_true_iff in Hx.
    rewrite existsb_false_forall in Hx.
    destruct (uuid_eqb (labels.project_id q) target) eqn:T; auto.
    assert (uuid_eqb (labels.id q) (annotations.label_id x) = false) as Hne.
    { apply Hx. apply filter_In. auto. }
    apply uuid_eqb_neq in Hne. contradiction.
  - apply resolves_filter; auto. intros x _ Hx q _ E. simpl. congruence.
  - apply resolves_filter; auto. intros x _ Hx q _ E. simpl. congruence.
Qed.

Lemma empty_db_references : references_resolve empty_db.
Proof. constructor; intros c []. Qed.

Lemma reachable_references era db : reachable era db -> references_resolve db.
Proof.
  induction 1 as [|cat db who s _ IH _].
  - exact empty_db_references.
  - now apply exec_references.
Qed.

Lemma sample_references : references_resolve sample_db.
Proof.
  constructor; intros c Hc; simpl in Hc.
  - contradiction.
  - destruct Hc as [<-|[]]. exists p1. simpl. auto.
  - destruct Hc as [<-|[]]. exists p1. simpl. auto.
  - destruct Hc as [<-|[]]. exists i1. simpl. auto.
  - destruct Hc as [<-|[]]. exists l1. simpl. auto.
Qed.

(** X1. In every store that sign-ups and client statements produce from the
    empty one, under whatever policies, every foreign key resolves: each
    membership, label and image belongs to a stored project, each annotation
    to a stored image and a stored label; so no label, image or annotation
    of such a store is dangling. *)
Theorem reachable_store_has_no_orphans :
  forall (era : catalog -> Prop) (db : database),
    reachable era db ->
    references_resolve db
    /\ (forall l, In l (t_labels db) -> ~ dangling db Labels l)
    /\ (forall i, In i (t_images db) -> ~ dangling db Images i)
    /\ (forall a, In a (t_annotations db) -> ~ dangling db Annotations a).
Proof.
  intros era db HR. pose proof (reachable_references HR) as F.
  destruct F as [F1 F2 F3 F4 F5]. split; [constructor; auto|].
  repeat split.
  - intros l Hl Hd. destruct (F2 l Hl) as (p & Hp & E).
    apply (Hd p). simpl. auto.
  - intros i Hi Hd. destruct (F3 i Hi) as (p & Hp & E).
    apply (Hd p). simpl. auto.
  - intros a Ha Hd. destruct (F4 a Ha) as (i & Hi & Ei).
    destruct (F3 i Hi) as (p & Hp & Ep).
    apply (Hd p). exists i. auto.
Qed.

Lemma reachable_store_has_no_orphans_witness :
  ~ dangling story_db Annotations a1.
Proof.
  destruct (@reachable_store_has_no_orphans (fun _ => True) story_db
              story_db_reachable) as (_ & _ & _ & HA).
  apply HA. lazy. auto.
Defined.

(** X2. In every such store the primary key of every table,
    [UNIQUE(project_id, user_id)] on memberships and [UNIQUE(project_id,
    name)] on labels hold; an INSERT that passes the policies and repeats a
    stored primary key, or a stored (project, user) pair of memberships,
    fails with [UniqueConstraintViolation] and changes nothing. *)
Theorem reachable_store_keys_unique :
  (forall (era : catalog -> Prop) (db : database),
      reachable era db -> keys_unique db)
  /\ (forall cat db who returning t (new r : row t),
         In r (rows db t) -> pk t r = pk t new ->
         authorized cat db who returning t (Insert new) = true ->
         exec cat db who (INSERT_INTO t returning new)
         = (db, Failed UniqueConstraintViolation))
  /\ (forall cat db who returning (new m : project_members.row),
         In m (t_project_members db) ->
         project_members.project_id m = project_members.project_id new ->
         project_members.user_id m = project_members.user_id new ->
         authorized cat db who returning ProjectMembers (Insert new) = true ->
         exec cat db who (INSERT_INTO ProjectMembers returning new)
         = (db, Failed UniqueConstraintViolation)).
Proof.
  split; [|split].
  - intros era db HR. now apply reachable_keys_unique with (era := era).
  - intros cat db who returning t new r Hr E HA.
    unfold exec. rewrite HA. simpl.
    assert (unique_violation t (rows db t) new = true) as ->; [|reflexivity].
    apply existsb_exists. exists r. split; auto.
    apply uuid_eqb_eq in E.
    destruct t; simpl in *; rewrite ?E; auto.
  - intros cat db who returning new m Hm Ep Eu HA.
    unfold exec. rewrite HA. simpl rows. simpl negb. cbv iota.
    assert (unique_violation ProjectMembers (t_project_members db) new = true)
      as ->; [|reflexivity].
    apply existsb_exists. exists m. split; auto.
    apply conflicts_members. right. now apply member_key_eq.
Qed.

Lemma reachable_store_keys_unique_witness :
  keys_unique story_db
  /\ exec final_catalog story_db (Authenticated "u1")
          (INSERT_INTO Projects true p1_renamed)
     = (story_db, Failed UniqueConstraintViolation)
  /\ exec final_catalog members_db (Authenticated "u1")
          (INSERT_INTO ProjectMembers true m_u1_again)
     = (members_db, Failed UniqueConstraintViolation).
Proof.
  destruct reachable_store_keys_unique as (HK & HP & HM).
  split; [|split].
  - apply (HK (fun _ => True) story_db story_db_reachable).
  - apply (HP final_catalog story_db (Authenticated "u1") true Projects
              p1_renamed p1).
    + lazy. auto.
    + reflexivity.
    + lazy. reflexivity.
  - apply (HM final_catalog members_db (Authenticated "u1") true m_u1_again
              m_u1_in_p1).
    + lazy. auto.
    + reflexivity.
    + reflexivity.
    + lazy. reflexivity.
Defined.

(** ** More of the final rule set *)

Lemma using_members db who c (m : project_members.row) :
  using_ok final_catalog db who c ProjectMembers m = true <->
  has_role db (auth_uid who) admin = true
  \/ (c = SELECT /\ who = Authenticated (project_members.user_id m)).
Proof.
  final_rules final_project_members. unfold q_is_admin, q_own_membership.
  destruct c; simpl;
    rewrite ?orb_false_r, ?orb_true_iff, ?eq_uid_true, ?auth_uid_some;
    intuition congruence.
Qed.

Lemma check_members db who c (m : project_members.row) :
  check_ok final_catalog db who c ProjectMembers m = true <->
  has_role db (auth_uid who) admin = true
  \/ (c = SELECT /\ who = Authenticated (project_members.user_id m))
  \/ (c = INSERT
      /\ (exists p, In p (t_projects db)
                    /\ projects.id p = project_members.project_id m
                    /\ who = Authenticated (projects.created_by p))
      /\ who = Authenticated (project_members.user_id m)).
Proof.
  destruct c.
  - final_rules final_project_members. unfold q_is_admin, q_own_membership.
    rewrite ?orb_false_r, ?orb_true_iff, ?eq_uid_true, ?auth_uid_some.
    intuition congruence.
  - rewrite check_members_insert. intuition congruence.
  - final_rules final_project_members. unfold q_is_admin.
    rewrite ?orb_false_r. intuition congruence.
  - final_rules final_project_members. unfold q_is_admin.
    rewrite ?orb_false_r. intuition congruence.
Qed.

(** Unfolds a request on any table of the final rule set. *)
Ltac final_conditions :=
  unfold authorized;
  repeat (rewrite andb_true_iff || rewrite orb_true_iff
          || rewrite negb_true_iff);
  rewrite ?using_projects, ?check_projects, ?using_labels, ?check_labels,
          ?using_images, ?check_images, ?using_annotations, ?check_annotations,
          ?using_profiles, ?check_profiles, ?using_members, ?check_members.

Unset Implicit Arguments.

(** Under the final rules a row that passes the [USING] or the [WITH CHECK]
    test of some command passes the [USING] test of [SELECT]. *)
Lemma final_select_follows db who t c (r : row t) :
  using_ok final_catalog db who c t r = true
  \/ check_ok final_catalog db who c t r = true ->
  using_ok final_catalog db who SELECT t r = true.
Proof.
  destruct t.
  - rewrite (using_profiles db who c r), (check_profiles db who c r),
      (using_profiles db who SELECT r). tauto.
  - rewrite (using_projects db who c r), (check_projects db who c r),
      (using_projects db who SELECT r). tauto.
  - rewrite (using_members db who c r), (check_members db who c r),
      (using_members db who SELECT r). tauto.
  - rewrite (using_labels db who c r), (check_labels db who c r),
      (using_labels db who SELECT r). tauto.
  - rewrite (using_images db who c r), (check_images db who c r),
      (using_images db who SELECT r). tauto.
  - rewrite (using_annotations db who c r), (check_annotations db who c r),
      (using_annotations db who SELECT r). tauto.
Qed.

(** No row of any table is visible without a session. *)
Lemma final_select_needs_session db t (r : row t) :
  using_ok final_catalog db Anon SELECT t r = false.
Proof.
  apply not_true_is_false. destruct t.
  - rewrite (using_profiles db Anon SELECT r). intros [_ H]. discriminate.
  - rewrite (using_projects db Anon SELECT r). discriminate.
  - rewrite (using_members db Anon SELECT r). simpl. rewrite has_role_none.
    intros [H|[_ H]]; discriminate.
  - rewrite (using_labels db Anon SELECT r). intros (p & _ & H). discriminate.
  - rewrite (using_images db Anon SELECT r). intros (p & _ & H). discriminate.
  - rewrite (using_annotations db Anon SELECT r).
    intros (p & _ & H). discriminate.
Qed.

Set Implicit Arguments.

(** X3. Under the final rules the SELECT policies never refuse what the
    policies of the command allow: a statement that reads the rows it writes
    (a [WHERE] on its columns, a [RETURNING] clause) is authorized exactly
    when the same statement without the read is. *)
Theorem final_rules_reading_is_free :
  forall (db : database) (who : caller) (t : table) (rq : request t),
    authorize final_catalog db who true t rq
    = authorize final_catalog db who false t rq.
Proof.
  intros db who t rq. unfold authorize. f_equal.
  destruct rq as [r|new|old new|old]; unfold authorized; cbn [negb orb];
    rewrite ?andb_true_r; auto.
  - destruct (check_ok final_catalog db who INSERT t new) eqn:C; auto.
    apply (final_select_follows db who t INSERT new). now right.
  - destruct (using_ok final_catalog db who UPDATE t old) eqn:U; auto.
    destruct (check_ok final_catalog db who UPDATE t new) eqn:C; auto.
    rewrite (final_select_follows db who t UPDATE old (or_introl U)).
    apply (final_select_follows db who t UPDATE new (or_intror C)).
  - destruct (using_ok final_catalog db who DELETE t old) eqn:U; auto.
    apply (final_select_follows db who t DELETE old). now left.
Qed.

(** X4. Under the final rules a caller without a session is denied every
    request on every table. *)
Theorem final_rules_deny_anonymous :
  forall (db : database) (reads : bool) (t : table) (rq : request t),
    authorize final_catalog db Anon reads t rq = DENY.
Proof.
  intros db reads t rq. apply decide_deny, not_true_is_false. intros HA.
  apply authorized_needs_first_row in HA.
  destruct rq as [r|new|old new|old].
  - rewrite final_select_needs_session in HA. discriminate.
  - apply (fun H => final_select_follows db Anon t INSERT new (or_intror H))
      in HA.
    rewrite final_select_needs_session in HA. discriminate.
  - destruct HA as [HA _].
    apply (fun H => final_select_follows db Anon t UPDATE old (or_introl H))
      in HA.
    rewrite final_select_needs_session in HA. discriminate.
  - apply (fun H => final_select_follows db Anon t DELETE old (or_introl H))
      in HA.
    rewrite final_select_needs_session in HA. discriminate.
Qed.

(** X5. Under the final rules a project can be inserted exactly by an
    authenticated caller naming itself as [created_by]; such an INSERT fails
    with [UniqueConstraintViolation] when the id is stored already and
    otherwise appends the row, and every other INSERT fails with
    [PolicyDenied]. *)
Theorem final_rules_project_insert :
  forall (db : database) (who : caller) (returning : bool) (P : projects.row),
    decides (authorize final_catalog db who returning Projects (Insert P))
            (who = Authenticated (projects.created_by P))
    /\ (who <> Authenticated (projects.created_by P) ->
        exec final_catalog db who (INSERT_INTO Projects returning P)
        = (db, Failed PolicyDenied))
    /\ (who = Authenticated (projects.created_by P) ->
        (exists r, In r (t_projects db) /\ projects.id r = projects.id P) ->
        exec final_catalog db who (INSERT_INTO Projects returning P)
        = (db, Failed UniqueConstraintViolation))
    /\ (who = Authenticated (projects.created_by P) ->
        (forall r, In r (t_projects db) -> projects.id r <> projects.id P) ->
        exec final_catalog db who (INSERT_INTO Projects returning P)
        = (set_rows db Projects (t_projects db ++ [P]), Done 1)).
Proof.
  intros db who returning P.
  assert (authorized final_catalog db who returning Projects (Insert P) = true
          <-> who = Authenticated (projects.created_by P)) as HA
    by (final_conditions; tauto).
  split; [now apply authorize_decides|].
  split; [|split].
  - intros Hne. unfold exec.
    destruct (authorized _ _ _ _ _ _) eqn:E; [|reflexivity].
    elim Hne. now apply HA.
  - intros Hw (r & Hr & E). apply HA in Hw. unfold exec. rewrite Hw. simpl.
    assert (existsb (fun r0 => uuid_eqb (projects.id r0) (projects.id P))
                    (t_projects db) = true) as Hex.
    { apply existsb_exists. exists r. split; auto. now apply uuid_eqb_eq. }
    unfold unique_violation. simpl. now rewrite Hex.
  - intros Hw Hfresh. apply HA in Hw. unfold exec. rewrite Hw. simpl.
    assert (existsb (fun r0 => uuid_eqb (projects.id r0) (projects.id P))
                    (t_projects db) = false) as Hex.
    { apply existsb_false_forall. intros r Hr. apply uuid_eqb_neq. auto. }
    unfold unique_violation. simpl. now rewrite Hex.
Qed.

Lemma final_rules_project_insert_witness :
  exec final_catalog sample_db (Authenticated "u2")
       (INSERT_INTO Projects true p1_renamed)
  = (sample_db, Failed PolicyDenied)
  /\ exec final_catalog sample_db (Authenticated "u1")
          (INSERT_INTO Projects true p1_renamed)
     = (sample_db, Failed UniqueConstraintViolation)
  /\ exec final_catalog empty_db (Authenticated "u1")
          (INSERT_INTO Projects true p1)
     = (set_rows empty_db Projects [p1], Done 1).
Proof.
  destruct (final_rules_project_insert sample_db (Authenticated "u2") true
              p1_renamed) as (_ & H1 & _).
  destruct (final_rules_project_insert sample_db (Authenticated "u1") true
              p1_renamed) as (_ & _ & H2 & _).
  destruct (final_rules_project_insert empty_db (Authenticated "u1") true
              p1) as (_ & _ & _ & H3).
  split; [|split].
  - apply H1. discriminate.
  - apply H2; [reflexivity|]. exists p1. simpl. auto.
  - apply H3; [reflexivity|]. intros r [].
Defined.

(** X6. Under the final rules a membership row can be selected by an
    administrator and by the user it names, and updated or deleted by an
    administrator only: a caller without the role admin can change or remove
    no membership, its own self-enrolment included. *)
Theorem final_rules_memberships :
  forall (db : database) (who : caller) (reads : bool)
         (m : project_members.row),
    decides (authorize final_catalog db who reads ProjectMembers (Select m))
            (has_role db (auth_uid who) admin = true
             \/ who = Authenticated (project_members.user_id m))
    /\ decides (authorize final_catalog db who reads ProjectMembers (Delete m))
               (has_role db (auth_uid who) admin = true)
    /\ (forall new : project_members.row,
          decides (authorize final_catalog db who reads ProjectMembers
                             (Update m new))
                  (has_role db (auth_uid who) admin = true)).
Proof.
  intros db who reads m. split; [|split].
  - apply authorize_decides. final_conditions. intuition congruence.
  - apply authorize_decides. final_conditions. intuition congruence.
  - intros new. apply authorize_decides. final_conditions.
    intuition congruence.
Qed.

Lemma final_rules_memberships_witness :
  authorize final_catalog members_db (Authenticated "u1") true ProjectMembers
            (Select m_u1_in_p1) = ALLOW
  /\ authorize final_catalog members_db (Authenticated "u1") true
               ProjectMembers (Delete m_u1_in_p1) = DENY
  /\ authorize final_catalog members_db (Authenticated "u4") true
               ProjectMembers (Update m_u1_in_p1 m_u1_again) = ALLOW.
Proof.
  destruct (final_rules_memberships members_db (Authenticated "u1") true
              m_u1_in_p1) as ([HS _] & [_ HD] & _).
  destruct (final_rules_memberships members_db (Authenticated "u4") true
              m_u1_in_p1) as (_ & _ & HU).
  split; [|split].
  - apply HS. right. reflexivity.
  - apply HD. simpl. discriminate.
  - destruct (HU m_u1_again) as [HA _]. apply HA. reflexivity.
Defined.

(** ** Profiles and roles *)

Lemma find_unique (A : Type) (id_of : A -> uuid) (k : uuid) (x : A)
  (l : list A) :
  NoDup (map id_of l) -> In x l -> id_of x = k ->
  find (fun r => uuid_eqb (id_of r) k) l = Some x.
Proof.
  intros ND Hx E.
  destruct (find (fun r => uuid_eqb (id_of r) k) l) as [y|] eqn:F.
  - apply find_by_id in F as [Hy Ey]. f_equal.
    apply (pk_unique_inj id_of _ y x ND); auto. congruence.
  - apply (find_none _ _ F) in Hx. apply uuid_eqb_eq in E. congruence.
Qed.

(** On a table whose only key is its primary key, a row that keeps its id
    conflicts with no other row. *)
Lemma no_conflict_without t (k : uuid) (new : row t) (l : list (row t)) :
  t <> ProjectMembers -> t <> Labels -> pk t new = k ->
  unique_violation t (without t k l) new = false.
Proof.
  intros HM HL E. apply existsb_false_forall. intros r Hr.
  apply in_without in Hr as [Hr Hne].
  destruct t; simpl in *; try congruence; apply uuid_eqb_neq; congruence.
Qed.

(** X7. The UPDATE policy of [profiles] tests the id only: under the final
    rules a signed-up user rewrites the [role] of its own profile to any role
    in one UPDATE, [has_role] then answers for the new role, and with the
    role admin every membership INSERT of that user is allowed. *)
Theorem own_role_is_writable :
  forall (db : database) (u : uuid) (pr : profiles.row) (r : user_role),
    pk_unique db Profiles ->
    In pr (t_profiles db) -> profiles.id pr = u ->
    let db' := set_rows db Profiles
                 (replace_row Profiles u (set_role r pr) (t_profiles db)) in
    exec final_catalog db (Authenticated u) (UPDATE_SET Profiles u (set_role r))
    = (db', Done 1)
    /\ has_role db' (Some u) r = true
    /\ (r = admin ->
        forall (m : project_members.row) (reads : bool),
          authorize final_catalog db' (Authenticated u) reads ProjectMembers
                    (Insert m) = ALLOW).
Proof.
  intros db u pr r NP Hpr Eid db'.
  assert (has_role db' (Some u) r = true) as HR.
  { apply has_role_spec. exists (set_role r pr). simpl. repeat split.
    - rewrite replace_row_replaced. apply in_replaced. right.
      split; auto. exists pr. auto.
    - congruence. }
  split; [|split; auto].
  - unfold exec. simpl rows. simpl pk.
    cbv beta iota delta [row].
    rewrite (@find_unique _ profiles.id u pr (t_profiles db) NP Hpr Eid).
    assert (forall c x, profiles.id x = u -> c = SELECT \/ c = UPDATE ->
              using_ok final_catalog db (Authenticated u) c Profiles x = true)
      as HU by (intros c x Ex Hc; apply using_profiles; split; congruence).
    assert (check_ok final_catalog db (Authenticated u) UPDATE Profiles
                     (set_role r pr) = true) as HC
      by (apply check_profiles; split; simpl; auto; congruence).
    rewrite !HU, HC by (simpl; auto). simpl.
    rewrite (@no_conflict_without Profiles u (set_role r pr));
      try discriminate; auto.
    simpl. rewrite Eid, uuid_eqb_refl. reflexivity.
  - intros -> m reads. apply decide_allow.
    apply membership_insert_allowed. left. exact HR.
Qed.

Lemma sample_pk_profiles : pk_unique sample_db Profiles.
Proof.
  unfold pk_unique. simpl. repeat constructor; simpl; intuition discriminate.
Qed.

Lemma own_role_is_writable_witness :
  has_role (set_rows sample_db Profiles
              (replace_row Profiles "u2"
                 (set_role admin (mk_profile "u2" annotator))
                 (t_profiles sample_db)))
           (Some "u2") admin = true.
Proof.
  apply (@own_role_is_writable sample_db "u2" (mk_profile "u2" annotator) admin
           sample_pk_profiles).
  - simpl. auto.
  - reflexivity.
Defined.

(** X8. With unique profile ids [has_role] grants a user at most one role. *)
Theorem has_role_at_most_one :
  forall (db : database) (u : option uuid) (r r' : user_role),
    pk_unique db Profiles ->
    has_role db u r = true -> has_role db u r' = true -> r = r'.
Proof.
  intros db u r r' NP H H'.
  apply has_role_spec in H as (pr & Hpr & Eu & Er).
  apply has_role_spec in H' as (pr' & Hpr' & Eu' & Er').
  assert (pr = pr')
    by (apply (pk_unique_inj profiles.id _ pr pr' NP); auto; congruence).
  congruence.
Qed.

Lemma has_role_at_most_one_witness :
  reviewer = reviewer.
Proof.
  apply (@has_role_at_most_one sample_db (Some "u3") reviewer reviewer
           sample_pk_profiles); reflexivity.
Defined.

(** X9. Signing up a user whose id has no profile stores a profile with the
    role annotator, whatever metadata came with it, and changes the role of
    no other user; signing up an id that has a profile fails with
    [UniqueConstraintViolation]. *)
Theorem sign_up_makes_an_annotator :
  forall (cat : catalog) (db : database) (who : caller)
         (NEW_id : uuid) (NEW_email : string) (full_name : option string),
    ((forall pr, In pr (t_profiles db) -> profiles.id pr <> NEW_id) ->
     let db' := fst (exec cat db who (SIGN_UP NEW_id NEW_email full_name)) in
     snd (exec cat db who (SIGN_UP NEW_id NEW_email full_name)) = Done 1
     /\ (forall r, has_role db' (Some NEW_id) r = true <-> r = annotator)
     /\ (forall u r, u <> NEW_id ->
                     has_role db' (Some u) r = has_role db (Some u) r))
    /\ ((exists pr, In pr (t_profiles db) /\ profiles.id pr = NEW_id) ->
        exec cat db who (SIGN_UP NEW_id NEW_email full_name)
        = (db, Failed UniqueConstraintViolation)).
Proof.
  intros cat db who NEW_id NEW_email full_name. split.
  - intros Hfresh. unfold exec, handle_new_user.
    set (pr := {| profiles.id := NEW_id; profiles.email := NEW_email;
                  profiles.full_name := _; profiles.role := annotator |}).
    assert (unique_violation Profiles (t_profiles db) pr = false) as ->.
    { apply existsb_false_forall. intros x Hx. simpl.
      apply uuid_eqb_neq. auto. }
    simpl. split; [reflexivity|]. split.
    + intros r. rewrite has_role_spec. simpl. split.
      * intros (x & Hx & Eu & Er). apply in_snoc in Hx as [Hx| ->].
        -- elim (Hfresh x Hx). congruence.
        -- now subst r.
      * intros ->. exists pr. split; [apply in_snoc; auto|]. auto.
    + intros u r Hne. unfold has_role. simpl.
      rewrite existsb_app. simpl.
      assert (uuid_eqb NEW_id u = false) as ->
        by (apply uuid_eqb_neq; congruence).
      simpl. now rewrite orb_false_r.
  - intros (x & Hx & E). unfold exec, handle_new_user.
    match goal with
    | |- context [unique_violation Profiles ?l ?p] =>
        assert (unique_violation Profiles l p = true) as ->
    end; [|reflexivity].
    apply existsb_exists. exists x. split; auto. simpl.
    now apply uuid_eqb_eq.
Qed.

Lemma sign_up_makes_an_annotator_witness :
  has_role (fst (exec final_catalog sample_db Anon
                      (SIGN_UP "u5" "u5@example.org" (Some "Eve"))))
           (Some "u5") annotator = true
  /\ exec final_catalog sample_db Anon (SIGN_UP "u1" "u1@example.org" None)
     = (sample_db, Failed UniqueConstraintViolation).
Proof.
  destruct (sign_up_makes_an_annotator final_catalog sample_db Anon
              "u5" "u5@example.org" (Some "Eve")) as [H1 _].
  destruct (sign_up_makes_an_annotator final_catalog sample_db Anon
              "u1" "u1@example.org" None) as [_ H2].
  split.
  - assert (forall pr, In pr (t_profiles sample_db) -> profiles.id pr <> "u5")
      as Hfresh by (simpl; intuition (subst; discriminate)).
    destruct (H1 Hfresh) as (_ & HR & _). now apply HR.
  - apply H2. exists (mk_profile "u1" annotator). simpl. auto.
Defined.

(** ** Reading back what was written *)

Lemma rows_set_rows db t (l : list (row t)) : rows (set_rows db t l) t = l.
Proof. destruct t; reflexivity. Qed.

(** No policy of the final rule set reads the table it protects. *)
Lemma final_policies_ignore_own_table db who c t (l : list (row t)) (r : row t) :
  using_ok final_catalog (set_rows db t l) who c t r
  = using_ok final_catalog db who c t r
  /\ check_ok final_catalog (set_rows db t l) who c t r
     = check_ok final_catalog db who c t r.
Proof.
  unfold using_ok, check_ok, applicable.
  destruct t;
    rewrite ?final_profiles, ?final_projects, ?final_project_members,
            ?final_labels, ?final_images, ?final_annotations;
    destruct c, who; split; reflexivity.
Qed.

(** What a statement that completed says about the store it ran on. *)
Lemma exec_insert_done cat db db' who returning t (new : row t) n :
  exec cat db who (INSERT_INTO t returning new) = (db', Done n) ->
  n = 1 /\ db' = set_rows db t (rows db t ++ [new])
  /\ authorized cat db who returning t (Insert new) = true
  /\ unique_violation t (rows db t) new = false
  /\ parents_exist db t new = true.
Proof.
  unfold exec.
  destruct (authorized _ _ _ _ _ _); simpl; [|discriminate].
  destruct (unique_violation _ _ _); [discriminate|].
  destruct (parents_exist _ _ _); simpl; [|discriminate].
  intros E. inversion E. auto.
Qed.

Lemma exec_update_done cat db db' who t target (set : row t -> row t) :
  exec cat db who (UPDATE_SET t target set) = (db', Done 1) ->
  exists old,
    In old (rows db t) /\ pk t old = target
    /\ find (fun r => uuid_eqb (pk t r) target) (rows db t) = Some old
    /\ using_ok cat db who UPDATE t old = true
    /\ using_ok cat db who SELECT t old = true
    /\ check_ok cat db who UPDATE t (set old) = true
    /\ using_ok cat db who SELECT t (set old) = true
    /\ unique_violation t (without t target (rows db t)) (set old) = false
    /\ parents_exist db t (set old) = true
    /\ (pk t (set old) = target \/ referenced db t target = false)
    /\ db' = set_rows db t (replace_row t target (set old) (rows db t)).
Proof.
  unfold exec.
  destruct (find _ _) as [old|] eqn:Hfind; [|discriminate].
  destruct (using_ok cat db who UPDATE t old) eqn:H1; simpl; [|discriminate].
  destruct (using_ok cat db who SELECT t old) eqn:H2; simpl; [|discriminate].
  destruct (check_ok cat db who UPDATE t (set old)) eqn:H3; simpl;
    [|discriminate].
  destruct (using_ok cat db who SELECT t (set old)) eqn:H4; simpl;
    [|discriminate].
  destruct (unique_violation _ _ _) eqn:H5; [discriminate|].
  destruct (parents_exist _ _ _) eqn:H6; simpl; [|discriminate].
  destruct (negb _ && _) eqn:H7; [discriminate|].
  intros E. inversion E. exists old.
  pose proof (find_by_id _ _ _ Hfind) as [Hold Eold].
  repeat split; auto. now apply key_change.
Qed.

Lemma exec_delete_done cat db db' who t target :
  exec cat db who (DELETE_FROM t target) = (db', Done 1) ->
  exists old,
    In old (rows db t) /\ pk t old = target
    /\ using_ok cat db who DELETE t old = true
    /\ using_ok cat db who SELECT t old = true
    /\ db' = delete_cascade db t target.
Proof.
  unfold exec.
  destruct (find _ _) as [old|] eqn:Hfind; [|discriminate].
  destruct (using_ok cat db who DELETE t old) eqn:H1; simpl; [|discriminate].
  destruct (using_ok cat db who SELECT t old) eqn:H2; simpl; [|discriminate].
  intros E. inversion E. exists old.
  pose proof (find_by_id _ _ _ Hfind) as [Hold Eold]. auto.
Qed.

Unset Implicit Arguments.

(** A row test of the final rule set on a store that differs in the tested
    table only. *)
Lemma select_after_write db who t (l : list (row t)) (r : row t) :
  using_ok final_catalog db who SELECT t r = true ->
  using_ok final_catalog (set_rows db t l) who SELECT t r = true.
Proof.
  intros H.
  now rewrite (proj1 (final_policies_ignore_own_table db who SELECT t l r)).
Qed.

Lemma insert_check_gives_select db who t (new : row t) :
  check_ok final_catalog db who INSERT t new = true ->
  using_ok final_catalog db who SELECT t new = true.
Proof.
  intros HA. destruct t.
  - apply check_profiles in HA as [[E|E] _]; discriminate.
  - apply using_projects. now apply check_projects in HA.
  - apply using_members. apply check_members in HA.
    intuition (try discriminate).
  - apply using_labels. now apply check_labels in HA.
  - apply using_images. now apply check_images in HA.
  - apply using_annotations. now apply check_annotations in HA as [HA _].
Qed.

Set Implicit Arguments.

(** X10. Under the final rules a caller can read back what it wrote: after
    an INSERT that succeeded the new row is stored and the caller may SELECT
    it in the new store, and after an UPDATE that touched a row the written
    row is stored and the caller may SELECT it. *)
Theorem final_rules_read_your_writes :
  (forall (db db' : database) (who : caller) (returning : bool) (t : table)
          (new : row t) (n : nat),
      exec final_catalog db who (INSERT_INTO t returning new) = (db', Done n) ->
      n = 1 /\ In new (rows db' t)
      /\ authorize final_catalog db' who true t (Select new) = ALLOW)
  /\ (forall (db db' : database) (who : caller) (t : table) (target : uuid)
             (set : row t -> row t),
         exec final_catalog db who (UPDATE_SET t target set) = (db', Done 1) ->
         exists old, In old (rows db t) /\ pk t old = target
                     /\ In (set old) (rows db' t)
                     /\ authorize final_catalog db' who true t
                                  (Select (set old)) = ALLOW).
Proof.
  split.
  - intros db db' who returning t new n H.
    apply exec_insert_done in H as (En & Edb & HA & _).
    apply authorized_needs_first_row in HA.
    apply insert_check_gives_select in HA.
    apply (select_after_write db who t (rows db t ++ [new])) in HA.
    rewrite <- Edb in HA.
    split; [exact En|]. split.
    + rewrite Edb, rows_set_rows. apply in_snoc. auto.
    + apply decide_allow. exact HA.
  - intros db db' who t target set H.
    apply exec_update_done in H
      as (old & Hold & Eold & _ & _ & _ & _ & HS & _ & _ & _ & Edb).
    apply (select_after_write db who t
             (replace_row t target (set old) (rows db t))) in HS.
    rewrite <- Edb in HS.
    exists old. repeat split; auto.
    + rewrite Edb, rows_set_rows, replace_row_replaced. apply in_replaced.
      right. split; auto. exists old. auto.
    + apply decide_allow. exact HS.
Qed.

Lemma final_rules_read_your_writes_witness :
  authorize final_catalog (set_rows empty_db Projects [p1])
            (Authenticated "u1") true Projects (Select p1) = ALLOW.
Proof.
  destruct final_rules_read_your_writes as [HI _].
  apply (HI empty_db (set_rows empty_db Projects [p1]) (Authenticated "u1")
            true Projects p1 1).
  lazy. reflexivity.
Defined.

(** ** The rule set before 20250909171528_wild_haze *)

Lemma before_wild_haze_projects :
  catalog_before_wild_haze Projects =
  [ {| polname := "Admins can view all projects"; polcmd_of := FOR SELECT;
       polroles_of := TO_public;
       polqual := Some (q_is_admin Projects); polwithcheck := None |};
    {| polname := "Members can view assigned projects"; polcmd_of := FOR SELECT;
       polroles_of := TO_public;
       polqual := Some q_member_of_project; polwithcheck := None |};
    {| polname := "Creators and admins can update projects";
       polcmd_of := FOR UPDATE; polroles_of := TO_public;
       polqual := Some q_project_creator_or_admin; polwithcheck := None |};
    {| polname := "Authenticated users can create projects";
       polcmd_of := FOR INSERT; polroles_of := TO_authenticated;
       polqual := None; polwithcheck := Some q_project_creator |} ].
Proof. lazy. reflexivity. Qed.

Lemma q_member_of_project_spec db uid (p : projects.row) :
  q_member_of_project db uid p = true <->
  exists m, In m (t_project_members db)
            /\ project_members.project_id m = projects.id p
            /\ uid = Some (project_members.user_id m).
Proof.
  unfold q_member_of_project. rewrite existsb_exists.
  split; intros (m & Hm & H); exists m; split; auto.
  - apply andb_true_iff in H as [H1 H2].
    now rewrite uuid_eqb_eq in H1; rewrite eq_uid_true in H2.
  - apply andb_true_iff. now rewrite uuid_eqb_eq, eq_uid_true.
Qed.

Lemma before_select_project db who (p : projects.row) :
  using_ok catalog_before_wild_haze db who SELECT Projects p = true <->
  has_role db (auth_uid who) admin = true
  \/ exists m, In m (t_project_members db)
               /\ project_members.project_id m = projects.id p
               /\ auth_uid who = Some (project_members.user_id m).
Proof.
  unfold using_ok, applicable. rewrite before_wild_haze_projects. simpl.
  unfold q_is_admin. fold (q_member_of_project db (auth_uid who) p).
  rewrite orb_false_r, orb_true_iff, q_member_of_project_spec. tauto.
Qed.

Lemma before_insert_project db u (p : projects.row) :
  check_ok catalog_before_wild_haze db (Authenticated u) INSERT Projects p
  = true <-> projects.created_by p = u.
Proof.
  unfold check_ok, applicable. rewrite before_wild_haze_projects. simpl.
  now rewrite orb_false_r, uuid_eqb_eq.
Qed.

Lemma before_update_project db who (p : projects.row) :
  (using_ok catalog_before_wild_haze db who UPDATE Projects p = true <->
   auth_uid who = Some (projects.created_by p)
   \/ has_role db (auth_uid who) admin = true)
  /\ (check_ok catalog_before_wild_haze db who UPDATE Projects p = true <->
      auth_uid who = Some (projects.created_by p)
      \/ has_role db (auth_uid who) admin = true).
Proof.
  unfold using_ok, check_ok, applicable. rewrite before_wild_haze_projects.
  simpl. unfold q_project_creator_or_admin.
  rewrite orb_false_r, orb_true_iff, eq_uid_true. tauto.
Qed.

(** X11. Before 20250909171528_wild_haze a user without the role admin could
    insert a project in its own name but not read it: in a store whose
    foreign keys resolve, its INSERT of a new project succeeded without
    [RETURNING] and failed with [PolicyDenied] with it, and the stored
    project was hidden from its creator.  Under the final rules the same
    INSERT with [RETURNING] succeeds. *)
Theorem creator_could_not_read_own_project :
  forall (db : database) (u : uuid) (P : projects.row),
    references_resolve db ->
    (forall r, In r (t_projects db) -> projects.id r <> projects.id P) ->
    has_role db (Some u) admin = false ->
    projects.created_by P = u ->
    let db' := set_rows db Projects (t_projects db ++ [P]) in
    exec catalog_before_wild_haze db (Authenticated u)
         (INSERT_INTO Projects true P) = (db, Failed PolicyDenied)
    /\ exec catalog_before_wild_haze db (Authenticated u)
            (INSERT_INTO Projects false P) = (db', Done 1)
    /\ authorize catalog_before_wild_haze db' (Authenticated u) true Projects
                 (Select P) = DENY
    /\ exec final_catalog db (Authenticated u) (INSERT_INTO Projects true P)
       = (db', Done 1).
Proof.
  intros db u P F Hfresh Hna Hc db'.
  assert (forall d, t_project_members d = t_project_members db ->
            t_profiles d = t_profiles db ->
            using_ok catalog_before_wild_haze d (Authenticated u) SELECT
                     Projects P = false) as Hhidden.
  { intros d Em Ep. apply not_true_is_false. intros HS.
    apply before_select_project in HS as [HS|(m & Hm & Em' & _)].
    - unfold has_role in HS. rewrite Ep in HS. simpl in HS.
      unfold has_role in Hna. simpl in Hna. congruence.
    - rewrite Em in Hm.
      destruct (fk_members_project F m Hm) as (p & Hp & E).
      apply (Hfresh p Hp). congruence. }
  assert (check_ok catalog_before_wild_haze db (Authenticated u) INSERT
                   Projects P = true) as HC
    by now apply before_insert_project.
  assert (unique_violation Projects (t_projects db) P = false) as HU.
  { apply existsb_false_forall. intros r Hr. simpl.
    apply uuid_eqb_neq. auto. }
  split; [|split; [|split]].
  - unfold exec, authorized. rewrite HC, (Hhidden db) by reflexivity.
    reflexivity.
  - unfold exec, authorized. rewrite HC. simpl. now rewrite HU.
  - apply decide_deny. simpl. apply Hhidden; reflexivity.
  - assert (authorized final_catalog db (Authenticated u) true Projects
                       (Insert P) = true) as HA.
    { unfold authorized. apply andb_true_iff.
      split; [apply check_projects | apply using_projects]; congruence. }
    unfold exec. rewrite HA. simpl. now rewrite HU.
Qed.

Lemma creator_could_not_read_own_project_witness :
  exec catalog_before_wild_haze sample_db (Authenticated "u2")
       (INSERT_INTO Projects true p2) = (sample_db, Failed PolicyDenied)
  /\ exec final_catalog sample_db (Authenticated "u2")
          (INSERT_INTO Projects true p2)
     = (set_rows sample_db Projects (t_projects sample_db ++ [p2]), Done 1).
Proof.
  assert (forall r, In r (t_projects sample_db) ->
                    projects.id r <> projects.id p2) as Hfresh
    by (simpl; intuition (subst; discriminate)).
  destruct (@creator_could_not_read_own_project sample_db "u2" p2
              sample_references Hfresh eq_refl eq_refl) as (H1 & _ & _ & H4).
  split; assumption.
Defined.

(** X12. Before 20250909171528_wild_haze the UPDATE policy of [projects] had
    no [WITH CHECK] and let administrators through: an administrator's
    UPDATE of any project was allowed whatever row it wrote, a new
    [created_by] included, while a user without that role could update only
    a project it created and only to a row naming itself. *)
Theorem admins_could_reassign_projects :
  forall (db : database) (u : uuid) (old new : projects.row),
    (has_role db (Some u) admin = true ->
     forall reads,
       authorize catalog_before_wild_haze db (Authenticated u) reads Projects
                 (Update old new) = ALLOW)
    /\ (has_role db (Some u) admin = false ->
        decides (authorize catalog_before_wild_haze db (Authenticated u) false
                           Projects (Update old new))
                (projects.created_by old = u /\ projects.created_by new = u)).
Proof.
  intros db u old new. split.
  - intros Ha reads. apply decide_allow. unfold authorized.
    destruct (before_update_project db (Authenticated u) old) as [HU _].
    destruct (before_update_project db (Authenticated u) new) as [_ HC].
    rewrite (proj2 HU), (proj2 HC) by (right; exact Ha).
    rewrite (proj2 (before_select_project db (Authenticated u) old)),
            (proj2 (before_select_project db (Authenticated u) new))
      by (left; exact Ha).
    now destruct reads.
  - intros Hna. apply authorize_decides. unfold authorized. simpl negb.
    rewrite orb_true_l, andb_true_r, andb_true_iff.
    destruct (before_update_project db (Authenticated u) old) as [HU _].
    destruct (before_update_project db (Authenticated u) new) as [_ HC].
    rewrite HU, HC. simpl. rewrite Hna.
    split.
    + intros [[H|H] [H'|H']]; try discriminate. split; congruence.
    + intros [H H']. split; left; congruence.
Qed.

Lemma admins_could_reassign_projects_witness :
  authorize catalog_before_wild_haze sample_db (Authenticated "u4") true
            Projects (Update p1 (hand_to_u2 p1)) = ALLOW
  /\ authorize catalog_before_wild_haze sample_db (Authenticated "u1") false
               Projects (Update p1 (hand_to_u2 p1)) = DENY.
Proof.
  destruct (admins_could_reassign_projects sample_db "u4" p1 (hand_to_u2 p1))
    as [HA _].
  destruct (admins_could_reassign_projects sample_db "u1" p1 (hand_to_u2 p1))
    as [_ HD].
  split.
  - apply HA. reflexivity.
  - destruct (HD eq_refl) as [_ HD']. apply HD'.
    intros [_ H]. discriminate H.
Defined.

(** ** What a caller's statements leave alone *)

Unset Implicit Arguments.

Lemma stays_in_replaced (A : Type) (id_of : A -> uuid) (target : uuid)
  (old new r : A) (l : list A) :
  NoDup (map id_of l) -> In old l -> id_of old = target -> In r l ->
  r <> old -> In r (replaced id_of target new l).
Proof.
  intros ND Hold Eold Hr Hne. apply in_replaced. left. split; auto.
  intros E. apply Hne. apply (pk_unique_inj id_of l r old ND); auto. congruence.
Qed.

Lemma stays_without (A : Type) (id_of : A -> uuid) (target : uuid)
  (old r : A) (l : list A) :
  NoDup (map id_of l) -> In old l -> id_of old = target -> In r l ->
  r <> old -> In r (filter (fun x => negb (uuid_eqb (id_of x) target)) l).
Proof.
  intros ND Hold Eold Hr Hne. apply filter_In. split; auto.
  apply negb_true_iff, uuid_eqb_neq.
  intros E. apply Hne. apply (pk_unique_inj id_of l r old ND); auto. congruence.
Qed.

(** Strips the tests of a completed statement down to their first
    conjuncts. *)
Ltac tests_passed :=
  repeat match goal with
         | Hn : negb _ = false |- _ => apply negb_false_iff in Hn
         | Hn : _ && _ = true |- _ => apply andb_true_iff in Hn as [Hn _]
         | Hf : find _ _ = Some _ |- _ => apply find_by_id in Hf as [? ?]
         end.

Lemma foreign_projects_survive db who s :
  pk_unique db Projects ->
  forall p, In p (t_projects db) ->
            who <> Authenticated (projects.created_by p) ->
            In p (t_projects (fst (exec final_catalog db who s))).
Proof.
  unfold pk_unique. simpl rows. simpl pk. intros NP p Hp Hf.
  destruct s as [u em fn|t ret new|t target set|t target]; try destruct t;
    exec_cases; simpl; auto; tests_passed.
  - apply in_snoc. auto.
  - apply using_projects in Htest.
    apply stays_in_replaced with (old := old); auto. congruence.
  - apply using_projects in Htest.
    apply stays_without with (old := old); auto. congruence.
Qed.

Lemma new_projects_are_own db who s :
  forall p, In p (t_projects (fst (exec final_catalog db who s))) ->
            In p (t_projects db)
            \/ who = Authenticated (projects.created_by p).
Proof.
  intros p.
  destruct s as [u em fn|t ret new|t target set|t target]; try destruct t;
    exec_cases; simpl; auto; tests_passed; intros Hp.
  - apply in_snoc in Hp as [Hp| ->]; auto.
    apply authorized_needs_first_row in Htest.
    right. now apply check_projects in Htest.
  - apply in_replaced in Hp as [[Hp _]|[-> _]]; auto.
    right. now apply check_projects in Htest0.
  - apply filter_In in Hp as [Hp _]. auto.
Qed.

Lemma foreign_labels_survive db who s :
  pk_unique db Labels ->
  forall l, In l (t_labels db) -> foreign_to db who Labels l ->
            In l (t_labels (fst (exec final_catalog db who s))).
Proof.
  unfold pk_unique, foreign_to. simpl rows. simpl pk. intros NL l Hl Hf.
  destruct s as [u em fn|t ret new|t target set|t target]; try destruct t;
    exec_cases; simpl; auto; tests_passed.
  - apply in_snoc. auto.
  - apply using_labels in Htest as (p & Hp & Hw).
    apply stays_in_replaced with (old := old); auto.
    intros ->. now apply (Hf p).
  - apply using_projects in Htest.
    apply filter_In. split; auto. apply negb_true_iff, uuid_eqb_neq.
    intros E. apply (Hf old); auto. simpl in *. split; congruence.
  - apply using_labels in Htest as (p & Hp & Hw).
    apply stays_without with (old := old); auto.
    intros ->. now apply (Hf p).
Qed.

Lemma new_labels_are_own db who s :
  forall l, In l (t_labels (fst (exec final_catalog db who s))) ->
            In l (t_labels db) \/ own db who Labels l.
Proof.
  intros l.
  destruct s as [u em fn|t ret new|t target set|t target]; try destruct t;
    exec_cases; simpl; auto; tests_passed; intros Hl.
  - apply in_snoc in Hl as [Hl| ->]; auto.
    apply authorized_needs_first_row in Htest.
    right. now apply check_labels in Htest.
  - apply in_replaced in Hl as [[Hl _]|[-> _]]; auto.
    right. now apply check_labels in Htest0.
  - apply filter_In in Hl as [Hl _]. auto.
  - apply filter_In in Hl as [Hl _]. auto.
Qed.

Lemma foreign_images_survive db who s :
  pk_unique db Images ->
  forall i, In i (t_images db) -> foreign_to db who Images i ->
            In i (t_images (fst (exec final_catalog db who s))).
Proof.
  unfold pk_unique, foreign_to. simpl rows. simpl pk. intros NL i Hi Hf.
  destruct s as [u em fn|t ret new|t target set|t target]; try destruct t;
    exec_cases; simpl; auto; tests_passed.
  - apply in_snoc. auto.
  - apply using_images in Htest as (p & Hp & Hw).
    apply stays_in_replaced with (old := old); auto.
    intros ->. now apply (Hf p).
  - apply using_projects in Htest.
    apply filter_In. split; auto. apply negb_true_iff, uuid_eqb_neq.
    intros E. apply (Hf old); auto. simpl in *. split; congruence.
  - apply using_images in Htest as (p & Hp & Hw).
    apply stays_without with (old := old); auto.
    intros ->. now apply (Hf p).
Qed.

Lemma new_images_are_own db who s :
  forall i, In i (t_images (fst (exec final_catalog db who s))) ->
            In i (t_images db) \/ own db who Images i.
Proof.
  intros i.
  destruct s as [u em fn|t ret new|t target set|t target]; try destruct t;
    exec_cases; simpl; auto; tests_passed; intros Hi.
  - apply in_snoc in Hi as [Hi| ->]; auto.
    apply authorized_needs_first_row in Htest.
    right. now apply check_images in Htest.
  - apply in_replaced in Hi as [[Hi _]|[-> _]]; auto.
    right. now apply check_images in Htest0.
  - apply filter_In in Hi as [Hi _]. auto.
  - apply filter_In in Hi as [Hi _]. auto.
Qed.

Lemma foreign_annotations_survive db who s :
  pk_unique db Annotations ->
  forall a, In a (t_annotations db) -> foreign_to db who Annotations a ->
            (forall l, In l (t_labels db) ->
                       labels.id l = annotations.label_id a ->
                       foreign_to db who Labels l) ->
            In a (t_annotations (fst (exec final_catalog db who s))).
Proof.
  unfold pk_unique, foreign_to. simpl rows. simpl pk. intros NA a Ha Hf Hl.
  destruct s as [u em fn|t ret new|t target set|t target]; try destruct t;
    exec_cases; simpl; auto; tests_passed.
  - apply in_snoc. auto.
  - apply using_annotations in Htest as (p & Hp & Hw).
    apply stays_in_replaced with (old := old); auto.
    intros ->. now apply (Hf p).
  - apply using_projects in Htest. simpl in *.
    apply filter_In. split; auto.
    apply andb_true_iff. split; apply negb_true_iff, not_true_is_false;
      intros Hex; apply existsb_exists in Hex as (x & Hx & E);
      apply filter_In in Hx as [Hx Ex];
      apply uuid_eqb_eq in E; apply uuid_eqb_eq in Ex.
    + apply (Hf old); auto. exists x. repeat split; auto; congruence.
    + apply (Hl x Hx E old); auto. split; congruence.
  - apply using_labels in Htest as (p & Hp & Hw). simpl in *.
    apply filter_In. split; auto. apply negb_true_iff, uuid_eqb_neq.
    intros E. apply (Hl old) with (p := p); auto. congruence.
  - apply using_images in Htest as (p & [Hp Ep] & Hw). simpl in *.
    apply filter_In. split; auto. apply negb_true_iff, uuid_eqb_neq.
    intros E. apply (Hf p); auto. exists old. repeat split; auto; congruence.
  - apply using_annotations in Htest as (p & Hp & Hw).
    apply stays_without with (old := old); auto.
    intros ->. now apply (Hf p).
Qed.

Lemma new_annotations_are_own db who s :
  forall a, In a (t_annotations (fst (exec final_catalog db who s))) ->
            In a (t_annotations db) \/ own db who Annotations a.
Proof.
  intros a.
  destruct s as [u em fn|t ret new|t target set|t target]; try destruct t;
    exec_cases; simpl; auto; tests_passed; intros Ha;
    try (apply filter_In in Ha as [Ha _]; auto; fail).
  - apply in_snoc in Ha as [Ha| ->]; auto.
    apply authorized_needs_first_row in Htest.
    right. now apply check_annotations in Htest as [Htest _].
  - apply in_replaced in Ha as [[Ha _]|[-> _]]; auto.
    right. now apply check_annotations in Htest0 as [Htest0 _].
Qed.

Set Implicit Arguments.

(** X13. Under the final rules the statements of a caller touch only what
    belongs to projects that caller created.  A project of another creator,
    and a label or image of such a project, stays stored as it is through any
    statement; an annotation on an image of such a project stays as well,
    unless its label belongs to a project of the caller.  Every row that a
    statement adds to, or rewrites in, these four tables belongs to a project
    the caller created. *)
Theorem final_rules_isolate_creators :
  forall (db : database) (who : caller) (s : statement),
    (forall t, pk_unique db t) ->
    let db' := fst (exec final_catalog db who s) in
    (forall p, In p (t_projects db) ->
               who <> Authenticated (projects.created_by p) ->
               In p (t_projects db'))
    /\ (forall l, In l (t_labels db) -> foreign_to db who Labels l ->
                  In l (t_labels db'))
    /\ (forall i, In i (t_images db) -> foreign_to db who Images i ->
                  In i (t_images db'))
    /\ (forall a, In a (t_annotations db) ->
                  foreign_to db who Annotations a ->
                  (forall l, In l (t_labels db) ->
                             labels.id l = annotations.label_id a ->
                             foreign_to db who Labels l) ->
                  In a (t_annotations db'))
    /\ (forall p, In p (t_projects db') ->
                  In p (t_projects db)
                  \/ who = Authenticated (projects.created_by p))
    /\ (forall l, In l (t_labels db') ->
                  In l (t_labels db) \/ own db who Labels l)
    /\ (forall i, In i (t_images db') ->
                  In i (t_images db) \/ own db who Images i)
    /\ (forall a, In a (t_annotations db') ->
                  In a (t_annotations db) \/ own db who Annotations a).
Proof.
  intros db who s HP db'. subst db'.
  split; [apply foreign_projects_survive; apply HP|].
  split; [apply foreign_labels_survive; apply HP|].
  split; [apply foreign_images_survive; apply HP|].
  split; [apply foreign_annotations_survive; apply HP|].
  split; [apply new_projects_are_own|].
  split; [apply new_labels_are_own|].
  split; [apply new_images_are_own|].
  apply new_annotations_are_own.
Qed.

Lemma sample_keys : forall t, pk_unique sample_db t.
Proof.
  intros t; destruct t; unfold pk_unique; simpl; repeat constructor; simpl;
    intuition discriminate.
Qed.

Lemma final_rules_isolate_creators_witness :
  In p1 (t_projects (fst (exec final_catalog sample_db (Authenticated "u2")
                               (DELETE_FROM Projects "p1")))).
Proof.
  destruct (@final_rules_isolate_creators sample_db (Authenticated "u2")
              (DELETE_FROM Projects "p1") sample_keys) as [HP _].
  apply HP.
  - simpl. auto.
  - discriminate.
Defined.

(** ** Labels across projects *)

(** X14. Neither the policies nor the constraints tie the label of an
    annotation to the project of its image.  Under the final rules the
    creator of the project of an image inserts an annotation on it in its own
    name, with no reviewer or with a reviewer who has a profile, under any
    stored label, whatever project that label belongs to; and once a label is
    deleted, whoever deleted it, no stored annotation refers to it. *)
Theorem annotation_label_is_unconstrained :
  (forall (db : database) (who : caller) (returning : bool)
          (a : annotations.row) (l : labels.row),
      own db who Annotations a ->
      who = Authenticated (annotations.created_by a) ->
      null_or_profile db (annotations.reviewed_by a) ->
      (forall r, In r (t_annotations db) ->
                 annotations.id r <> annotations.id a) ->
      In l (t_labels db) -> labels.id l = annotations.label_id a ->
      exec final_catalog db who (INSERT_INTO Annotations returning a)
      = (set_rows db Annotations (t_annotations db ++ [a]), Done 1))
  /\ (forall (cat : catalog) (db db' : database) (who : caller) (k : uuid),
         exec cat db who (DELETE_FROM Labels k) = (db', Done 1) ->
         forall a, In a (t_annotations db') -> annotations.label_id a <> k).
Proof.
  split.
  - intros db who returning a l Hown Hw _ Hfresh Hl El.
    assert (authorized final_catalog db who returning Annotations (Insert a)
            = true) as HA by (apply annotation_insert_allowed; split; auto).
    destruct Hown as (p & (i & Hi & Ei & _) & _).
    unfold exec. rewrite HA. simpl.
    assert (existsb (fun r => uuid_eqb (annotations.id r) (annotations.id a))
                    (t_annotations db) = false) as Hu.
    { apply existsb_false_forall. intros r Hr. apply uuid_eqb_neq. auto. }
    assert (existsb (fun i0 => uuid_eqb (images.id i0) (annotations.image_id a))
                    (t_images db) = true) as Himg.
    { apply existsb_exists. exists i. split; auto. now apply uuid_eqb_eq. }
    assert (existsb (fun l0 => uuid_eqb (labels.id l0) (annotations.label_id a))
                    (t_labels db) = true) as Hlab.
    { apply existsb_exists. exists l. split; auto. now apply uuid_eqb_eq. }
    unfold unique_violation. simpl. now rewrite Hu, Himg, Hlab.
  - intros cat db db' who k H a Ha.
    apply exec_delete_done in H as (old & _ & _ & _ & _ & ->).
    simpl in Ha. apply filter_In in Ha as [_ Ha].
    now apply negb_true_iff, uuid_eqb_neq in Ha.
Qed.

Lemma annotation_label_is_unconstrained_witness :
  exec final_catalog shared_db (Authenticated "u1")
       (INSERT_INTO Annotations false a9)
  = (set_rows shared_db Annotations [a1; a9], Done 1)
  /\ ~ In a9 (t_annotations
                (fst (exec final_catalog
                           (set_rows shared_db Annotations [a1; a9])
                           (Authenticated "u2") (DELETE_FROM Labels "l9")))).
Proof.
  destruct annotation_label_is_unconstrained as [HI HD].
  split.
  - apply (HI shared_db (Authenticated "u1") false a9 l9).
    + exists p1. split; [exists i1; simpl; auto | reflexivity].
    + reflexivity.
    + exact I.
    + simpl. intros r [<-|[]]. discriminate.
    + simpl. auto.
    + reflexivity.
  - intros Hin.
    apply (HD final_catalog (set_rows shared_db Annotations [a1; a9])
              (fst (exec final_catalog
                         (set_rows shared_db Annotations [a1; a9])
                         (Authenticated "u2") (DELETE_FROM Labels "l9")))
              (Authenticated "u2") "l9") in Hin.
    + now apply Hin.
    + lazy. reflexivity.
Defined.

(** ** Deleting *)

Lemma rows_delete_cascade db t (k : uuid) :
  rows (delete_cascade db t k) t = without t k (rows db t).
Proof. destruct t; reflexivity. Qed.

Lemma referenced_after_delete db t (k : uuid) :
  referenced (delete_cascade db t k) t k = false.
Proof.
  destruct t; simpl; auto;
    rewrite ?orb_false_iff; repeat split;
    apply existsb_false_forall; intros x Hx;
    apply filter_In in Hx as [_ Hx]; now apply negb_true_iff in Hx.
Qed.

(** X15. Whatever the policies, a DELETE that touched its row leaves no row
    with that id in the table and no stored row that refers to it, and the
    same DELETE issued again touches nothing. *)
Theorem delete_is_final :
  forall (cat : catalog) (db db' : database) (who : caller) (t : table)
         (target : uuid),
    exec cat db who (DELETE_FROM t target) = (db', Done 1) ->
    (forall r, In r (rows db' t) -> pk t r <> target)
    /\ referenced db' t target = false
    /\ exec cat db' who (DELETE_FROM t target) = (db', Done 0).
Proof.
  intros cat db db' who t target H.
  apply exec_delete_done in H as (old & _ & _ & _ & _ & ->).
  assert (forall r, In r (rows (delete_cascade db t target) t) ->
                    pk t r <> target) as Hgone.
  { intros r Hr. rewrite rows_delete_cascade in Hr.
    now apply in_without in Hr as [_ Hr]. }
  split; [exact Hgone|]. split; [apply referenced_after_delete|].
  unfold exec.
  destruct (find _ _) as [r|] eqn:F; [|reflexivity].
  apply find_by_id in F as [Hr Er]. now elim (Hgone r Hr).
Qed.

Lemma delete_is_final_witness :
  referenced (fst (exec final_catalog sample_db (Authenticated "u1")
                        (DELETE_FROM Projects "p1"))) Projects "p1" = false.
Proof.
  apply (@delete_is_final final_catalog sample_db
           (fst (exec final_catalog sample_db (Authenticated "u1")
                      (DELETE_FROM Projects "p1")))
           (Authenticated "u1") Projects "p1").
  lazy. reflexivity.
Defined.

(** ** Reviewing *)

Lemma sample_consistent : consistent sample_db.
Proof.
  constructor; simpl.
  - repeat constructor; simpl; tauto.
  - repeat constructor; simpl; tauto.
  - intros i [<-|[]]. exists p1. simpl. auto.
  - intros a [<-|[]]. exists i1. simpl. auto.
  - intros a i p [<-|[]] [<-|[]] [<-|[]] _ _. reflexivity.
Qed.

(** X16. No rule restricts the approval of an annotation beyond the UPDATE
    policy: in a consistent store whose foreign keys resolve, the creator of
    the project of an annotation sets [is_approved] to any value and
    [reviewed_by] to [NULL] or to any user who has a profile, from any
    values, in one UPDATE. *)
Theorem creator_reviews_freely :
  forall (db : database) (u : uuid) (a : annotations.row)
         (approved : option bool) (by_whom : option uuid),
    consistent db -> references_resolve db -> pk_unique db Annotations ->
    In a (t_annotations db) ->
    own db (Authenticated u) Annotations a ->
    null_or_profile db by_whom ->
    exec final_catalog db (Authenticated u)
         (UPDATE_SET Annotations (annotations.id a)
                     (set_review approved by_whom))
    = (set_rows db Annotations
         (replace_row Annotations (annotations.id a)
            (set_review approved by_whom a) (t_annotations db)),
       Done 1).
Proof.
  intros db u a approved by_whom HC HF NA Ha Hown _.
  assert (own db (Authenticated u) Annotations (set_review approved by_whom a))
    as Hown' by exact Hown.
  assert (Authenticated u = Authenticated (annotations.created_by a)) as Hau.
  { destruct Hown as (p & (i & Hi & Ei & Hp & Ep) & Hw).
    rewrite (author_is_creator HC a i p); auto. }
  unfold exec. simpl rows. simpl pk. cbv beta iota delta [row].
  rewrite (@find_unique _ annotations.id (annotations.id a) a
             (t_annotations db) NA Ha eq_refl).
  assert (forall c x, own db (Authenticated u) Annotations x ->
            using_ok final_catalog db (Authenticated u) c Annotations x = true)
    as HU by (intros c x Hx; now apply using_annotations).
  assert (check_ok final_catalog db (Authenticated u) UPDATE Annotations
                   (set_review approved by_whom a) = true) as HK
    by (apply check_annotations; split; auto).
  rewrite !HU, HK by assumption. simpl.
  rewrite (@no_conflict_without Annotations (annotations.id a)
             (set_review approved by_whom a));
    try discriminate; auto.
  destruct (fk_annotations_image HF a Ha) as (i & Hi & Ei).
  destruct (fk_annotations_label HF a Ha) as (l & Hl & El).
  assert (existsb (fun i0 => uuid_eqb (images.id i0) (annotations.image_id a))
                  (t_images db) = true) as ->.
  { apply existsb_exists. exists i. split; auto. now apply uuid_eqb_eq. }
  assert (existsb (fun l0 => uuid_eqb (labels.id l0) (annotations.label_id a))
                  (t_labels db) = true) as ->.
  { apply existsb_exists. exists l. split; auto. now apply uuid_eqb_eq. }
  simpl. now rewrite uuid_eqb_refl.
Qed.

Lemma creator_reviews_freely_witness :
  exec final_catalog sample_db (Authenticated "u1")
       (UPDATE_SET Annotations "a1" (set_review (Some false) (Some "u1")))
  = (set_rows sample_db Annotations
       [set_review (Some false) (Some "u1") a1], Done 1).
Proof.
  apply (@creator_reviews_freely sample_db "u1" a1 (Some false) (Some "u1")
           sample_consistent sample_references (sample_keys Annotations)).
  - simpl. auto.
  - exists p1. split; [exact sample_a1_owned | reflexivity].
  - exists (mk_profile "u1" annotator). simpl. auto.
Defined.

(** ** The label page and the store *)

(** A statement touches one row or none, and none means no change. *)
Lemma exec_done_count cat db db' who s n :
  exec cat db who s = (db', Done n) ->
  n = 1 \/ (n = 0 /\ db' = db).
Proof.
  unfold exec, handle_new_user.
  destruct s as [u em fn|t ret new|t target set|t target];
    repeat match goal with
           | |- context [match find ?f ?l with _ => _ end] =>
               destruct (find f l)
           | |- context [if ?b then _ else _] => destruct b
           end;
    intros E; inversion E; auto.
Qed.

Lemma exec_failed cat db db' who s e :
  exec cat db who s = (db', Failed e) -> db' = db.
Proof.
  intros E. pose proof (@exec_failed_unchanged cat db who s e) as H.
  rewrite E in H. simpl in H. now apply H.
Qed.



Unset Implicit Arguments.











(** X18 (LabelManagement, handleDeleteLabel): the delete handler asks no row
    back, so it cannot tell a delete that removed nothing.  Under any
    policies, when every stored label with the given id is one the caller
    may not delete (or there is none), the store is left as it was, and the
    handler still removes the label from the page and reports success. *)
Theorem delete_reports_success_without_deleting cat db who labelId st :
  (forall l, In l (t_labels db) -> labels.id l = labelId ->
             using_ok cat db who DELETE Labels l = false) ->
  handleDeleteLabel cat db who labelId st = (db, deleted_page labelId st).
Proof.
  intros H. unfold handleDeleteLabel, exec. simpl rows. simpl pk.
  destruct (find _ _) as [old|] eqn:F; [|reflexivity].
  apply find_by_id in F as [Hin Hid].
  rewrite (H old Hin Hid). reflexivity.
Qed.

Lemma delete_reports_success_without_deleting_witness :
  handleDeleteLabel final_catalog sample_db (Authenticated "u2") "l1"
                    page_of_p1
  = (sample_db, deleted_page "l1" page_of_p1).
Proof.
  apply (delete_reports_success_without_deleting final_catalog sample_db
           (Authenticated "u2") "l1" page_of_p1).
  intros l [<-|[]] _. lazy. reflexivity.
Defined.




(** X20 (LabelManagement, handleUpdateLabel): the edit dialog can rename and
    recolour a label and change its annotation type, nothing else.  Under any
    policies and whatever the edited copy holds, the handler leaves every
    table but [labels] as it was, and the stored labels keep their ids and
    their projects, in the stored order. *)
Theorem update_keeps_label_places trim cat db who st :
  pk_unique db Labels ->
  set_rows (fst (handleUpdateLabel trim cat db who st)) Labels (t_labels db)
  = db
  /\ map label_place (t_labels (fst (handleUpdateLabel trim cat db who st)))
     = map label_place (t_labels db).
Proof.
  intros NL. unfold handleUpdateLabel.
  assert (set_rows db Labels (t_labels db) = db) as Hdb
    by (destruct db; reflexivity).
  destruct (editingLabel st) as [e|]; [|simpl; auto].
  match goal with
  | |- context [exec ?c ?d ?w ?s] =>
      destruct (exec c d w s) as [db' [n|err]] eqn:E
  end.
  - assert (set_rows db' Labels (t_labels db) = db
            /\ map label_place (t_labels db') = map label_place (t_labels db))
      as Goal.
    { pose proof (exec_done_count _ _ _ _ E) as [->|[_ ->]]; [|auto].
      apply exec_update_done in E
        as (old & Hold & Eold & _ & _ & _ & _ & _ & _ & _ & _ & ->).
      split; [destruct db; reflexivity|].
      rewrite replace_row_replaced. simpl.
      eapply map_replaced_same;
        [exact NL | exact Hold | exact Eold | reflexivity]. }
    destruct (find _ _); destruct n; exact Goal.
  - apply exec_failed in E. subst db'.
    destruct (find _ _); simpl; auto.
Qed.

Lemma update_keeps_label_places_witness :
  map label_place
      (t_labels (fst (handleUpdateLabel (fun s => s) final_catalog sample_db
                        (Authenticated "u1") page_of_p1)))
  = map label_place (t_labels sample_db).
Proof.
  apply (update_keeps_label_places (fun s => s) final_catalog sample_db
           (Authenticated "u1") page_of_p1 (sample_keys Labels)).
Defined.


(** ** The project page *)



Lemma filter_implied (A : Type) (f g : A -> bool) (l : list A) :
  (forall x, In x l -> f x = true -> g x = true) ->
  filter f (filter g l) = filter f l.
Proof.
  induction l as [|a l IH]; simpl; intros H; auto.
  assert (filter f (filter g l) = filter f l) as IH'
    by (apply IH; intros x Hx; apply H; now right).
  destruct (g a) eqn:G; simpl.
  - now rewrite IH'.
  - destruct (f a) eqn:F; auto.
    rewrite (H a (or_introl eq_refl) F) in G. discriminate.
Qed.

Lemma in_visible cat db who t (r : row t) :
  In r (visible cat db who t) <->
  In r (rows db t) /\ using_ok cat db who SELECT t r = true.
Proof. unfold visible. apply filter_In. Qed.

Lemma visible_keys cat db who t :
  pk_unique db t -> NoDup (map (pk t) (visible cat db who t)).
Proof. intros H. unfold visible. now apply NoDup_map_filter. Qed.



(** X22 (ProjectDetail, getProgressStats): the page counts the completed, the
    in-progress and the pending images, and no others.  The total is the sum
    of the three counts and of the number of images that are reviewed or
    rejected, so the three counts add up to the total exactly when no image
    of the page has been reviewed or rejected. *)
Theorem progress_counts_leave_out_reviewed round_percent st :
  ProgressStats.total (ProjectDetail.getProgressStats round_percent st)
  = ProgressStats.completed (ProjectDetail.getProgressStats round_percent st)
    + ProgressStats.inProgress (ProjectDetail.getProgressStats round_percent st)
    + ProgressStats.pending (ProjectDetail.getProgressStats round_percent st)
    + length (filter (fun img =>
                        image_status_eqb (images.status img) reviewed
                        || image_status_eqb (images.status img) rejected)
                     (ProjectDetail.images st)).
Proof.
  unfold ProjectDetail.getProgressStats.
  cbn [ProgressStats.total ProgressStats.completed ProgressStats.inProgress
       ProgressStats.pending].
  induction (ProjectDetail.images st) as [|img imgs IH]; [reflexivity|].
  cbn [filter length].
  destruct (images.status img); cbn [image_status_eqb orb length]; lia.
Qed.

(** ** The dashboard *)

Lemma list_sum_const0 (A : Type) (l : list A) :
  list_sum (map (fun _ => 0) l) = 0.
Proof. induction l; simpl; auto. Qed.

Lemma list_sum_plus (A : Type) (f g : A -> nat) (l : list A) :
  list_sum (map (fun x => f x + g x) l)
  = list_sum (map f l) + list_sum (map g l).
Proof. induction l; simpl; lia. Qed.

Lemma list_sum_indicator (k : uuid) (ks : list uuid) :
  NoDup ks -> In k ks ->
  list_sum (map (fun k' => if uuid_eqb k k' then 1 else 0) ks) = 1.
Proof.
  induction ks as [|a ks IH]; simpl; intros ND H; [contradiction|].
  inversion ND as [|? ? Hnot ND']; subst.
  destruct H as [->|H].
  - rewrite uuid_eqb_refl.
    rewrite (map_ext_in _ (fun _ => 0)); [now rewrite list_sum_const0|].
    intros k' Hk'. destruct (uuid_eqb k k') eqn:E; auto.
    apply uuid_eqb_eq in E. subst. contradiction.
  - destruct (uuid_eqb k a) eqn:E.
    + apply uuid_eqb_eq in E. subst. contradiction.
    + now apply IH.
Qed.

(** Rows grouped by a key that takes each of its values in [ks]. *)
Lemma count_by_key (A : Type) (key : A -> uuid) (ks : list uuid) (l : list A) :
  NoDup ks -> (forall x, In x l -> In (key x) ks) ->
  list_sum (map (fun k => length (filter (fun x => uuid_eqb (key x) k) l)) ks)
  = length l.
Proof.
  intros ND. induction l as [|a l IH]; intros H.
  - apply list_sum_const0.
  - rewrite (map_ext _
               (fun k => (if uuid_eqb (key a) k then 1 else 0)
                         + length (filter (fun x => uuid_eqb (key x) k) l))).
    + rewrite list_sum_plus, list_sum_indicator, IH; auto.
      * intros x Hx. apply H. now right.
      * apply H. now left.
    + intros k. simpl. destruct (uuid_eqb (key a) k); reflexivity.
Qed.

Lemma NoDup_firstn (A : Type) (n : nat) (l : list A) :
  NoDup l -> NoDup (firstn n l).
Proof.
  intros H. rewrite <- (firstn_skipn n l) in H.
  now apply NoDup_app_remove_r in H.
Qed.

Lemma fetched_project_ids cat db who u :
  pk_unique db Projects ->
  NoDup (map projects.id (Dashboard.fetched_projects cat db who u)).
Proof.
  intros NP. unfold Dashboard.fetched_projects.
  rewrite <- firstn_map, map_rev. apply NoDup_firstn, NoDup_rev.
  apply (NoDup_map_filter projects.id).
  apply (visible_keys cat db who Projects NP).
Qed.

Lemma in_fetched_projects cat db who u (p : projects.row) :
  In p (Dashboard.fetched_projects cat db who u) ->
  In p (t_projects db) /\ projects.created_by p = u
  /\ using_ok cat db who SELECT Projects p = true.
Proof.
  unfold Dashboard.fetched_projects. intros H.
  assert (In p (rev (filter (fun p => uuid_eqb (projects.created_by p) u)
                            (visible cat db who Projects)))) as H'.
  { rewrite <- (firstn_skipn 5). apply in_or_app. now left. }
  apply in_rev in H'. apply filter_In in H' as [Hv E].
  apply (in_visible cat db who Projects p) in Hv as [Hin Hu].
  apply uuid_eqb_eq in E. auto.
Qed.

(** X23 (Dashboard, fetchDashboardStats): what the dashboard counts, under
    any policies.  [totalProjects] is the number of the caller's own visible
    projects cut at five, the [limit] of the query for the recent projects;
    it is the length of [recentProjects]; [completedImages] does not exceed
    [totalImages]; and with unique project ids [totalImages] is the sum of
    the [imageCount] of the recent projects. *)
Theorem dashboard_counts cat db u st :
  pk_unique db Projects ->
  Dashboard.totalProjects
    (Dashboard.stats
       (Dashboard.fetchDashboardStats cat db (Authenticated u) st))
  = Nat.min 5 (length (filter (fun p => uuid_eqb (projects.created_by p) u)
                              (visible cat db (Authenticated u) Projects)))
  /\ length (Dashboard.recentProjects
               (Dashboard.stats
                  (Dashboard.fetchDashboardStats cat db (Authenticated u) st)))
     = Dashboard.totalProjects
         (Dashboard.stats
            (Dashboard.fetchDashboardStats cat db (Authenticated u) st))
  /\ Dashboard.completedImages
       (Dashboard.stats
          (Dashboard.fetchDashboardStats cat db (Authenticated u) st))
     <= Dashboard.totalImages
          (Dashboard.stats
             (Dashboard.fetchDashboardStats cat db (Authenticated u) st))
  /\ list_sum (map RecentProject.imageCount
                   (Dashboard.recentProjects
                      (Dashboard.stats
                         (Dashboard.fetchDashboardStats cat db
                            (Authenticated u) st))))
     = Dashboard.totalImages
         (Dashboard.stats
            (Dashboard.fetchDashboardStats cat db (Authenticated u) st)).
Proof.
  intros NP. unfold Dashboard.fetchDashboardStats.
  cbn [auth_uid Dashboard.stats Dashboard.totalProjects
       Dashboard.recentProjects Dashboard.completedImages
       Dashboard.totalImages].
  split; [|split; [|split]].
  - unfold Dashboard.fetched_projects.
    now rewrite length_firstn, length_rev.
  - apply length_map.
  - apply filter_length_le.
  - rewrite map_map. cbn [RecentProject.imageCount].
    set (ps := Dashboard.fetched_projects cat db (Authenticated u) u).
    rewrite <- (count_by_key _ images.project_id (map projects.id ps)
                  (Dashboard.fetched_images cat db (Authenticated u) ps)).
    + now rewrite map_map.
    + now apply fetched_project_ids.
    + intros x Hx. unfold Dashboard.fetched_images in Hx.
      apply filter_In in Hx as [_ Hx].
      apply existsb_exists in Hx as (k & Hk & E).
      apply uuid_eqb_eq in E. now rewrite E.
Qed.

Lemma dashboard_counts_witness :
  Dashboard.totalProjects
    (Dashboard.stats
       (Dashboard.fetchDashboardStats final_catalog sample_db
          (Authenticated "u1")
          {| Dashboard.stats :=
               {| Dashboard.totalProjects := 0; Dashboard.totalImages := 0;
                  Dashboard.completedImages := 0;
                  Dashboard.recentProjects := [] |};
             Dashboard.loading := true |}))
  = Nat.min 5 (length (filter (fun p => uuid_eqb (projects.created_by p) "u1")
                              (visible final_catalog sample_db
                                 (Authenticated "u1") Projects))).
Proof.
  destruct (dashboard_counts final_catalog sample_db "u1"
              {| Dashboard.stats :=
                   {| Dashboard.totalProjects := 0; Dashboard.totalImages := 0;
                      Dashboard.completedImages := 0;
                      Dashboard.recentProjects := [] |};
                 Dashboard.loading := true |}
              (sample_keys Projects)) as [H _].
  exact H.
Defined.

(** X24 (Dashboard, fetchDashboardStats, with the final policies): under the
    final rule set the dashboard of a user counts the images of the store
    itself.  Every recent project is a stored project the user created, and
    its [imageCount] is the number of stored images of that project, none
    hidden by a policy. *)
Theorem dashboard_counts_every_image db u st r :
  pk_unique db Projects ->
  In r (Dashboard.recentProjects
          (Dashboard.stats
             (Dashboard.fetchDashboardStats final_catalog db
                (Authenticated u) st))) ->
  In (RecentProject.project r) (t_projects db)
  /\ projects.created_by (RecentProject.project r) = u
  /\ RecentProject.imageCount r
     = length (filter (fun img =>
                         uuid_eqb (images.project_id img)
                                  (projects.id (RecentProject.project r)))
                      (t_images db)).
Proof.
  intros NP. unfold Dashboard.fetchDashboardStats.
  cbn [auth_uid Dashboard.stats Dashboard.recentProjects].
  intros Hr. apply in_map_iff in Hr as (p & <- & Hp).
  cbn [RecentProject.project RecentProject.imageCount].
  pose proof (in_fetched_projects final_catalog db (Authenticated u) u p Hp)
    as (Hin & Ec & _).
  repeat split; auto.
  f_equal. unfold Dashboard.fetched_images, visible.
  rewrite filter_implied.
  - apply filter_implied. intros i Hi E. apply uuid_eqb_eq in E.
    apply (using_images db (Authenticated u) SELECT i).
    exists p. simpl. repeat split; auto. congruence.
  - intros i Hi E. apply existsb_exists.
    exists (projects.id p). split; auto. now apply in_map.
Qed.

Lemma dashboard_counts_every_image_witness :
  RecentProject.imageCount
    {| RecentProject.project := p1; RecentProject.imageCount := 1 |}
  = length (filter (fun img => uuid_eqb (images.project_id img)
                                        (projects.id p1))
                   (t_images sample_db)).
Proof.
  apply (dashboard_counts_every_image sample_db "u1"
           {| Dashboard.stats :=
                {| Dashboard.totalProjects := 0; Dashboard.totalImages := 0;
                   Dashboard.completedImages := 0;
                   Dashboard.recentProjects := [] |};
              Dashboard.loading := true |}
           {| RecentProject.project := p1; RecentProject.imageCount := 1 |}
           (sample_keys Projects)).
  lazy. auto.
Defined.


(** ** The upload page *)

Lemma set_rows_same db t : set_rows db t (rows db t) = db.
Proof. destruct db, t; reflexivity. Qed.

Lemma set_rows_twice db t (l l' : list (row t)) :
  set_rows (set_rows db t l) t l' = set_rows db t l'.
Proof. destruct db, t; reflexivity. Qed.

(** One run of the loop from any point: the image rows it adds. *)
Lemma upload_each_adds env cat who pid user_id snapshot :
  forall n at_,
  exists added,
    t_images (ImageUpload.store
                (ImageUpload.upload_each env cat who pid user_id snapshot n at_))
    = t_images (ImageUpload.store at_) ++ added
    /\ ImageUpload.successCount
         (ImageUpload.upload_each env cat who pid user_id snapshot n at_)
       = ImageUpload.successCount at_ + length added
    /\ (forall i, In i added -> uploaded_for pid user_id i)
    /\ set_rows (ImageUpload.store
                   (ImageUpload.upload_each env cat who pid user_id snapshot
                      n at_))
                Images (t_images (ImageUpload.store at_))
       = ImageUpload.store at_.
Proof.
  induction snapshot as [|uploadFile rest IH]; intros n at_.
  - exists []. simpl. rewrite app_nil_r, Nat.add_0_r.
    split; [reflexivity|]. split; [reflexivity|].
    split; [contradiction|]. apply (set_rows_same _ Images).
  - cbn [ImageUpload.upload_each].
    destruct (negb (is_pending uploadFile)); [apply IH|].
    destruct (negb (image_loads env (UploadFile.preview uploadFile))).
    { exists []. simpl. rewrite app_nil_r, Nat.add_0_r.
      split; [reflexivity|]. split; [reflexivity|].
      split; [contradiction|]. apply (set_rows_same _ Images). }
    unfold image_record.
    destruct (payload_fits env uploadFile);
      [|match goal with
        | |- context [ImageUpload.upload_each _ _ _ _ _ rest (S n) ?a] =>
            exact (IH (S n) a)
        end].
    match goal with
    | |- context [INSERT_INTO Images false ?r] => set (record := r)
    end.
    destruct (exec cat (ImageUpload.store at_) who _) as [db' [k|e]] eqn:E.
    + apply exec_insert_done in E as (_ & -> & _).
      match goal with
      | |- context [ImageUpload.upload_each _ _ _ _ _ rest (S n) ?a] =>
          destruct (IH (S n) a) as (added & H1 & H2 & H3 & H4)
      end.
      cbn [ImageUpload.store ImageUpload.successCount] in H1, H2, H4.
      exists (record :: added).
      simpl in H1. rewrite <- app_assoc in H1. simpl in H1.
      split; [exact H1|]. split; [rewrite H2; simpl; lia|].
      split.
      * intros i [<-|Hi]; [repeat split|now apply H3].
      * apply (f_equal (fun d => set_rows d Images
                                   (t_images (ImageUpload.store at_)))) in H4.
        rewrite !(set_rows_twice _ Images) in H4.
        rewrite H4. apply (set_rows_same _ Images).
    + apply exec_failed in E. subst db'.
      match goal with
      | |- context [ImageUpload.upload_each _ _ _ _ _ rest (S n) ?a] =>
          destruct (IH (S n) a) as (added & H1 & H2 & H3 & H4)
      end.
      exists added. auto.
Qed.


(** X25 (ImageUpload, uploadFiles): the upload writes image rows and nothing
    else, and the number it reports is the number of rows it added.  Under
    any policies the store after [uploadFiles] is the store before with new
    rows at the end of [images]; each new row belongs to the project of the
    route, names the user of the session as uploader and is pending and
    unassigned; and if the page raises [Upload Complete], the count in the
    message is the number of the new rows. *)
Theorem upload_reports_the_rows_it_added env cat db u pid st :
  exists added,
    t_images (fst (ImageUpload.uploadFiles env cat db (Authenticated u)
                     (Some pid) st))
    = t_images db ++ added
    /\ (forall i, In i added -> uploaded_for pid u i)
    /\ set_rows (fst (ImageUpload.uploadFiles env cat db (Authenticated u)
                        (Some pid) st))
                Images (t_images db)
       = db
    /\ (ImageUpload.toasts
          (snd (ImageUpload.uploadFiles env cat db (Authenticated u)
                  (Some pid) st))
        = ImageUpload.toasts st
        \/ ImageUpload.toasts
             (snd (ImageUpload.uploadFiles env cat db (Authenticated u)
                     (Some pid) st))
           = ImageUpload.toasts st ++ [upload_complete (length added)]).
Proof.
  unfold ImageUpload.uploadFiles. cbn [auth_uid].
  destruct (_ || _).
  { exists []. simpl. rewrite app_nil_r.
    split; [reflexivity|]. split; [contradiction|].
    split; [apply (set_rows_same _ Images)|]. now left. }
  match goal with
  | |- context [ImageUpload.upload_each env cat ?w pid u ?sn 0 ?a] =>
      destruct (upload_each_adds env cat w pid u sn 0 a)
        as (added & H1 & H2 & H3 & H4);
      set (done := ImageUpload.upload_each env cat w pid u sn 0 a) in *
  end.
  cbn [ImageUpload.store ImageUpload.successCount] in H1, H2, H4.
  simpl in H2.
  exists added.
  destruct (negb (ImageUpload.finished done));
    [|destruct (0 <? ImageUpload.successCount done)%nat];
    cbn [fst snd ImageUpload.toasts];
    (split; [exact H1|]; split; [exact H3|]; split; [exact H4|]);
    [now left | right; now rewrite H2 | now left].
Qed.

Lemma image_insert_authorized db who (i : images.row) :
  authorized final_catalog db who false Images (Insert i) = true <->
  created_project db who (images.project_id i).
Proof.
  unfold authorized. simpl negb. rewrite orb_true_l, andb_true_r.
  rewrite check_images. unfold created_project. simpl.
  split; intros (p & H); exists p; tauto.
Qed.




Lemma upload_each_finished env cat who pid user_id snapshot :
  forall n at_,
  ImageUpload.finished
    (ImageUpload.upload_each env cat who pid user_id snapshot n at_)
  = negb (existsb (never_loads env) snapshot).
Proof.
  induction snapshot as [|uploadFile rest IH]; intros n at_; [reflexivity|].
  cbn [ImageUpload.upload_each existsb]. unfold never_loads at 1.
  destruct (is_pending uploadFile); cbn [negb andb orb]; [|apply IH].
  destruct (image_loads env (UploadFile.preview uploadFile));
    cbn [negb orb]; [|reflexivity].
  destruct (image_record env pid user_id n uploadFile) as [record|];
    [|apply IH].
  destruct (exec cat (ImageUpload.store at_) who _) as [db' [k|e]];
    apply IH.
Qed.

(** X27 (ImageUpload, uploadFiles): the upload waits for the preview of
    every pending file, with no way out.  Under any policies, for a signed-in
    user, a project id in the route and a non-empty queue, the page is left
    with [uploading] set exactly when some pending file of the queue has a
    preview that never loads; then it reports nothing and does not
    navigate. *)
Theorem upload_waits_for_every_preview env cat db u pid st :
  pid <> "" -> ImageUpload.files st <> [] ->
  ImageUpload.uploading
    (snd (ImageUpload.uploadFiles env cat db (Authenticated u) (Some pid) st))
  = existsb (never_loads env) (ImageUpload.files st)
  /\ (existsb (never_loads env) (ImageUpload.files st) = true ->
      ImageUpload.toasts
        (snd (ImageUpload.uploadFiles env cat db (Authenticated u) (Some pid)
                st))
      = ImageUpload.toasts st
      /\ ImageUpload.location
           (snd (ImageUpload.uploadFiles env cat db (Authenticated u)
                   (Some pid) st))
         = ImageUpload.location st).
Proof.
  intros Hpid Hfiles. unfold ImageUpload.uploadFiles. cbn [auth_uid].
  apply String.eqb_neq in Hpid. rewrite Hpid.
  destruct (ImageUpload.files st) as [|f fs] eqn:Ef; [contradiction|].
  cbn [length Nat.eqb orb]. rewrite upload_each_finished, negb_involutive.
  destruct (existsb (never_loads env) (f :: fs)).
  - cbn [snd ImageUpload.uploading ImageUpload.toasts ImageUpload.location].
    auto.
  - split; [|discriminate].
    destruct (0 <? _)%nat; reflexivity.
Qed.

Lemma upload_waits_for_every_preview_witness :
  ImageUpload.uploading
    (snd (ImageUpload.uploadFiles sample_env final_catalog sample_db
            (Authenticated "u1") (Some "p1") upload_page_one))
  = existsb (never_loads sample_env) (ImageUpload.files upload_page_one).
Proof.
  destruct (upload_waits_for_every_preview sample_env final_catalog sample_db
              "u1" "p1" upload_page_one) as [H _].
  - discriminate.
  - discriminate.
  - exact H.
Defined.

Lemma upload_each_creator env who pid user_id snapshot :
  forall n at_,
  created_project (ImageUpload.store at_) who pid ->
  existsb (never_loads env) snapshot = false ->
  existsb (too_large env) snapshot = false ->
  NoDup (map images.id (t_images (ImageUpload.store at_))
         ++ map (gen_random_uuid env) (seq n (length snapshot))) ->
  ImageUpload.successCount
    (ImageUpload.upload_each env final_catalog who pid user_id snapshot n at_)
  = ImageUpload.successCount at_ + length (filter is_pending snapshot).
Proof.
  induction snapshot as [|uploadFile rest IH]; intros n at_ HC HL HF ND.
  - simpl. lia.
  - cbn [ImageUpload.upload_each filter].
    cbn [existsb] in HL. apply orb_false_iff in HL as [HL1 HL2].
    cbn [existsb] in HF. apply orb_false_iff in HF as [HF1 HF2].
    cbn [length seq map] in ND.
    unfold never_loads in HL1. unfold too_large in HF1.
    destruct (is_pending uploadFile); cbn [negb].
    + cbn [andb] in HL1. apply negb_false_iff in HL1. rewrite HL1.
      cbn [andb] in HF1. apply negb_false_iff in HF1.
      cbn [negb]. unfold image_record. rewrite HF1.
      match goal with
      | |- context [INSERT_INTO Images false ?r] => set (new := r)
      end.
      assert (exec final_catalog (ImageUpload.store at_) who
                   (INSERT_INTO Images false new)
              = (set_rows (ImageUpload.store at_) Images
                   (rows (ImageUpload.store at_) Images ++ [new]), Done 1))
        as E.
      { unfold exec.
        assert (authorized final_catalog (ImageUpload.store at_) who false
                           Images (Insert new) = true) as ->
          by now apply image_insert_authorized.
        assert (unique_violation Images
                  (rows (ImageUpload.store at_) Images) new = false) as ->.
        { apply existsb_false_forall. intros x Hx. simpl.
          apply uuid_eqb_neq. intros Ex.
          apply NoDup_remove_2 in ND. apply ND. apply in_or_app. left.
          rewrite <- Ex. now apply in_map. }
        assert (parents_exist (ImageUpload.store at_) Images new = true) as ->.
        { destruct HC as (p & Hp & Ei & _). simpl. apply existsb_exists.
          exists p. split; auto. now apply uuid_eqb_eq. }
        reflexivity. }
      rewrite E. rewrite IH; [| exact HC | exact HL2 | exact HF2 |].
      * cbn [ImageUpload.successCount length]. lia.
      * cbn [ImageUpload.store]. simpl t_images. simpl rows.
        rewrite map_app, <- app_assoc. exact ND.
    + rewrite IH; auto. apply NoDup_remove_1 in ND. exact ND.
Qed.

(** X28 (ImageUpload, uploadFiles, with the final policy and the constraints
    of [images]): the creator of the project uploads every pending file that
    the store can hold.  When the caller created the project of the route,
    every pending preview loads, the size, the width and the height of every
    pending file fit the type [INTEGER], and the ids the store draws are new
    and distinct, the store gains one image row for each pending file of the
    queue; if there is one at least, the page reports their number and
    navigates to the project. *)
Theorem the_creator_uploads_every_pending_file env db u pid st :
  pid <> "" ->
  created_project db (Authenticated u) pid ->
  existsb (never_loads env) (ImageUpload.files st) = false ->
  existsb (too_large env) (ImageUpload.files st) = false ->
  NoDup (map images.id (t_images db)
         ++ map (gen_random_uuid env) (seq 0 (length (ImageUpload.files st)))) ->
  length (t_images (fst (ImageUpload.uploadFiles env final_catalog db
                           (Authenticated u) (Some pid) st)))
  = length (t_images db) + length (filter is_pending (ImageUpload.files st))
  /\ (filter is_pending (ImageUpload.files st) <> [] ->
      ImageUpload.uploading
        (snd (ImageUpload.uploadFiles env final_catalog db (Authenticated u)
                (Some pid) st)) = false
      /\ ImageUpload.toasts
           (snd (ImageUpload.uploadFiles env final_catalog db
                   (Authenticated u) (Some pid) st))
         = ImageUpload.toasts st
           ++ [upload_complete
                 (length (filter is_pending (ImageUpload.files st)))]
      /\ ImageUpload.location
           (snd (ImageUpload.uploadFiles env final_catalog db
                   (Authenticated u) (Some pid) st))
         = Some (String.append "/projects/" pid)).
Proof.
  intros Hpid HC HL HT ND. unfold ImageUpload.uploadFiles. cbn [auth_uid].
  apply String.eqb_neq in Hpid. rewrite Hpid. cbn [orb].
  destruct (ImageUpload.files st) as [|f fs] eqn:Ef.
  { simpl. split; [lia|]. intros H. now elim H. }
  cbn [length Nat.eqb].
  match goal with
  | |- context [ImageUpload.upload_each env final_catalog ?w pid u ?sn 0 ?a] =>
      pose proof (upload_each_creator env w pid u sn 0 a HC HL HT ND) as HS;
      pose proof (upload_each_finished env final_catalog w pid u sn 0 a) as HF;
      destruct (upload_each_adds env final_catalog w pid u sn 0 a)
        as (added & H1 & H2 & _ & _);
      set (done := ImageUpload.upload_each env final_catalog w pid u sn 0 a)
        in *
  end.
  cbn [ImageUpload.store ImageUpload.successCount] in HS, H1, H2.
  cbn [Nat.add] in HS, H2. rewrite HL in HF. simpl in HF. rewrite HF.
  cbn [negb].
  assert (length (t_images (ImageUpload.store done))
          = length (t_images db) + length (filter is_pending (f :: fs))) as HN.
  { rewrite H1, length_app. lia. }
  destruct (0 <? ImageUpload.successCount done)%nat eqn:Epos;
    cbn [fst snd ImageUpload.uploading ImageUpload.toasts
         ImageUpload.location].
  - split; [exact HN|]. intros _. rewrite HS. auto.
  - split; [exact HN|]. intros Hne. apply Nat.ltb_ge in Epos.
    destruct (filter is_pending (f :: fs)); [now elim Hne|].
    cbn [length] in HS. lia.
Qed.

Lemma the_creator_uploads_every_pending_file_witness :
  length (t_images (fst (ImageUpload.uploadFiles sample_env final_catalog
                           sample_db (Authenticated "u1") (Some "p1")
                           upload_page_one)))
  = length (t_images sample_db)
    + length (filter is_pending (ImageUpload.files upload_page_one)).
Proof.
  destruct (the_creator_uploads_every_pending_file sample_env sample_db "u1"
              "p1" upload_page_one) as [H _].
  - discriminate.
  - exists p1. repeat split. simpl. auto.
  - reflexivity.
  - reflexivity.
  - simpl. repeat constructor; simpl; intuition discriminate.
  - exact H.
Defined.

Lemma filter_keeps_all (A : Type) (f : A -> bool) (l : list A) :
  length (filter f l) = length l <-> forall x, In x l -> f x = true.
Proof.
  induction l as [|a l IH]; simpl; [tauto|].
  pose proof (filter_length_le f l) as Hle.
  destruct (f a) eqn:F; simpl.
  - split.
    + intros E x [<-|Hx]; auto. apply IH; auto.
    + intros H. f_equal. apply IH. auto.
  - split; [lia|]. intros H. rewrite (H a (or_introl eq_refl)) in F.
    discriminate.
Qed.

Lemma mapi_spec (A B C : Type) (f : nat -> A -> B) (g : B -> C) (h : A -> C)
  (l : list A) :
  (forall k a, g (f k a) = h a) ->
  forall k, map g (mapi f k l) = map h l.
Proof.
  intros H. induction l as [|a l IH]; intros k; simpl; [reflexivity|].
  now rewrite H, IH.
Qed.

(** X29 (ImageUpload, handleFiles): the page queues the image files of a
    drop, in their order, and only those.  The queue keeps its entries, the
    new entries are the files whose type starts with [image/], each pending
    with no progress, no error and a preview; and [Invalid Files] is raised
    exactly when some dropped file is not an image. *)
Theorem handleFiles_queues_the_images env fileList st :
  exists newFiles,
    ImageUpload.files (ImageUpload.handleFiles env fileList st)
    = ImageUpload.files st ++ newFiles
    /\ map UploadFile.file newFiles
       = filter (fun file => String.prefix "image/" (File.type file)) fileList
    /\ map (with_status UploadStatus.pending 0) newFiles = newFiles
    /\ (forall f, In f newFiles ->
                  UploadFile.error f = None /\ UploadFile.preview f <> None)
    /\ (ImageUpload.toasts (ImageUpload.handleFiles env fileList st)
        = ImageUpload.toasts st
        <-> forall file, In file fileList ->
                         String.prefix "image/" (File.type file) = true).
Proof.
  unfold ImageUpload.handleFiles.
  cbn [ImageUpload.files ImageUpload.toasts].
  set (is_image := fun file => String.prefix "image/" (File.type file)).
  set (entry := fun k file =>
         {| UploadFile.file := file; UploadFile.id := random_id env k;
            UploadFile.progress := 0;
            UploadFile.status := UploadStatus.pending;
            UploadFile.error := None;
            UploadFile.preview := Some (createObjectURL env file) |}).
  exists (mapi entry 0 (filter is_image fileList)).
  split; [reflexivity|]. split; [|split; [|split]].
  - rewrite (mapi_spec _ _ _ entry UploadFile.file (fun a => a));
      [apply map_id | reflexivity].
  - assert (forall l k, map (with_status UploadStatus.pending 0)
                            (mapi entry k l) = mapi entry k l) as H.
    { induction l as [|a l IH]; intros k; simpl; [reflexivity|].
      now rewrite IH. }
    apply H.
  - assert (forall l k f, In f (mapi entry k l) ->
              UploadFile.error f = None /\ UploadFile.preview f <> None) as H.
    { induction l as [|a l IH]; intros k f; simpl; [contradiction|].
      intros [<-|Hf]; [split; [reflexivity|discriminate]|].
      now apply (IH (S k)). }
    apply H.
  - pose proof (filter_keeps_all _ is_image fileList) as K.
    subst is_image. cbv beta in K.
    destruct (length (filter _ fileList) =? length fileList)%nat eqn:E;
      cbn [negb].
    + apply Nat.eqb_eq in E. split; [intros _; now apply K | reflexivity].
    + apply Nat.eqb_neq in E. split.
      * intros H. apply (f_equal (@length toast)) in H.
        rewrite length_app in H. simpl in H. lia.
      * intros H. apply K in H. contradiction.
Qed.
